(** * financial-mgr: currency conversion, asset liquidation and ensemble risk

  A shallow embedding of the TypeScript classes
    - [CurrencyEngine]  (modules/currency.ts),
    - [AssetEngine]     (modules/assets.ts),
    - [RiskEngine]      (risk.ts),
    - [StatsEngine]     (stats.ts),
  over the records of modules/types.ts, followed by the properties of the
  written specification that these classes decide.

  Numbers.  A finite JavaScript [number] is embedded as a rational [Q]
  and arithmetic on finite numbers is exact: IEEE-754 rounding, overflow
  and underflow are not represented.  Where the source divides by a value
  that may be zero the quotient is a [JS.Number], which carries [NaN] and
  the two infinities.  The 32-bit integer operators of the random
  generator are embedded on [Z] with their wrap-around written out. *)

From Stdlib Require Import ZArith QArith Qround Qabs Lqa Lia Sorted.
From stdpp Require Import base option list gmap strings.

Set Default Proof Using "Type".

(* ===================================================================== *)
(** * JavaScript values                                                    *)
(* ===================================================================== *)

Module JS.

(** Exceptions.  [Error msg] is [throw new Error(msg)]; [TypeError] is the
    exception the runtime raises when a property of [undefined] is read;
    its argument names the property. *)
Inductive Exception : Type :=
| Error (message : string)
| TypeError (property : string).

(** The outcome of a call.  [NonFinite] marks a call whose value is an
    IEEE infinity or a NaN derived from one, at a point where the
    embedding keeps a rational. *)
Inductive Completion (A : Type) : Type :=
| Normal (a : A)
| Throw (e : Exception)
| NonFinite.
Arguments Normal {A} a.
Arguments Throw {A} e.
Arguments NonFinite {A}.

Definition bind {A B} (c : Completion A) (k : A → Completion B) : Completion B :=
  match c with
  | Normal a => k a
  | Throw e => Throw e
  | NonFinite => NonFinite
  end.

#[global] Instance completion_ret : MRet Completion := @Normal.
#[global] Instance completion_bind : MBind Completion :=
  λ A B k c, bind c k.

(** Reading a field of a value that may be [undefined]. *)
Definition field {A B} (property : string) (get : A → B) (o : option A)
  : Completion B :=
  match o with
  | Some a => Normal (get a)
  | None => Throw (TypeError property)
  end.

(** [Array.prototype.map] with a callback that may throw: the callback
    runs on the elements from left to right and the first exception ends
    the call. *)
Fixpoint mapM {A B} (f : A → Completion B) (l : list A) : Completion (list B) :=
  match l with
  | [] => Normal []
  | a :: t => b ← f a; bs ← mapM f t; Normal (b :: bs)
  end.

(** ** Finite numbers *)

Local Open Scope Q_scope.

Definition Math_max (a b : Q) : Q := if Qle_bool a b then b else a.
Definition Math_min (a b : Q) : Q := if Qle_bool a b then a else b.

(** [Math.round]: the nearest integer, a tie going up. *)
Definition Math_round (x : Q) : Z := Qfloor (x + (1 # 2)).

(** [Number(x.toFixed(digits))] (equally [parseFloat(x.toFixed(digits))]).
    For [|x| < 10^21], [toFixed] prints the integer [n] for which [n / 10^digits - |x|] is
    closest to zero, the larger [n] on a tie, with the sign of [x] in
    front; from [10^21] on it prints [x] itself. *)
Definition toFixed (digits : nat) (x : Q) : Q :=
  if Qle_bool (inject_Z (10 ^ 21)) (Qabs x) then x
  else
    let scale := (10 ^ Z.of_nat digits)%Z in
    let n := Qfloor (Qabs x * inject_Z scale + (1 # 2)) in
    inject_Z (Z.sgn (Qnum x) * n) / inject_Z scale.

(** ** Numbers with NaN and infinities *)

Inductive Number : Type :=
| Fin (q : Q)
| NaN
| Infinity (negative : bool).

Definition Qneg (q : Q) : bool := negb (Qle_bool 0 q).

(** [a / b] on finite operands. *)
Definition div (a b : Q) : Number :=
  if Qeq_bool b 0 then
    if Qeq_bool a 0 then NaN else Infinity (Qneg a)
  else Fin (a / b).

Definition Nadd (x y : Number) : Number :=
  match x, y with
  | Fin a, Fin b => Fin (a + b)
  | NaN, _ | _, NaN => NaN
  | Infinity s, Fin _ | Fin _, Infinity s => Infinity s
  | Infinity s, Infinity t => if Bool.eqb s t then Infinity s else NaN
  end.

Definition Nopp (x : Number) : Number :=
  match x with
  | Fin a => Fin (- a)
  | NaN => NaN
  | Infinity s => Infinity (negb s)
  end.

Definition Nsub (x y : Number) : Number := Nadd x (Nopp y).

Definition Nmul (x y : Number) : Number :=
  match x, y with
  | Fin a, Fin b => Fin (a * b)
  | NaN, _ | _, NaN => NaN
  | Infinity s, Fin a | Fin a, Infinity s =>
      if Qeq_bool a 0 then NaN else Infinity (xorb s (Qneg a))
  | Infinity s, Infinity t => Infinity (xorb s t)
  end.

(** [x / n] for a finite divisor [n]. *)
Definition Ndiv (x : Number) (n : Q) : Number :=
  match x with
  | Fin a => div a n
  | NaN => NaN
  | Infinity s => Infinity (xorb s (Qneg n))
  end.

(** [Math.min(x, b)] with a finite [b]. *)
Definition Nmin (x : Number) (b : Q) : Number :=
  match x with
  | Fin a => Fin (Math_min a b)
  | NaN => NaN
  | Infinity true => Infinity true
  | Infinity false => Fin b
  end.

(** [toFixed] prints [NaN] and the infinities by name and the parser
    reads them back. *)
Definition NtoFixed (digits : nat) (x : Number) : Number :=
  match x with
  | Fin a => Fin (toFixed digits a)
  | other => other
  end.

(** ** 32-bit integer conversions *)

Local Open Scope Z_scope.

Definition ToInt32 (z : Z) : Z := (z + 2 ^ 31) mod 2 ^ 32 - 2 ^ 31.
Definition ToUint32 (z : Z) : Z := z mod 2 ^ 32.

End JS.

Import JS.

(* ===================================================================== *)
(** * modules/types.ts                                                     *)
(* ===================================================================== *)

Module Types.

Inductive LiquidityClass : Type := liquid | illiquid | yield | volatile.

#[global] Instance LiquidityClass_eq_dec : EqDecision LiquidityClass.
Proof. solve_decision. Defined.

(** A [Date] field holds a [Date] object; after a trip through JSON it
    holds the ISO string of the same instant.  Both carry the time in
    milliseconds. *)
Inductive DateValue : Type :=
| DateObject (time : Z)
| DateString (time : Z).

Record Asset : Type := mkAsset {
  id : string;
  name : string;
  amount : Q;
  currency : string;
  volatility : Q;
  liquidityClass : LiquidityClass;
  lockedUntil : option DateValue;
  baseValue : option Q
}.

(** [{ ...asset, amount: v }], and equally [asset.amount = v] on the
    value stored for an object. *)
Definition with_amount (asset : Asset) (v : Q) : Asset :=
  mkAsset (id asset) (name asset) v (currency asset) (volatility asset)
          (liquidityClass asset) (lockedUntil asset) (baseValue asset).

Record DailyRecord : Type := mkDailyRecord {
  day : Z;
  dr_balance : Q;
  dr_creditScore : Q;
  dr_assets : list Asset;
  vibeScore : Q;
  collapsedFlag : bool
}.

Record Liability : Type := mkLiability {
  l_id : string;
  l_type : string;
  principalBalance : Q;
  interestRate : Q;
  l_currency : string;
  minimumPayment : option Q;
  createdAt : Z
}.

Record WalletState : Type := mkWalletState {
  date : Z;
  balance : Q;
  assets : list Asset;
  liabilities : list Liability;
  creditScore : Q;
  dayNumber : Z;
  history : list DailyRecord
}.

(** [ExchangeRates]: the numeric entries keyed by ["FROM/TO"], and the
    [timestamp] entry. *)
Record ExchangeRates : Type := mkExchangeRates {
  rates : gmap string Q;
  timestamp : Z
}.

End Types.

Import Types.

(* ===================================================================== *)
(** * modules/currency.ts                                                  *)
(* ===================================================================== *)

Module CurrencyEngine.

Local Open Scope Q_scope.

Definition precision : nat := 6%nat.

(** [Number(value.toFixed(this.precision))] *)
Definition truncateToPrecision (value : Q) : Q := toFixed precision value.

(** The template string [`${a}/${b}`]. *)
Definition pairKey (a b : string) : string := a +:+ "/" +:+ b.

(** [pair in this.exchangeRates && pair !== "timestamp"], with the entry
    read when the test holds. *)
Definition rateOf (tbl : ExchangeRates) (pair : string) : option Q :=
  if String.eqb pair "timestamp" then None else rates tbl !! pair.

Definition intermediaries : list string := ["USD"; "EUR"]%string.

Fixpoint indirectVia (tbl : ExchangeRates) (from to : string)
         (inters : list string) : option Q :=
  match inters with
  | [] => None
  | inter :: rest =>
      if bool_decide (inter = from) || bool_decide (inter = to)
      then indirectVia tbl from to rest
      else
        match rates tbl !! pairKey from inter, rates tbl !! pairKey inter to with
        | Some r1, Some r2 => Some (r1 * r2)
        | _, _ => indirectVia tbl from to rest
        end
  end.

Definition getIndirectRate (tbl : ExchangeRates) (from to : string) : option Q :=
  indirectVia tbl from to intermediaries.

Definition noRateMessage (pair : string) : string :=
  "No exchange rate found for " +:+ pair.

(** The rate chosen by [convert].  The keys built by [pairKey] hold a
    slash, so the test against ["timestamp"] never fires.  The reciprocal
    of a stored rate of zero is an infinity, which ends the call as
    [NonFinite]. *)
Definition resolveRate (tbl : ExchangeRates) (fromCurrency toCurrency : string)
  : Completion Q :=
  let pair := pairKey fromCurrency toCurrency in
  let reversePair := pairKey toCurrency fromCurrency in
  match rateOf tbl pair with
  | Some r => Normal r
  | None =>
      match rateOf tbl reversePair with
      | Some r => if Qeq_bool r 0 then NonFinite else Normal (1 / r)
      | None =>
          match getIndirectRate tbl fromCurrency toCurrency with
          | None => Throw (Error (noRateMessage pair))
          | Some indirectRate =>
              if Qeq_bool indirectRate 0    (* [!indirectRate] *)
              then Throw (Error (noRateMessage pair))
              else Normal indirectRate
          end
      end
  end.

Definition convert (tbl : ExchangeRates) (amount : Q)
           (fromCurrency toCurrency : string) : Completion Q :=
  if bool_decide (fromCurrency = toCurrency)
  then Normal (truncateToPrecision amount)
  else
    rate ← resolveRate tbl fromCurrency toCurrency;
    Normal (truncateToPrecision (amount * rate)).

(** The table the constructor installs. *)
Definition initialRates (now : Z) : ExchangeRates :=
  mkExchangeRates
    (list_to_map [ ("USD/EUR", 92 # 100); ("USD/GBP", 79 # 100);
                   ("USD/PKR", 2785 # 10); ("EUR/GBP", 86 # 100);
                   ("EUR/PKR", 3027 # 10); ("GBP/PKR", 3512 # 10) ]%string)
    now.

(** ** getRate *)

Definition rateNotFoundMessage (pair : string) : string :=
  "Rate not found for " +:+ pair.

Definition getRate (tbl : ExchangeRates) (fromCurrency toCurrency : string)
  : Completion Q :=
  let pair := pairKey fromCurrency toCurrency in
  let reversePair := pairKey toCurrency fromCurrency in
  match rateOf tbl pair with
  | Some r => Normal r
  | None =>
      match rateOf tbl reversePair with
      | Some r => if Qeq_bool r 0 then NonFinite else Normal (1 / r)
      | None => Throw (Error (rateNotFoundMessage pair))
      end
  end.

(** ** updateRates

    [Math.random] is called once for every stored pair; [random pair] is
    the value it returns for [pair], and [now] the new timestamp. *)
Definition updateRates (random : string → Q) (now : Z) (volatility : Q)
           (tbl : ExchangeRates) : ExchangeRates :=
  mkExchangeRates
    (map_imap (λ pair currentRate,
                 let shock := (random pair - (1 # 2)) * volatility in
                 Some (toFixed precision (currentRate * (1 + shock))))
              (rates tbl))
    now.

End CurrencyEngine.

(* ===================================================================== *)
(** * modules/assets.ts                                                    *)
(* ===================================================================== *)

Module AssetEngine.

Import CurrencyEngine.
Local Open Scope Q_scope.

Definition liquidationPenalty (c : LiquidityClass) : Q :=
  match c with
  | liquid => 0
  | yield => 2 # 100
  | volatile => 5 # 100
  | illiquid => 1 # 10
  end.

(** ** The seeded generator *)

Record Generator : Type := mkGenerator { m_w : Z; m_z : Z }.

Definition mask : Z := 4294967295.

(** [a & b], [a >> k], [a << k] on the 32-bit integers of their operands. *)
Definition bitand (a b : Z) : Z := Z.land (ToInt32 a) (ToInt32 b).
Definition sar (a k : Z) : Z := Z.shiftr (ToInt32 a) k.
Definition shl (a k : Z) : Z := ToInt32 (Z.shiftl (ToInt32 a) k).

Definition seededRNG (seed : Z) : Generator := mkGenerator seed 987654321.

(** One call of the closure: the value returned and the captured
    variables after the call. *)
Definition draw (g : Generator) : Q * Generator :=
  let z := bitand (36969 * bitand (m_z g) 65535 + sar (m_z g) 16) mask in
  let w := bitand (18000 * bitand (m_w g) 65535 + sar (m_w g) 16) mask in
  let result := ToUint32 (shl z 16 + bitand w 65535) # 4294967296 in
  (result, mkGenerator w z).

(** ** revalueAssets *)

Definition shockOf (asset : Asset) (r : Q) : Q :=
  r * volatility asset * 2 - volatility asset.

Definition revalueOne (asset : Asset) (r : Q) : Asset :=
  let shock := shockOf asset r in
  let newAmount := Math_max 0 (amount asset * (1 + shock)) in
  with_amount asset (toFixed 6 newAmount).

(** [assets.map(...)]: the callback runs on the elements in array order
    and each run calls the closure once. *)
Fixpoint revalueFrom (g : Generator) (assets : list Asset) : list Asset :=
  match assets with
  | [] => []
  | asset :: rest =>
      let '(r, g') := draw g in
      revalueOne asset r :: revalueFrom g' rest
  end.

Definition revalueAssets (assets : list Asset) (seed : Z) : list Asset :=
  revalueFrom (seededRNG seed) assets.

(** ** isAssetLocked and getLiquidFunds *)

(** [currentDate < asset.lockedUntil]: two dates compare by their times;
    a date against a string compares against NaN, which is false. *)
Definition isAssetLocked (asset : Asset) (currentDate : Z) : bool :=
  match lockedUntil asset with
  | None => false
  | Some (DateObject t) => bool_decide (currentDate < t)%Z
  | Some (DateString _) => false
  end.

Definition isLiquidUnlocked (a : Asset) : bool :=
  bool_decide (liquidityClass a = liquid) && negb (bool_decide (is_Some (lockedUntil a))).

Fixpoint sumConverted (tbl : ExchangeRates) (baseCurrency : string)
         (total : Q) (l : list Asset) : Completion Q :=
  match l with
  | [] => Normal total
  | asset :: rest =>
      converted ← convert tbl (amount asset) (currency asset) baseCurrency;
      sumConverted tbl baseCurrency (total + converted) rest
  end.

Definition getLiquidFunds (tbl : ExchangeRates) (assets : list Asset)
           (baseCurrency : string) : Completion Q :=
  sumConverted tbl baseCurrency 0 (filter (λ a, isLiquidUnlocked a = true) assets).

(** ** liquidateForDeficit

    Asset objects live in a store and arrays hold their addresses, so
    that a write through one array is seen through every other array
    that holds the same object. *)

Abbreviation loc := nat (only parsing).
Abbreviation Store := (list Asset) (only parsing).

Definition deref (h : Store) (arr : list loc) : list Asset :=
  omap (λ l, h !! l) arr.

(** One asset after [JSON.parse(JSON.stringify(asset))]: a date has become
    its string and an absent field stays absent. *)
Definition jsonClone (a : Asset) : Asset :=
  mkAsset (id a) (name a) (amount a) (currency a) (volatility a)
          (liquidityClass a)
          (match lockedUntil a with
           | Some (DateObject t) | Some (DateString t) => Some (DateString t)
           | None => None
           end)
          (baseValue a).

Definition liquidityOrder : list LiquidityClass :=
  [liquid; yield; volatile; illiquid].

(** The inner loop, [for (const asset of classAssets)].  The addresses of
    [classAssets] come out of a filter on stored objects; the case of an
    address that holds nothing is there for totality only. *)
Fixpoint sellClass (tbl : ExchangeRates) (liquidityClass : LiquidityClass)
         (classAssets : list loc) (remainingDeficit : Q) (h : Store)
  : Completion Q * Store :=
  match classAssets with
  | [] => (Normal remainingDeficit, h)
  | l :: rest =>
      if Qle_bool remainingDeficit 0 then (Normal remainingDeficit, h)
      else
        match h !! l with
        | None => sellClass tbl liquidityClass rest remainingDeficit h
        | Some asset =>
            let sellAmount := Math_min (amount asset) remainingDeficit in
            let penalty := liquidationPenalty liquidityClass in
            match convert tbl sellAmount (currency asset) "USD" with
            | Normal proceedsBeforePenalty =>
                let proceeds := proceedsBeforePenalty * (1 - penalty) in
                sellClass tbl liquidityClass rest (remainingDeficit - proceeds)
                          (<[l := with_amount asset (amount asset - sellAmount)]> h)
            | Throw e => (Throw e, h)
            | NonFinite => (NonFinite, h)
            end
        end
  end.

Definition hasClass (h : Store) (c : LiquidityClass) (l : loc) : Prop :=
  Types.liquidityClass <$> h !! l = Some c.

#[global] Instance hasClass_dec h c l : Decision (hasClass h c l).
Proof. unfold hasClass. apply _. Defined.

(** The outer loop, [for (const liquidityClass of liquidityOrder)]; the
    filter reads the store as the loop finds it. *)
Fixpoint sellInOrder (tbl : ExchangeRates) (order : list LiquidityClass)
         (updatedAssets : list loc) (remainingDeficit : Q) (h : Store)
  : Completion Q * Store :=
  match order with
  | [] => (Normal remainingDeficit, h)
  | liquidityClass :: rest =>
      if Qle_bool remainingDeficit 0 then (Normal remainingDeficit, h)
      else
        let classAssets := filter (hasClass h liquidityClass) updatedAssets in
        match sellClass tbl liquidityClass classAssets remainingDeficit h with
        | (Normal remainingDeficit', h') =>
            sellInOrder tbl rest updatedAssets remainingDeficit' h'
        | stopped => stopped
        end
  end.

(** The object returned: [liquidatedAssets] is the array of copies, whose
    objects are allocated after those of the store of the caller. *)
Record Liquidation : Type := mkLiquidation {
  remainingDeficit : Q;
  liquidatedAssets : list loc
}.

Definition liquidateForDeficit (tbl : ExchangeRates) (assets : list loc)
           (deficitAmount : Q) (h : Store) : Completion Liquidation * Store :=
  let copies := jsonClone <$> deref h assets in
  let updatedAssets := seq (length h) (length copies) in
  match sellInOrder tbl liquidityOrder updatedAssets deficitAmount (h ++ copies) with
  | (Normal remaining, h') =>
      (Normal (mkLiquidation (Math_max 0 remaining) updatedAssets), h')
  | (Throw e, h') => (Throw e, h')
  | (NonFinite, h') => (NonFinite, h')
  end.

(** ** calculateNAV and getLiquidityRatio *)

Definition calculateNAV (tbl : ExchangeRates) (assets : list Asset)
           (baseCurrency : string) : Completion Q :=
  sumConverted tbl baseCurrency 0 assets.

Definition getLiquidityRatio (tbl : ExchangeRates) (state : WalletState)
  : Completion Q :=
  totalAssets ← calculateNAV tbl (Types.assets state) "USD";
  liquidFunds ← getLiquidFunds tbl (Types.assets state) "USD";
  let totalWealth := balance state + totalAssets in
  if Qeq_bool totalWealth 0 then Normal 0
  else Normal (Math_min (liquidFunds / totalWealth) 1).

(** ** applyYield *)

Definition yieldOne (asset : Asset) (r : Q) : Asset :=
  let yieldRate := (2 # 100) + r * (3 # 100) in
  let dailyYield := amount asset * (yieldRate / 365) in
  with_amount asset (toFixed 6 (amount asset + dailyYield)).

(** The callback calls the closure for an asset of class [yield] only; any
    other asset is returned as it is. *)
Fixpoint applyYieldFrom (g : Generator) (assets : list Asset) : list Asset :=
  match assets with
  | [] => []
  | asset :: rest =>
      if bool_decide (liquidityClass asset = yield)
      then let '(r, g') := draw g in yieldOne asset r :: applyYieldFrom g' rest
      else asset :: applyYieldFrom g rest
  end.

Definition applyYield (assets : list Asset) (seed : Z) : list Asset :=
  applyYieldFrom (seededRNG seed) assets.

End AssetEngine.

(* ===================================================================== *)
(** * Arrays of numbers                                                    *)
(* ===================================================================== *)

Module Arrays.

Local Open Scope Q_scope.

Definition Qltb (a b : Q) : bool := negb (Qle_bool b a).

(** [arr[i]] for an integer index: [undefined] outside the array. *)
Definition at_index {A} (arr : list A) (i : Z) : option A :=
  if (i <? 0)%Z then None else arr !! Z.to_nat i.

(** [[...arr].sort((a, b) => a - b)]: the stable ascending sort. *)
Fixpoint insert (x : Q) (l : list Q) : list Q :=
  match l with
  | [] => [x]
  | y :: t => if Qle_bool x y then x :: y :: t else y :: insert x t
  end.

Definition sort (l : list Q) : list Q := foldr insert [] l.

(** [arr.reduce((a, b) => a + b, 0)] *)
Definition sum (l : list Q) : Q := foldl Qplus 0 l.

(** [arr.slice(0, end)]: a negative [end] counts from the end of the
    array. *)
Definition slice0 {A} (arr : list A) (end_ : Z) : list A :=
  let len := Z.of_nat (length arr) in
  let final := if (end_ <? 0)%Z then Z.max (len + end_) 0 else Z.min end_ len in
  take (Z.to_nat final) arr.

Definition lengthQ {A} (arr : list A) : Q := inject_Z (Z.of_nat (length arr)).

End Arrays.

(* ===================================================================== *)
(** * risk.ts                                                              *)
(* ===================================================================== *)

Module RiskEngine.

Import Arrays.
Local Open Scope Q_scope.

Abbreviation Trajectory := (list WalletState) (only parsing).
Abbreviation Ensemble := (list (list WalletState)) (only parsing).

Record RiskMetrics : Type := mkRiskMetrics {
  collapseProbability : Number;
  collapseTimings : list Z;
  averageCollapsDay : Z;
  recoveryRate : Q;
  maxDrawdown : Q
}.

(** ** calculateCollapseProbability *)

(** The variables the inner callback writes: the three locals of the
    outer callback and the shared [collapseTimings]. *)
Record Scan : Type := mkScan {
  hasCollapsed : bool;
  collapsedDay : Z;
  recoveredAfter : bool;
  timings : list Z
}.

Definition scanDay (s : Scan) (state : WalletState) (dayIndex : Z) : Scan :=
  let s1 :=
    if Qltb (balance state) 0 && negb (hasCollapsed s)
    then mkScan true dayIndex (recoveredAfter s) (timings s ++ [dayIndex])
    else s in
  if hasCollapsed s1 && (-1 <? collapsedDay s1)%Z && Qltb 0 (balance state)
  then mkScan (hasCollapsed s1) (collapsedDay s1) true (timings s1)
  else s1.

Fixpoint scanFrom (dayIndex : Z) (trajectory : Trajectory) (s : Scan) : Scan :=
  match trajectory with
  | [] => s
  | state :: rest => scanFrom (dayIndex + 1) rest (scanDay s state dayIndex)
  end.

(** The outer callback on one trajectory: [collapseTimings] and
    [recoveredCount] before, and after. *)
Definition scanTrajectory (acc : list Z * Z) (trajectory : Trajectory) : list Z * Z :=
  let s := scanFrom 0 trajectory (mkScan false (-1) false (fst acc)) in
  (timings s, if recoveredAfter s then (snd acc + 1)%Z else snd acc).

(** ** calculateMaxDrawdown *)

Record Extremes : Type := mkExtremes { peak : Q; trough : Q; worstDrawdown : Q }.

Definition drawdownDay (e : Extremes) (state : WalletState) : Extremes :=
  let peak' := if Qltb (peak e) (balance state) then balance state else peak e in
  let trough' := if Qltb (balance state) (trough e) then balance state else trough e in
  let drawdown := if Qltb 0 peak' then (peak' - trough') / peak' else 0 in
  mkExtremes peak' trough'
             (if Qltb (worstDrawdown e) drawdown then drawdown else worstDrawdown e).

Definition drawdownTrajectory (worst : Q) (trajectory : Trajectory) : Completion Q :=
  first ← field "balance" balance (head trajectory);
  Normal (worstDrawdown (foldl drawdownDay (mkExtremes first first worst) trajectory)).

Fixpoint drawdownAll (worst : Q) (trajectories : Ensemble) : Completion Q :=
  match trajectories with
  | [] => Normal worst
  | trajectory :: rest =>
      worst' ← drawdownTrajectory worst trajectory;
      drawdownAll worst' rest
  end.

Definition calculateMaxDrawdown (trajectories : Ensemble) : Completion Q :=
  worst ← drawdownAll 0 trajectories;
  Normal (toFixed 2 (worst * 100)).

Definition calculateCollapseProbability (trajectories : Ensemble)
  : Completion RiskMetrics :=
  let '(collapseTimings, recoveredCount) := foldl scanTrajectory ([], 0%Z) trajectories in
  let collapseProbability := div (lengthQ collapseTimings) (lengthQ trajectories) in
  let averageCollapsDay :=
    if (0 <? Z.of_nat (length collapseTimings))%Z
    then inject_Z (foldl Z.add 0%Z collapseTimings) / lengthQ collapseTimings
    else -1 in
  let recoveryRate :=
    if (0 <? Z.of_nat (length collapseTimings))%Z
    then inject_Z recoveredCount / lengthQ collapseTimings
    else 1 in
  drawdown ← calculateMaxDrawdown trajectories;
  Normal (mkRiskMetrics
            (NtoFixed 4 collapseProbability)
            collapseTimings
            (if Qltb 0 averageCollapsDay then Math_round averageCollapsDay else 0%Z)
            (toFixed 4 recoveryRate)
            drawdown).

(** ** calculateVaR and calculateCVaR *)

(** [trajectories.map((t) => t[t.length - 1].balance)] *)
Definition finalBalancesOf (trajectories : Ensemble) : Completion (list Q) :=
  mapM (λ t : Trajectory, field "balance" balance (last t)) trajectories.

(** The result is the array element at the index, [None] standing for
    [undefined]. *)
Definition calculateVaR (trajectories : Ensemble) (percentile : Q)
  : Completion (option Q) :=
  finalBalances ← finalBalancesOf trajectories;
  let sorted := sort finalBalances in
  let index := Qfloor (lengthQ sorted * percentile) in
  Normal (at_index sorted (Z.max 0 index)).

Definition calculateCVaR (trajectories : Ensemble) (percentile : Q)
  : Completion Number :=
  finalBalances ← finalBalancesOf trajectories;
  let sorted := sort finalBalances in
  let cutoffIndex := Qfloor (lengthQ sorted * percentile) in
  let worstValues := slice0 sorted (cutoffIndex + 1) in
  Normal (div (sum worstValues) (lengthQ worstValues)).

(** ** getRiskLevel *)

Inductive RiskLevel : Type := low | moderate | high | critical.

(** Every comparison with NaN is false. *)
Definition Nltb (x : Number) (b : Q) : bool :=
  match x with
  | Fin a => Qltb a b
  | NaN => false
  | Infinity negative => negative
  end.

Definition getRiskLevel (collapseProbability : Number) : RiskLevel :=
  if Nltb collapseProbability (1 # 10) then low
  else if Nltb collapseProbability (25 # 100) then moderate
  else if Nltb collapseProbability (5 # 10) then high
  else critical.

(** ** calculateShockClusteringDensity *)

(** [state.balance < 0 || (state.history &&
    state.history[state.history.length - 1]?.balance < 0)] *)
Definition isNegativeDay (state : WalletState) : bool :=
  Qltb (balance state) 0
  || match last (history state) with
     | Some record => Qltb (dr_balance record) 0
     | None => false
     end.

Definition calculateShockClusteringDensity (trajectory : Trajectory) : Number :=
  let negativeDays := filter (λ state, isNegativeDay state = true) trajectory in
  NtoFixed 4 (div (lengthQ negativeDays) (lengthQ trajectory)).

(** ** calculateRecoverySlope *)

(** The callback of the scan on one day: [collapseDay] and [recoveryDay]
    before, and after. *)
Definition slopeDay (acc : Z * Z) (state : WalletState) (day : Z) : Z * Z :=
  let collapseDay :=
    if (fst acc =? -1)%Z && Qltb (balance state) 0 then day else fst acc in
  let recoveryDay :=
    if (-1 <? collapseDay)%Z && (snd acc =? -1)%Z && Qle_bool 0 (balance state)
    then day else snd acc in
  (collapseDay, recoveryDay).

Fixpoint slopeFrom (day : Z) (trajectory : Trajectory) (acc : Z * Z) : Z * Z :=
  match trajectory with
  | [] => acc
  | state :: rest => slopeFrom (day + 1) rest (slopeDay acc state day)
  end.

Definition calculateRecoverySlope (trajectory : Trajectory) : Z :=
  let '(collapseDay, recoveryDay) := slopeFrom 0 trajectory (-1, -1)%Z in
  if (collapseDay =? -1)%Z || (recoveryDay =? -1)%Z then (-1)%Z
  else (recoveryDay - collapseDay)%Z.

Definition calculateAverageRecoverySlope (trajectories : Ensemble) : Z :=
  let slopes := filter (λ s, 0 < s)%Z (calculateRecoverySlope <$> trajectories) in
  if (Z.of_nat (length slopes) =? 0)%Z then 0%Z
  else Math_round (inject_Z (foldl Z.add 0%Z slopes) / lengthQ slopes).

End RiskEngine.

(* ===================================================================== *)
(** * stats.ts                                                             *)
(* ===================================================================== *)

Module StatsEngine.

Import Arrays RiskEngine.
Local Open Scope Q_scope.

Record BalanceStats : Type := mkBalanceStats {
  mean : Number;
  median : Q;
  percentile5 : Q;
  percentile95 : Q;
  min : Q;
  max : Q;
  stdDev : Number
}.

Record Distribution : Type := mkDistribution {
  excellent : Number;
  good : Number;
  fair : Number;
  poor : Number;
  bad : Number
}.

Record CreditStats : Type := mkCreditStats {
  cs_mean : Number;
  evolution : list Q;
  finalDistribution : Distribution
}.

Record AssetStats : Type := mkAssetStats {
  nav : Number;
  averageNAV : Number;
  liquidityRatio : Number
}.

Section Engine.

(** [Math.sqrt] on a finite non-negative number, and the vibe engine of
    [vibe.ts], whose pet message is drawn with [Math.random]. *)
Variable Math_sqrt : Q → Q.
Variable VibeState : Type.
Variable calculateAverageVibe : Ensemble → Completion VibeState.

Record StatisticsOutput : Type := mkStatisticsOutput {
  finalBalance : BalanceStats;
  so_creditScore : CreditStats;
  so_assets : AssetStats;
  risk : RiskMetrics;
  vibe : VibeState
}.

Definition Nsqrt (x : Number) : Number :=
  match x with
  | Fin a => if Qltb a 0 then NaN else Fin (Math_sqrt a)
  | NaN => NaN
  | Infinity true => NaN
  | Infinity false => Infinity false
  end.

(** [x.toFixed(2)] on an array element, which is [undefined] when the
    index is outside the array. *)
Definition elementToFixed (digits : nat) (x : option Q) : Completion Q :=
  field "toFixed" (toFixed digits) x.

Definition calculateBalanceStats (balances : list Q) : Completion BalanceStats :=
  let sorted := sort balances in
  let mean := div (sum balances) (lengthQ balances) in
  let median := at_index sorted (Z.of_nat (length sorted) / 2)%Z in
  let percentile5 := at_index sorted (Qfloor (lengthQ sorted * (5 # 100))) in
  let percentile95 := at_index sorted (Qfloor (lengthQ sorted * (95 # 100))) in
  let min := at_index sorted 0 in
  let max := at_index sorted (Z.of_nat (length sorted) - 1)%Z in
  let variance :=
    Ndiv (foldl (λ acc b, Nadd acc (let d := Nsub (Fin b) mean in Nmul d d))
                (Fin 0) balances)
         (lengthQ balances) in
  let stdDev := Nsqrt variance in
  median' ← elementToFixed 2 median;
  percentile5' ← elementToFixed 2 percentile5;
  percentile95' ← elementToFixed 2 percentile95;
  min' ← elementToFixed 2 min;
  max' ← elementToFixed 2 max;
  Normal (mkBalanceStats (NtoFixed 2 mean) median' percentile5' percentile95'
                         min' max' (NtoFixed 2 stdDev)).

Definition countIf (p : Q → bool) (l : list Q) : Q :=
  lengthQ (filter (λ x, p x = true) l).

Definition calculateCreditStats (trajectories : Ensemble)
           (finalCreditScores : list Q) : CreditStats :=
  let mean := div (sum finalCreditScores) (lengthQ finalCreditScores) in
  let ge (bound score : Q) := Qle_bool bound score in
  let excellent := countIf (ge 750) finalCreditScores in
  let good := countIf (λ s, negb (ge 750 s) && ge 670 s) finalCreditScores in
  let fair := countIf (λ s, negb (ge 670 s) && ge 580 s) finalCreditScores in
  let poor := countIf (λ s, negb (ge 580 s) && ge 450 s) finalCreditScores in
  let bad := countIf (λ s, negb (ge 450 s)) finalCreditScores in
  let total := lengthQ finalCreditScores in
  let percent (count : Q) := NtoFixed 2 (Nmul (div count total) (Fin 100)) in
  let evolution :=
    match trajectories with
    | first :: _ => creditScore <$> first
    | [] => []
    end in
  mkCreditStats (NtoFixed 2 mean) evolution
                (mkDistribution (percent excellent) (percent good) (percent fair)
                                (percent poor) (percent bad)).

(** The callback of [calculateAssetStats] on one trajectory: the two
    running totals before, and after. *)
Definition assetTotals (acc : Q * Q) (trajectory : Trajectory) : Completion (Q * Q) :=
  finalAssets ← field "assets" assets (last trajectory);
  let nav := sum (amount <$> finalAssets) in
  let liquidAssets :=
    sum (amount <$> filter (λ a, liquidityClass a = liquid) finalAssets) in
  let ratio := if Qltb 0 nav then liquidAssets / nav else 0 in
  Normal (fst acc + nav, snd acc + ratio).

Fixpoint assetTotalsAll (acc : Q * Q) (trajectories : Ensemble) : Completion (Q * Q) :=
  match trajectories with
  | [] => Normal acc
  | trajectory :: rest =>
      acc' ← assetTotals acc trajectory;
      assetTotalsAll acc' rest
  end.

Definition calculateAssetStats (trajectories : Ensemble) : Completion AssetStats :=
  totals ← assetTotalsAll (0, 0) trajectories;
  let averageNAV := div (fst totals) (lengthQ trajectories) in
  let averageLiquidityRatio := div (snd totals) (lengthQ trajectories) in
  Normal (mkAssetStats (NtoFixed 2 averageNAV) (NtoFixed 2 averageNAV)
                       (NtoFixed 4 (Nmin averageLiquidityRatio 1))).

Definition generateStatistics (trajectories : Ensemble)
  : Completion StatisticsOutput :=
  finalBalances ← finalBalancesOf trajectories;
  finalCreditScores ←
    mapM (λ t : Trajectory, field "creditScore" creditScore (last t)) trajectories;
  balanceStats ← calculateBalanceStats finalBalances;
  let creditStats := calculateCreditStats trajectories finalCreditScores in
  assetStats ← calculateAssetStats trajectories;
  riskMetrics ← calculateCollapseProbability trajectories;
  vibeState ← calculateAverageVibe trajectories;
  Normal (mkStatisticsOutput balanceStats creditStats assetStats riskMetrics vibeState).

End Engine.

(** ** calculateRSI *)

(** The inner loop: the first day from [j] on whose balance is not
    negative. *)
Fixpoint firstRecovery (j : Z) (days : list WalletState) : option Z :=
  match days with
  | [] => None
  | state :: rest =>
      if Qle_bool 0 (balance state) then Some j else firstRecovery (j + 1) rest
  end.

(** The outer loop at day [i], with [prev] the balance of day [i - 1] and
    [days] the trajectory from day [i] on. *)
Fixpoint rsiFrom (i : Z) (prev : Q) (days : list WalletState)
         (recoveries : list Z) : list Z :=
  match days with
  | [] => recoveries
  | state :: rest =>
      let curr := balance state in
      let recoveries' :=
        if Qle_bool 0 prev && Qltb curr 0
        then match firstRecovery (i + 1) rest with
             | Some j => recoveries ++ [(j - i)%Z]
             | None => recoveries
             end
        else recoveries in
      rsiFrom (i + 1) curr rest recoveries'
  end.

Definition calculateRSI (trajectory : Trajectory) : Q :=
  let recoveries :=
    match trajectory with
    | [] => []
    | first :: rest => rsiFrom 1 (balance first) rest []
    end in
  if (Z.of_nat (length recoveries) =? 0)%Z then 100
  else
    let avgRecoveryTime := inject_Z (foldl Z.add 0%Z recoveries) / lengthQ recoveries in
    let recoveryQuality := 100 - Math_min (avgRecoveryTime / 50) 100 in
    toFixed 2 recoveryQuality.

(** ** getRiskLevel and getCreditTier *)

Definition getRiskLevel (prob : Number) : RiskLevel :=
  if Nltb prob (1 # 10) then low
  else if Nltb prob (25 # 100) then moderate
  else if Nltb prob (5 # 10) then high
  else critical.

Inductive CreditTier : Type :=
  tierExcellent | tierGood | tierFair | tierPoor | tierBad.

#[global] Instance CreditTier_eq_dec : EqDecision CreditTier.
Proof. solve_decision. Defined.

Definition getCreditTier (score : Q) : CreditTier :=
  if Qle_bool 750 score then tierExcellent
  else if Qle_bool 670 score then tierGood
  else if Qle_bool 580 score then tierFair
  else if Qle_bool 450 score then tierPoor
  else tierBad.

End StatsEngine.

(* ===================================================================== *)
(** * credit.ts                                                            *)
(* ===================================================================== *)

Module CreditEngine.

Import Arrays.
Local Open Scope Q_scope.

Definition minScore : Q := 300.
Definition maxScore : Q := 850.
Definition baseScore : Q := 650.

Definition calculateTotalDebt (liabilities : list Liability) : Q :=
  foldl (λ sum liability, sum + principalBalance liability) 0 liabilities.

Definition calculateDebtRatio (totalDebt monthlyIncome : Q) : Q :=
  if Qeq_bool monthlyIncome 0 then 1
  else Math_min (totalDebt / (monthlyIncome * 12)) 1.

Definition updateCreditScore (state : WalletState) (monthlyIncome : Q) : Z :=
  let totalDebt := calculateTotalDebt (liabilities state) in
  let debtRatio := calculateDebtRatio totalDebt monthlyIncome in
  let punctualityBonus :=
    if Qltb 0 (balance state) then balance state / 10000 * 50 else - (100) in
  let debtPenalty := debtRatio * 300 in
  let balanceBonus := Math_min (balance state / 5000) 100 in
  let newScore := baseScore + punctualityBonus - debtPenalty + balanceBonus in
  let newScore := Math_max minScore (Math_min newScore maxScore) in
  Math_round newScore.

Definition with_principal (liability : Liability) (v : Q) : Liability :=
  mkLiability (l_id liability) (l_type liability) v (interestRate liability)
              (l_currency liability) (minimumPayment liability) (createdAt liability).

Definition accrueOne (liability : Liability) : Liability :=
  let dailyRate := interestRate liability / 365 in
  let interestAmount := principalBalance liability * dailyRate in
  with_principal liability (toFixed 2 (principalBalance liability + interestAmount)).

Definition accrueInterest (liabilities : list Liability) : list Liability :=
  accrueOne <$> liabilities.





Definition isInDefault (state : WalletState) : bool := Qltb (balance state) 0.

Definition getCreditTier (score : Q) : StatsEngine.CreditTier :=
  if Qle_bool 750 score then StatsEngine.tierExcellent
  else if Qle_bool 670 score then StatsEngine.tierGood
  else if Qle_bool 580 score then StatsEngine.tierFair
  else if Qle_bool 450 score then StatsEngine.tierPoor
  else StatsEngine.tierBad.

End CreditEngine.

(* ===================================================================== *)
(** * modules/tax.ts                                                       *)
(* ===================================================================== *)

Module TaxEngine.

Import CurrencyEngine Arrays.
Local Open Scope Q_scope.

Definition capitalGainsTaxRate : Q := 15 # 100.
Definition longTermGainRate : Q := 15 # 100.
Definition shortTermGainRate : Q := 35 # 100.

Definition calculateIncomeTax (income : Q) : Q :=
  let tax :=
    if Qltb 10000 income
    then 0 + (income - 10000) * (24 # 100) + 10000 * (12 # 100)
    else if Qltb 5000 income
         then 0 + (income - 5000) * (12 # 100)
         else 0 + income * (1 # 10) in
  toFixed 2 tax.

(** [asset.baseValue || asset.amount]: a base value that is absent or zero
    gives way to the amount. *)
Definition costBasis (asset : Asset) : Q :=
  match baseValue asset with
  | Some v => if Qeq_bool v 0 then amount asset else v
  | None => amount asset
  end.

Definition calculateRealizedGainsTax (asset : Asset) (salePrice : Q)
           (daysPossessed : Q) : Q :=
  let gain := salePrice - costBasis asset in
  if Qle_bool gain 0 then 0
  else
    let isLongTerm := Qle_bool 365 daysPossessed in
    let taxRate := if isLongTerm then longTermGainRate else shortTermGainRate in
    toFixed 2 (gain * taxRate).

Definition applyTax (balance taxAmount : Q) : Q := toFixed 2 (balance - taxAmount).

Definition calculateTaxOnMultiCurrencyGain (tbl : ExchangeRates) (gainAmount : Q)
           (gainCurrency baseCurrency : string) : Completion Q :=
  gainInBase ← convert tbl gainAmount gainCurrency baseCurrency;
  Normal (capitalGainsTaxRate * gainInBase).

Definition estimateAnnualTax (monthlyIncome expectedCapitalGains : Q) : Q :=
  let incomeTax := calculateIncomeTax (monthlyIncome * 12) in
  let gainsTax := expectedCapitalGains * capitalGainsTaxRate in
  toFixed 2 (incomeTax + gainsTax).

End TaxEngine.

(* ===================================================================== *)
(** * The specification's own wording                                      *)
(* ===================================================================== *)

Module Spec.

Import CurrencyEngine AssetEngine Arrays RiskEngine.
Local Open Scope Q_scope.

(** Truncation to six decimal places: the digits after the sixth are
    dropped. *)
Definition truncate6 (x : Q) : Q :=
  inject_Z (Z.quot (Qnum (x * 1000000)) (Zpos (Qden (x * 1000000)))) / 1000000.

(** Every stored rate is positive (section 3 of the specification). *)
Definition positive_rates (tbl : ExchangeRates) : Prop :=
  ∀ pair r, rates tbl !! pair = Some r → 0 < r.

(** A one-hop path from [from] to [to] through [X]: both forward pairs
    are stored and [X] is neither end. *)
Definition one_hop (tbl : ExchangeRates) (from to X : string) : Prop :=
  X ≠ from ∧ X ≠ to ∧
  is_Some (rates tbl !! pairKey from X) ∧ is_Some (rates tbl !! pairKey X to).

(** The table of the conversion scenario. *)
Definition scenarioRates : ExchangeRates :=
  mkExchangeRates
    (list_to_map [ ("USD/EUR", 92 # 100); ("EUR/PKR", 3027 # 10) ]%string) 0.

(** The first [n] values of a generator. *)
Fixpoint draws (g : Generator) (n : nat) : list Q :=
  match n with
  | O => []
  | S n' => let '(r, g') := draw g in r :: draws g' n'
  end.

(** The penalty table, in percent. *)
Definition penaltyPercent (c : LiquidityClass) : Z :=
  match c with
  | liquid => 0
  | yield => 2
  | volatile => 5
  | illiquid => 10
  end.

(** The positions of an asset list in selling order: class by class in
    the order liquid, yield, volatile, illiquid, and in array order
    within a class. *)
Definition positionsOf (c : LiquidityClass) (l : list Asset) : list nat :=
  filter (λ i, liquidityClass <$> l !! i = Some c) (seq 0 (length l)).

Definition sellingOrder (l : list Asset) : list nat :=
  positionsOf liquid l ++ positionsOf yield l ++
  positionsOf volatile l ++ positionsOf illiquid l.

(** One sale: up to [min(amount, remaining)] units are sold, the proceeds
    are converted to the base currency and reduced by the penalty of the
    asset's own class. *)
Definition sale (tbl : ExchangeRates) (remaining : Q) (a : Asset)
  : Completion (Q * Asset) :=
  let units := Math_min (amount a) remaining in
  base ← convert tbl units (currency a) "USD";
  Normal (remaining - base * (1 - liquidationPenalty (liquidityClass a)),
          with_amount a (amount a - units)).

(** The waterfall: the positions are visited in the given order and the
    visit stops as soon as the remaining deficit is not positive. *)
Fixpoint waterfall (tbl : ExchangeRates) (order : list nat) (remaining : Q)
         (l : list Asset) : Completion Q * list Asset :=
  match order with
  | [] => (Normal remaining, l)
  | i :: rest =>
      if Qle_bool remaining 0 then (Normal remaining, l)
      else
        match l !! i with
        | None => waterfall tbl rest remaining l
        | Some a =>
            match sale tbl remaining a with
            | Normal (remaining', a') =>
                waterfall tbl rest remaining' (<[i := a']> l)
            | Throw e => (Throw e, l)
            | NonFinite => (NonFinite, l)
            end
        end
  end.

(** The outcome of a liquidation in terms of the waterfall over the
    copied assets, which are stored after the objects of [h]. *)
Definition liquidationBy (tbl : ExchangeRates) (copies : list Asset)
           (deficit : Q) (h : Store) : Completion Liquidation * Store :=
  match waterfall tbl (sellingOrder copies) deficit copies with
  | (Normal remaining, sold) =>
      (Normal (mkLiquidation (Math_max 0 remaining)
                             (seq (length h) (length copies))), h ++ sold)
  | (Throw e, sold) => (Throw e, h ++ sold)
  | (NonFinite, sold) => (NonFinite, h ++ sold)
  end.

(** The assets of the liquidation scenario: 400 USD liquid and 1000 USD
    volatile. *)
Definition scenarioCash : Asset :=
  mkAsset "cash" "Checking account" 400 "USD" 0 liquid None None.
Definition scenarioStock : Asset :=
  mkAsset "stock" "Index fund" 1000 "USD" (2 # 100) volatile None None.
Definition scenarioAssets : list Asset := [scenarioCash; scenarioStock].

(** A liquid asset locked until a date after [lockTestNow]. *)
Definition lockTestNow : Z := 1700000000000.
Definition lockedAsset : Asset :=
  mkAsset "cd" "Term deposit" 100 "USD" 0 liquid
          (Some (DateObject 2000000000000)) None.

(** A liquid asset held in GBP, worth more than one USD a unit. *)
Definition sterlingAsset : Asset :=
  mkAsset "gbp" "Sterling account" 1000 "GBP" 0 liquid None None.

(** A day with the given balance, and an ensemble of two runs whose
    final balances are 20 and 10. *)
Definition dayWith (b : Q) : WalletState :=
  mkWalletState 0 b [] [] 700 0 [].
Definition twoRuns : list (list WalletState) :=
  [ [dayWith 20]; [dayWith 5; dayWith 10] ].

(** Ascending order. *)
Definition ascending (l : list Q) : Prop :=
  ∀ i j x y, (i ≤ j)%nat → l !! i = Some x → l !! j = Some y → x <= y.

(** A result of rounding [v] to the nearest multiple of [10^-6], a tie
    going away from zero. *)
Definition nearest6 (v r : Q) : Prop :=
  (∃ n : Z, r == inject_Z n / 1000000) ∧
  - (1 # 2) < (Qabs r - Qabs v) * 1000000 ∧ (Qabs r - Qabs v) * 1000000 <= 1 # 2 ∧
  0 <= r * v.

End Spec.

(* ===================================================================== *)
(** * Currency conversion                                                  *)
(* ===================================================================== *)

Section CurrencyFacts.

Import CurrencyEngine Spec.
Local Open Scope Q_scope.

Lemma pairKey_not_timestamp a b : String.eqb (pairKey a b) "timestamp" = false.
Proof.
  apply String.eqb_neq. unfold pairKey. intros H.
  do 9 (destruct a as [|? a]; simpl in H; [discriminate H | injection H as _ H]).
  destruct a; discriminate H.
Qed.

Lemma rateOf_pairKey tbl a b : rateOf tbl (pairKey a b) = rates tbl !! pairKey a b.
Proof. unfold rateOf. by rewrite pairKey_not_timestamp. Qed.

(** The search through the intermediaries finds nothing exactly when no
    intermediary of the list gives a one-hop path. *)
Lemma indirectVia_None tbl from to inters :
  indirectVia tbl from to inters = None ↔
  Forall (λ X, ¬ one_hop tbl from to X) inters.
Proof.
  induction inters as [|X rest IH]; simpl.
  - split; [constructor | done].
  - rewrite Forall_cons, <- IH. unfold one_hop.
    repeat case_bool_decide; simpl; subst;
      try (split; [intros ->; split; [intros (? & ? & _); congruence | done] | by intros [_ ?]]).
    destruct (rates tbl !! pairKey from X) as [r1|] eqn:E1;
      destruct (rates tbl !! pairKey X to) as [r2|] eqn:E2.
    + split; [done|]. intros [Hn _]. exfalso. apply Hn. eauto.
    + split; [|by intros [_ ?]].
      intros ->. split; [|done]. intros (_ & _ & _ & [? ?]); congruence.
    + split; [|by intros [_ ?]].
      intros ->. split; [|done]. intros (_ & _ & [? ?] & _); congruence.
    + split; [|by intros [_ ?]].
      intros ->. split; [|done]. intros (_ & _ & [? ?] & _); congruence.
Qed.

(** What the search returns is a product of two stored rates. *)
Lemma indirectVia_Some tbl from to inters r :
  indirectVia tbl from to inters = Some r →
  ∃ X r1 r2, X ∈ inters ∧ rates tbl !! pairKey from X = Some r1 ∧
             rates tbl !! pairKey X to = Some r2 ∧ r = r1 * r2.
Proof.
  induction inters as [|X rest IH]; simpl; [done|].
  intros H.
  assert (Hrest : indirectVia tbl from to rest = Some r →
                  ∃ X0 r1 r2, X0 ∈ X :: rest ∧ rates tbl !! pairKey from X0 = Some r1 ∧
                              rates tbl !! pairKey X0 to = Some r2 ∧ r = r1 * r2).
  { intros (X0 & r1 & r2 & ? & ? & ? & ?)%IH. exists X0, r1, r2. set_solver. }
  destruct (bool_decide (X = from) || bool_decide (X = to)); [auto|].
  destruct (rates tbl !! pairKey from X) as [r1|] eqn:E1; [|auto].
  destruct (rates tbl !! pairKey X to) as [r2|] eqn:E2; [|auto].
  exists X, r1, r2. inversion H. set_solver.
Qed.

Lemma positive_not_zero r : 0 < r → Qeq_bool r 0 = false.
Proof.
  intros Hr. destruct (Qeq_bool r 0) eqn:E; [|done].
  apply Qeq_bool_iff in E. lra.
Qed.

End CurrencyFacts.

Section CurrencyClaims.

Import CurrencyEngine Spec.
Local Open Scope Q_scope.

Lemma convert_unfold tbl amount from to :
  from ≠ to →
  convert tbl amount from to =
  match rates tbl !! pairKey from to with
  | Some r => Normal (truncateToPrecision (amount * r))
  | None =>
      match rates tbl !! pairKey to from with
      | Some r =>
          if Qeq_bool r 0 then NonFinite
          else Normal (truncateToPrecision (amount * (1 / r)))
      | None =>
          match indirectVia tbl from to intermediaries with
          | Some r =>
              if Qeq_bool r 0 then Throw (Error (noRateMessage (pairKey from to)))
              else Normal (truncateToPrecision (amount * r))
          | None => Throw (Error (noRateMessage (pairKey from to)))
          end
      end
  end.
Proof.
  intros Hne. unfold convert, resolveRate, getIndirectRate.
  rewrite bool_decide_eq_false_2 by done. rewrite !rateOf_pairKey.
  destruct (rates tbl !! pairKey from to); [done|].
  destruct (rates tbl !! pairKey to from) as [r|]; [by destruct (Qeq_bool r 0)|].
  destruct (indirectVia tbl from to intermediaries) as [r|]; [|done].
  by destruct (Qeq_bool r 0).
Qed.

(** C5.  For distinct currencies and a table of positive rates, [convert]
    throws the error naming the requested pair exactly when the table has
    no direct rate, no reverse rate and no one-hop path through USD or
    EUR; it throws nothing else; a path through USD is taken before one
    through EUR; and on the table holding only USD/EUR = 0.92 and
    EUR/PKR = 302.7, converting 100 USD to PKR gives 100 * 0.92 * 302.7
    cut to six decimals while converting PKR to GBP throws. *)
Theorem convert_rate_not_found :
  (∀ tbl amount from to,
     positive_rates tbl → from ≠ to →
     (convert tbl amount from to
        = Throw (Error ("No exchange rate found for " +:+ from +:+ "/" +:+ to))
      ↔ rates tbl !! pairKey from to = None ∧
        rates tbl !! pairKey to from = None ∧
        ¬ one_hop tbl from to "USD" ∧ ¬ one_hop tbl from to "EUR")
     ∧ (∀ e, convert tbl amount from to = Throw e →
             e = Error ("No exchange rate found for " +:+ from +:+ "/" +:+ to))
     ∧ convert tbl amount from to ≠ NonFinite
     ∧ (rates tbl !! pairKey from to = None →
        rates tbl !! pairKey to from = None →
        ∀ r1 r2,
          rates tbl !! pairKey from "USD" = Some r1 →
          rates tbl !! pairKey "USD" to = Some r2 →
          "USD"%string ≠ from → "USD"%string ≠ to →
          convert tbl amount from to = Normal (truncateToPrecision (amount * (r1 * r2))))
     ∧ (rates tbl !! pairKey from to = None →
        rates tbl !! pairKey to from = None →
        ¬ one_hop tbl from to "USD" →
        ∀ r1 r2,
          rates tbl !! pairKey from "EUR" = Some r1 →
          rates tbl !! pairKey "EUR" to = Some r2 →
          "EUR"%string ≠ from → "EUR"%string ≠ to →
          convert tbl amount from to = Normal (truncateToPrecision (amount * (r1 * r2)))))
  ∧ (∃ r, convert scenarioRates 100 "USD" "PKR" = Normal r ∧
          r == truncate6 (100 * (92 # 100) * (3027 # 10)))
  ∧ convert scenarioRates 100 "PKR" "GBP"
      = Throw (Error "No exchange rate found for PKR/GBP").
Proof.
  split; [|split; [eexists; split; [vm_compute; reflexivity | vm_compute; reflexivity]
                  | vm_compute; reflexivity]].
  intros tbl amount from to Hpos Hne.
  rewrite convert_unfold by done.
  change ("No exchange rate found for " +:+ from +:+ "/" +:+ to)
    with (noRateMessage (pairKey from to)).
  destruct (rates tbl !! pairKey from to) as [r|] eqn:Ed.
  { split; [|split; [|split; [|split]]]; try done.
    split; [done|]. by intros (? & _). }
  destruct (rates tbl !! pairKey to from) as [r|] eqn:Er.
  { rewrite (positive_not_zero r) by eauto.
    split; [|split; [|split; [|split]]]; try done.
    split; [done|]. by intros (_ & ? & _). }
  destruct (indirectVia tbl from to intermediaries) as [r|] eqn:Ei.
  - destruct (indirectVia_Some _ _ _ _ _ Ei) as (X & r1 & r2 & HX & H1 & H2 & ->).
    assert (Hr : 0 < r1 * r2).
    { apply Hpos in H1, H2. apply Qmult_lt_0_compat; done. }
    rewrite (positive_not_zero _ Hr).
    assert (Hsome : ¬ Forall (λ X, ¬ one_hop tbl from to X) intermediaries).
    { intros HF%indirectVia_None. congruence. }
    split; [|split; [|split; [|split]]]; try done.
    + split; [done|]. intros (_ & _ & Hu & He). exfalso. apply Hsome.
      repeat constructor; done.
    + intros _ _ u1 u2 Hu1 Hu2 HneF HneT.
      unfold intermediaries in Ei. simpl in Ei.
      rewrite !bool_decide_eq_false_2 in Ei by done. simpl in Ei.
      rewrite Hu1, Hu2 in Ei. congruence.
    + intros _ _ Hnu u1 u2 Hu1 Hu2 HneF HneT.
      unfold intermediaries in Ei. simpl in Ei.
      assert (HU : (if bool_decide ("USD"%string = from) || bool_decide ("USD"%string = to)
                    then @None Q
                    else match rates tbl !! pairKey from "USD", rates tbl !! pairKey "USD" to with
                         | Some a, Some b => Some (a * b)
                         | _, _ => None
                         end) = None).
      { repeat case_bool_decide; simpl; try done.
        destruct (rates tbl !! pairKey from "USD") eqn:E1; [|done].
        destruct (rates tbl !! pairKey "USD" to) eqn:E2; [|done].
        exfalso. apply Hnu. unfold one_hop. eauto. }
      revert Ei HU.
      rewrite (bool_decide_eq_false_2 ("EUR"%string = from)) by done.
      rewrite (bool_decide_eq_false_2 ("EUR"%string = to)) by done.
      simpl. rewrite Hu1, Hu2.
      destruct (bool_decide ("USD"%string = from) || bool_decide ("USD"%string = to)).
      * intros Ei _. congruence.
      * destruct (rates tbl !! pairKey from "USD"); [|intros Ei _; congruence].
        destruct (rates tbl !! pairKey "USD" to); [done|intros Ei _; congruence].
  - apply indirectVia_None in Ei as HF.
    unfold intermediaries in HF.
    apply Forall_cons in HF as [Hu HF]. apply Forall_cons in HF as [He _].
    split; [|split; [|split; [|split]]]; try done.
    + intros e He'. by inversion He'.
    + intros _ _ u1 u2 Hu1 Hu2 ? ?. exfalso. apply Hu. unfold one_hop. eauto 10.
    + intros _ _ _ u1 u2 Hu1 Hu2 ? ?. exfalso. apply He. unfold one_hop. eauto 10.
Qed.

Lemma scenarioRates_positive : positive_rates scenarioRates.
Proof.
  intros pair r. unfold scenarioRates. simpl.
  rewrite !lookup_insert_Some, lookup_empty.
  intros [[_ <-]|[_ [[_ <-]|[_ ?]]]]; done.
Qed.

Lemma convert_rate_not_found_witness :
  convert scenarioRates 5 "PKR" "GBP"
    = Throw (Error ("No exchange rate found for " +:+ "PKR" +:+ "/" +:+ "GBP"))
  ↔ rates scenarioRates !! pairKey "PKR" "GBP" = None ∧
    rates scenarioRates !! pairKey "GBP" "PKR" = None ∧
    ¬ one_hop scenarioRates "PKR" "GBP" "USD" ∧ ¬ one_hop scenarioRates "PKR" "GBP" "EUR".
Proof.
  apply (proj1 convert_rate_not_found scenarioRates 5 "PKR" "GBP"%string).
  - exact scenarioRates_positive.
  - discriminate.
Defined.

End CurrencyClaims.

Section Rounding.

Import CurrencyEngine Spec.
Local Open Scope Q_scope.

Lemma Math_max_lower a b : a <= Math_max a b.
Proof.
  unfold Math_max. destruct (Qle_bool a b) eqn:E; [by apply Qle_bool_iff | lra].
Qed.

Lemma Qle_bool_false a b : Qle_bool a b = false ↔ b < a.
Proof.
  split.
  - intros E. apply Qnot_le_lt. intros H%Qle_bool_iff. congruence.
  - intros H. destruct (Qle_bool a b) eqn:E; [|done].
    apply Qle_bool_iff in E. lra.
Qed.

(** The integer [toFixed] prints for a magnitude [a]. *)
Lemma nearest_integer_bounds (a s : Q) :
  0 <= a → 0 <= s →
  let N := inject_Z (Qfloor (a * s + (1 # 2))) in
  0 <= N ∧ N <= a * s + (1 # 2) ∧ a * s + (1 # 2) < N + 1.
Proof.
  intros Ha Hs N. subst N.
  assert (H0 : 0 <= a * s) by (by apply Qmult_le_0_compat).
  split; [|split].
  - change 0 with (inject_Z 0). rewrite <- Zle_Qle.
    change 0%Z with (Qfloor 0). apply Qfloor_resp_le. lra.
  - apply Qfloor_le.
  - pose proof (Qlt_floor (a * s + (1 # 2))) as H.
    rewrite inject_Z_plus in H. exact H.
Qed.

Lemma toFixed_nonneg digits x : 0 <= x → 0 <= toFixed digits x.
Proof.
  intros Hx. unfold toFixed.
  destruct (Qle_bool (inject_Z (10 ^ 21)) (Qabs x)); [done|].
  set (s := (10 ^ Z.of_nat digits)%Z).
  assert (Hs : (0 < s)%Z) by (apply Z.pow_pos_nonneg; lia).
  apply Qle_shift_div_l.
  - change 0 with (inject_Z 0). by rewrite <- Zlt_Qlt.
  - rewrite Qmult_0_l. change 0 with (inject_Z 0). rewrite <- Zle_Qle.
    apply Z.mul_nonneg_nonneg.
    + destruct x as [n d]. unfold Qle in Hx. simpl in *. lia.
    + change 0%Z with (Qfloor 0). apply Qfloor_resp_le.
      assert (0 <= Qabs x * inject_Z s).
      { apply Qmult_le_0_compat; [apply Qabs_nonneg|].
        change 0 with (inject_Z 0). rewrite <- Zle_Qle. lia. }
      lra.
Qed.

Lemma toFixed6_nearest v :
  Qabs v < inject_Z (10 ^ 21) → nearest6 v (toFixed 6 v).
Proof.
  intros Hv. unfold toFixed.
  rewrite (proj2 (Qle_bool_false _ _) Hv).
  change (inject_Z (10 ^ Z.of_nat 6)) with 1000000.
  pose proof (nearest_integer_bounds (Qabs v) 1000000 (Qabs_nonneg v)) as HN.
  cbv zeta in HN. specialize (HN ltac:(lra)).
  set (n := Qfloor (Qabs v * 1000000 + (1 # 2))) in *.
  destruct HN as (HN0 & HN1 & HN2).
  unfold nearest6. split; [eexists; reflexivity|].
  destruct v as [[|p|p] d].
  - (* zero *)
    change (Z.sgn (Qnum (0 # d))) with 0%Z. rewrite Z.mul_0_l.
    assert (Hz : inject_Z 0 / 1000000 == 0) by reflexivity.
    rewrite Hz.
    assert (Qabs (0 # d) == 0) by reflexivity.
    assert (Qabs 0 == 0) by reflexivity.
    repeat split; lra.
  - (* positive *)
    change (Z.sgn (Qnum (Z.pos p # d))) with 1%Z. rewrite Z.mul_1_l.
    change (Qabs (Z.pos p # d)) with (Z.pos p # d) in *.
    assert (Hr : 0 <= inject_Z n / 1000000) by (apply Qle_shift_div_l; lra).
    rewrite (Qabs_pos _ Hr).
    assert (Hp : 0 <= Z.pos p # d) by done.
    split; [|split].
    + field_simplify. lra.
    + field_simplify. lra.
    + by apply Qmult_le_0_compat.
  - (* negative *)
    change (Z.sgn (Qnum (Z.neg p # d))) with (-1)%Z.
    replace (-1 * n)%Z with (- n)%Z by lia.
    rewrite inject_Z_opp.
    change (Qabs (Z.neg p # d)) with (Z.pos p # d) in *.
    assert (Hr : 0 <= inject_Z n / 1000000) by (apply Qle_shift_div_l; lra).
    assert (Habs : Qabs (- inject_Z n / 1000000) == inject_Z n / 1000000).
    { rewrite <- (Qabs_pos _ Hr), <- Qabs_opp.
      apply Qabs_wd. field. }
    rewrite Habs.
    assert (Hp : 0 <= Z.pos p # d) by done.
    assert (Hneg : (Z.neg p # d) == - (Z.pos p # d)) by reflexivity.
    split; [|split].
    + field_simplify. lra.
    + field_simplify. lra.
    + rewrite Hneg.
      assert (0 <= (inject_Z n / 1000000) * (Z.pos p # d))
        by (by apply Qmult_le_0_compat).
      assert (E : - inject_Z n / 1000000 * - (Z.pos p # d)
                  == (inject_Z n / 1000000) * (Z.pos p # d)) by field.
      by rewrite E.
Qed.

End Rounding.

Section RoundingClaims.

Import CurrencyEngine Spec.
Local Open Scope Q_scope.

(** C6, as stated, fails: converting 0.0000007 USD to USD gives 0.000001,
    while 0.0000007 cut to six decimals is 0. *)
Lemma convert_identity_not_truncated :
  ∃ r, convert scenarioRates (7 # 10000000) "USD" "USD" = Normal r ∧
       r == 1 # 1000000 ∧
       truncate6 (7 # 10000000) == 0 ∧
       ¬ r == truncate6 (7 # 10000000).
Proof.
  eexists. split; [vm_compute; reflexivity|].
  split; [reflexivity|]. split; [reflexivity|]. discriminate.
Qed.

(** C6, amended.  [convert(x, A, A)] is [Number(x.toFixed(6))] whatever
    the table holds; every normal result of [convert] is
    [Number(v.toFixed(6))] for [v] the amount, or the amount times the
    resolved rate; and below [10^21] that value is a multiple of
    [10^-6] nearest to [v], a tie going away from zero. *)
Theorem convert_rounds_to_six_places tbl x A :
  convert tbl x A A = Normal (toFixed 6 x)
  ∧ (∀ from to r,
       convert tbl x from to = Normal r →
       ∃ v, r = toFixed 6 v ∧
            (from = to → v = x) ∧
            (from ≠ to → ∃ rate, resolveRate tbl from to = Normal rate ∧ v = x * rate))
  ∧ (∀ v, Qabs v < inject_Z (10 ^ 21) → nearest6 v (toFixed 6 v)).
Proof.
  split; [|split].
  - unfold convert. by rewrite bool_decide_eq_true_2.
  - intros from to r. unfold convert. case_bool_decide as Hft.
    + intros [= <-]. exists x. by repeat split.
    + destruct (resolveRate tbl from to) as [rate| |] eqn:E; simpl; try done.
      intros [= <-]. exists (x * rate). repeat split; [done|]. eauto.
  - apply toFixed6_nearest.
Qed.

Lemma convert_rounds_to_six_places_witness :
  nearest6 (7 # 10000000) (toFixed 6 (7 # 10000000)).
Proof.
  apply (convert_rounds_to_six_places scenarioRates 0 "USD").
  reflexivity.
Defined.

End RoundingClaims.

(* ===================================================================== *)
(** * Liquidation                                                          *)
(* ===================================================================== *)

Section LiquidationFacts.

Import CurrencyEngine AssetEngine Spec.
Local Open Scope Q_scope.

Implicit Types (h s : Store) (tbl : ExchangeRates) (c : LiquidityClass) (idxs : list nat).

Lemma lookup_shifted h s (i : nat) : (h ++ s) !! (length h + i)%nat = s !! i.
Proof. rewrite lookup_app_r by lia. f_equal. lia. Qed.

(** The loops touch the store only at the addresses they are given:
    objects stored below them are a frame. *)
Lemma sellClass_frame tbl c h idxs : ∀ rem s,
  sellClass tbl c (Nat.add (length h) <$> idxs) rem (h ++ s) =
  (let '(res, s') := sellClass tbl c idxs rem s in (res, h ++ s')).
Proof.
  induction idxs as [|i idxs IH]; intros rem s; simpl; [done|].
  destruct (Qle_bool rem 0); [done|].
  rewrite lookup_shifted. destruct (s !! i) as [a|]; [|apply IH].
  destruct (convert tbl (Math_min (amount a) rem) (currency a) "USD"); [|done..].
  rewrite insert_app_r. apply IH.
Qed.

Lemma filter_hasClass_frame c h s idxs :
  filter (hasClass (h ++ s) c) (Nat.add (length h) <$> idxs) =
  Nat.add (length h) <$> filter (hasClass s c) idxs.
Proof.
  induction idxs as [|i idxs IH]; [done|].
  rewrite fmap_cons, !filter_cons, IH.
  destruct (decide (hasClass (h ++ s) c (length h + i))) as [H1|H1],
           (decide (hasClass s c i)) as [H2|H2]; try done;
    exfalso; unfold hasClass in *; rewrite lookup_shifted in H1; done.
Qed.

Lemma sellInOrder_frame tbl h idxs order : ∀ rem s,
  sellInOrder tbl order (Nat.add (length h) <$> idxs) rem (h ++ s) =
  (let '(res, s') := sellInOrder tbl order idxs rem s in (res, h ++ s')).
Proof.
  induction order as [|c order IH]; intros rem s; simpl; [done|].
  destruct (Qle_bool rem 0); [done|].
  rewrite filter_hasClass_frame, sellClass_frame.
  destruct (sellClass tbl c (filter (hasClass s c) idxs) rem s) as [[rem'| |] s'];
    [apply IH|done..].
Qed.

(** ** The waterfall *)

Lemma waterfall_stop tbl order rem s :
  Qle_bool rem 0 = true → waterfall tbl order rem s = (Normal rem, s).
Proof. destruct order; simpl; [done|]. by intros ->. Qed.

Lemma waterfall_app tbl xs ys : ∀ rem s,
  waterfall tbl (xs ++ ys) rem s =
  match waterfall tbl xs rem s with
  | (Normal rem', s') => waterfall tbl ys rem' s'
  | stopped => stopped
  end.
Proof.
  induction xs as [|i xs IH]; intros rem s; simpl; [done|].
  destruct (Qle_bool rem 0) eqn:E; [by rewrite waterfall_stop|].
  destruct (s !! i) as [a|]; [|apply IH].
  destruct (sale tbl rem a) as [[rem' a']| |]; [apply IH|done..].
Qed.

Lemma sale_keeps tbl rem a rem' a' :
  sale tbl rem a = Normal (rem', a') →
  liquidityClass a' = liquidityClass a ∧ currency a' = currency a ∧
  amount a' = amount a - Math_min (amount a) rem.
Proof.
  unfold sale.
  destruct (convert tbl (Math_min (amount a) rem) (currency a) "USD"); simpl; [|done..].
  by intros [= <- <-].
Qed.

(** A property of single assets that every sale keeps is kept by the
    whole waterfall, position by position. *)
Lemma waterfall_invariant (P : Asset → Asset → Prop) tbl :
  (∀ a, P a a) →
  (∀ a b d : Asset, P a b → P b d → P a d) →
  (∀ rem a rem' a', sale tbl rem a = Normal (rem', a') → P a a') →
  ∀ order rem s res s',
    waterfall tbl order rem s = (res, s') →
    length s' = length s ∧
    ∀ i a, s !! i = Some a → ∃ a', s' !! i = Some a' ∧ P a a'.
Proof.
  intros Hrefl Htrans Hsale.
  assert (Hid : ∀ s, length s = length s ∧
                     ∀ i a, s !! i = Some a → ∃ a', s !! i = Some a' ∧ P a a')
    by (intros; split; eauto).
  induction order as [|i order IH]; intros rem s res s'; simpl.
  { intros [= <- <-]. apply Hid. }
  destruct (Qle_bool rem 0). { intros [= <- <-]. apply Hid. }
  destruct (s !! i) as [a|] eqn:Ei; [|apply IH].
  destruct (sale tbl rem a) as [[rem' a']| |] eqn:Es;
    [|intros [= <- <-]; apply Hid..].
  intros [Hlen Hpos]%IH. rewrite length_insert in Hlen. split; [done|].
  intros j b Hj. destruct (decide (i = j)) as [<-|Hne].
  - destruct (Hpos i a') as (a'' & ? & ?).
    { apply list_lookup_insert_eq. by eapply lookup_lt_Some. }
    exists a''. split; [done|]. simplify_eq. eauto.
  - apply Hpos. by rewrite list_lookup_insert_ne.
Qed.

Lemma waterfall_keeps_classes tbl order rem s res s' :
  waterfall tbl order rem s = (res, s') →
  length s' = length s ∧
  ∀ i, liquidityClass <$> s' !! i = liquidityClass <$> s !! i.
Proof.
  intros H.
  assert (Hsale : ∀ rem a rem' a', sale tbl rem a = Normal (rem', a') →
                                   liquidityClass a' = liquidityClass a)
    by (intros ???? (? & _)%sale_keeps; done).
  destruct (waterfall_invariant (λ a a', liquidityClass a' = liquidityClass a) tbl
              ltac:(done) ltac:(intros; congruence) Hsale order rem s res s' H)
    as [Hlen Hpos].
  split; [done|]. intros i.
  destruct (s !! i) as [a|] eqn:Ei.
  - destruct (Hpos i a Ei) as (a' & -> & Hc). simpl. by rewrite Hc.
  - apply lookup_ge_None in Ei.
    rewrite (proj2 (lookup_ge_None s' i)) by lia. done.
Qed.

Lemma positionsOf_same c s s' :
  length s' = length s →
  (∀ i, liquidityClass <$> s' !! i = liquidityClass <$> s !! i) →
  positionsOf c s' = positionsOf c s.
Proof.
  intros Hlen Hc. unfold positionsOf. rewrite Hlen.
  apply list_filter_iff. intros i. by rewrite Hc.
Qed.

(** The inner loop over the positions of one class is the waterfall over
    those positions. *)
Lemma sellClass_waterfall tbl c idxs : ∀ rem s,
  Forall (hasClass s c) idxs →
  sellClass tbl c idxs rem s = waterfall tbl idxs rem s.
Proof.
  induction idxs as [|i idxs IH]; intros rem s Hall; simpl; [done|].
  apply Forall_cons in Hall as [Hi Hall].
  destruct (Qle_bool rem 0); [done|].
  unfold hasClass in Hi.
  destruct (s !! i) as [a|] eqn:Ei; [|by apply IH].
  simpl in Hi. injection Hi as Hi.
  unfold sale. rewrite Hi.
  destruct (convert tbl (Math_min (amount a) rem) (currency a) "USD"); simpl; [|done..].
  apply IH. eapply Forall_impl; [exact Hall|].
  intros j Hj. unfold hasClass in *.
  destruct (decide (i = j)) as [<-|Hne].
  - rewrite list_lookup_insert_eq by (by eapply lookup_lt_Some). simpl. by f_equal.
  - by rewrite list_lookup_insert_ne.
Qed.

Lemma sellInOrder_waterfall tbl order : ∀ rem s,
  sellInOrder tbl order (seq 0 (length s)) rem s =
  waterfall tbl (concat ((λ c, positionsOf c s) <$> order)) rem s.
Proof.
  induction order as [|c order IH]; intros rem s; simpl; [done|].
  destruct (Qle_bool rem 0) eqn:E; [by rewrite waterfall_stop|].
  rewrite waterfall_app.
  change (filter (hasClass s c) (seq 0 (length s))) with (positionsOf c s).
  rewrite sellClass_waterfall
    by (unfold positionsOf; apply Forall_forall; intros i [Hi _]%list_elem_of_filter; exact Hi).
  destruct (waterfall tbl (positionsOf c s) rem s) as [[rem'| |] s'] eqn:Ew; [|done..].
  apply waterfall_keeps_classes in Ew as [Hlen Hc].
  rewrite <- Hlen, IH. do 2 f_equal.
  apply list_fmap_ext. intros _ c' _. by apply positionsOf_same.
Qed.

(** The loops of [liquidateForDeficit] are the waterfall over the copied
    assets, and the objects of the caller are a frame. *)
Lemma liquidation_is_waterfall tbl assets deficit h :
  liquidateForDeficit tbl assets deficit h =
  liquidationBy tbl (jsonClone <$> deref h assets) deficit h.
Proof.
  unfold liquidateForDeficit, liquidationBy.
  set (copies := jsonClone <$> deref h assets).
  replace (seq (length h) (length copies))
    with (Nat.add (length h) <$> seq 0 (length copies))
    by (rewrite fmap_add_seq; f_equal; lia).
  rewrite sellInOrder_frame, sellInOrder_waterfall.
  replace (concat ((λ c, positionsOf c copies) <$> liquidityOrder))
    with (sellingOrder copies)
    by (unfold sellingOrder, liquidityOrder; simpl; by rewrite app_nil_r).
  by destruct (waterfall tbl (sellingOrder copies) deficit copies) as [[?| |] ?].
Qed.

End LiquidationFacts.

Section LiquidationClaims.

Import CurrencyEngine AssetEngine Spec.
Local Open Scope Q_scope.

Implicit Types (h s : Store) (tbl : ExchangeRates).

(** Reading the fresh addresses back gives the objects stored there. *)
Lemma deref_fresh s : ∀ h, deref (h ++ s) (seq (length h) (length s)) = s.
Proof.
  unfold deref. induction s as [|a s IH]; intros h; simpl; [done|].
  rewrite list_lookup_middle by done. f_equal.
  specialize (IH (h ++ [a])).
  rewrite <- app_assoc, length_app in IH. simpl in IH.
  by rewrite Nat.add_1_r in IH.
Qed.

(** Reading the addresses in use before gives what they held before. *)
Lemma deref_below h s (arr : list nat) :
  deref (h ++ s) (filter (λ l, l < length h)%nat arr) = deref h arr.
Proof.
  unfold deref. induction arr as [|l arr IH]; [done|].
  rewrite filter_cons. destruct (decide (l < length h)%nat) as [Hl|Hl]; simpl.
  - rewrite lookup_app_l by done. destruct (h !! l); [by f_equal|done].
  - rewrite (proj2 (lookup_ge_None h l)) by lia. done.
Qed.

Lemma sale_nonneg tbl rem a rem' a' :
  sale tbl rem a = Normal (rem', a') → 0 <= amount a → 0 <= amount a'.
Proof.
  intros (_ & _ & ->)%sale_keeps Ha. unfold Math_min.
  destruct (Qle_bool (amount a) rem) eqn:E; [lra|].
  apply Qle_bool_false in E. lra.
Qed.

Lemma jsonClone_amount a : amount (jsonClone a) = amount a.
Proof. done. Qed.

Lemma waterfall_nonneg tbl order rem s res s' :
  waterfall tbl order rem s = (res, s') →
  Forall (λ a, 0 <= amount a) s → Forall (λ a, 0 <= amount a) s'.
Proof.
  intros H Hs.
  destruct (waterfall_invariant (λ a a', 0 <= amount a → 0 <= amount a') tbl
              (λ _ Ha, Ha) (λ _ _ _ Hab Hbd Ha, Hbd (Hab Ha))
              (sale_nonneg tbl) order rem s res s' H)
    as [Hlen Hpos].
  apply Forall_lookup. intros i a' Hi.
  destruct (s !! i) as [a|] eqn:Ei.
  - destruct (Hpos i a Ei) as (a'' & ? & Hm). simplify_eq.
    apply Hm. by eapply (proj1 (Forall_lookup _ _) Hs).
  - apply lookup_ge_None in Ei. apply lookup_lt_Some in Hi. lia.
Qed.

Lemma waterfall_usd tbl order : ∀ rem s,
  Forall (λ a, currency a = "USD"%string) s →
  ∃ rem' s', waterfall tbl order rem s = (Normal rem', s').
Proof.
  induction order as [|i order IH]; intros rem s Hs; simpl; [eauto|].
  destruct (Qle_bool rem 0); [eauto|].
  destruct (s !! i) as [a|] eqn:Ei; [|by apply IH].
  assert (Ha : currency a = "USD"%string)
    by (by eapply (proj1 (Forall_lookup _ _) Hs)).
  unfold sale, convert. rewrite Ha, bool_decide_eq_true_2 by done. simpl.
  apply IH. apply Forall_insert; [done|exact Ha].
Qed.

(** C2.  The loops of [liquidateForDeficit] are the waterfall of the
    specification: the copied assets are visited class by class in the
    order liquid, yield, volatile, illiquid and in array order within a
    class, each sale's base-currency proceeds are reduced by the penalty
    of the class, the penalties being 0, 2, 5 and 10 percent, and the
    visit stops once the remaining deficit is not positive.  For a
    deficit of 1000 against 400 USD liquid and 1000 USD volatile, the
    liquid asset is drained for proceeds of 400, then 600 of the volatile
    asset are sold for 570, and the remaining deficit is 30. *)
Theorem liquidateForDeficit_waterfall_order :
  (∀ tbl assets deficit h,
     liquidateForDeficit tbl assets deficit h =
     liquidationBy tbl (jsonClone <$> deref h assets) deficit h)
  ∧ (∀ c, liquidationPenalty c == penaltyPercent c # 100)
  ∧ (∀ now,
       ∃ r h' cash' stock' rem1 rem2,
         liquidateForDeficit (initialRates now) [0; 1]%nat 1000 scenarioAssets
           = (Normal r, h')
         ∧ remainingDeficit r == 30
         ∧ deref h' (liquidatedAssets r) = [cash'; stock']
         ∧ amount cash' == 0 ∧ amount stock' == 400
         ∧ take 2 h' = scenarioAssets
         ∧ sale (initialRates now) 1000 scenarioCash = Normal (rem1, cash')
         ∧ 1000 - rem1 == 400
         ∧ sale (initialRates now) rem1 scenarioStock = Normal (rem2, stock')
         ∧ rem1 - rem2 == 570
         ∧ rem2 == 30).
Proof.
  split; [exact liquidation_is_waterfall|].
  split; [by intros []|].
  intros now. do 6 eexists.
  split; [vm_compute; reflexivity|].
  repeat split; vm_compute; reflexivity.
Qed.

(** C3.  Whatever the outcome, every object stored before the call is
    stored unchanged after it; the list returned holds only addresses
    that were not in use before the call; and if no input quantity is
    negative then no quantity in the returned list is negative. *)
Theorem liquidateForDeficit_input_unchanged tbl assets deficit h res h' :
  liquidateForDeficit tbl assets deficit h = (res, h') →
  take (length h) h' = h
  ∧ (∀ l a, h !! l = Some a → h' !! l = Some a)
  ∧ deref h' (filter (λ l, l < length h)%nat assets) = deref h assets
  ∧ ∀ r, res = Normal r →
         Forall (λ l, length h ≤ l)%nat (liquidatedAssets r)
         ∧ length (deref h' (liquidatedAssets r)) = length (deref h assets)
         ∧ (Forall (λ a, 0 <= amount a) (deref h assets) →
            Forall (λ a, 0 <= amount a) (deref h' (liquidatedAssets r))).
Proof.
  rewrite liquidation_is_waterfall. unfold liquidationBy.
  set (copies := jsonClone <$> deref h assets).
  destruct (waterfall tbl (sellingOrder copies) deficit copies) as [res0 sold] eqn:Ew.
  assert (Hlen : length sold = length copies).
  { by destruct (waterfall_keeps_classes _ _ _ _ _ _ Ew). }
  intros Hres.
  assert (Hh' : h' = h ++ sold) by (destruct res0; simplify_eq; done).
  subst h'.
  split; [by rewrite take_app_length|].
  split; [intros l a Hl; by apply lookup_app_l_Some|].
  split.
  { apply deref_below. }
  intros r ->. destruct res0 as [rem| |]; simplify_eq. simpl.
  rewrite <- Hlen, deref_fresh. split; [|split].
  - apply Forall_forall. intros l [? _]%elem_of_seq. done.
  - rewrite Hlen. unfold copies. by rewrite length_fmap.
  - intros Hnn. apply (waterfall_nonneg _ _ _ _ _ _ Ew).
    unfold copies. by apply Forall_fmap.
Qed.

Lemma liquidateForDeficit_input_unchanged_witness :
  let run := liquidateForDeficit (initialRates 0) [0; 1]%nat 1000 scenarioAssets in
  take 2 run.2 = scenarioAssets
  ∧ Forall (λ a, 0 <= amount a) (deref run.2 [2; 3]%nat).
Proof.
  intros run.
  destruct (liquidateForDeficit_input_unchanged
              (initialRates 0) [0; 1]%nat 1000 scenarioAssets run.1 run.2)
    as (Htake & _ & _ & Hr).
  { subst run. vm_compute. reflexivity. }
  split; [exact Htake|].
  edestruct Hr as (_ & _ & Hnn).
  { subst run. vm_compute. reflexivity. }
  apply Hnn. repeat constructor; vm_compute; discriminate.
Defined.

(** C10.  The remaining deficit of a liquidation that returns is never
    negative; a liquidation of assets held in USD always returns; and
    when the proceeds overshoot, as for a deficit of 100 against 1000 GBP
    liquid at 0.79 GBP a dollar, the loops end below zero and the value
    returned is 0. *)
Theorem liquidateForDeficit_remaining_nonneg :
  (∀ tbl assets deficit h r h',
     liquidateForDeficit tbl assets deficit h = (Normal r, h') →
     0 <= remainingDeficit r)
  ∧ (∀ tbl assets deficit h,
       Forall (λ a, currency a = "USD"%string) (deref h assets) →
       ∃ r h', liquidateForDeficit tbl assets deficit h = (Normal r, h'))
  ∧ (∀ now,
       ∃ rem s' r h',
         sellInOrder (initialRates now) liquidityOrder [1%nat] 100
                     [sterlingAsset; jsonClone sterlingAsset] = (Normal rem, s')
         ∧ rem < 0
         ∧ liquidateForDeficit (initialRates now) [0%nat] 100 [sterlingAsset]
             = (Normal r, h')
         ∧ remainingDeficit r == 0).
Proof.
  split; [|split].
  - intros tbl assets deficit h r h'.
    rewrite liquidation_is_waterfall. unfold liquidationBy.
    destruct (waterfall _ _ _ _) as [[rem| |] sold]; intros [= <- _]. simpl.
    apply Math_max_lower.
  - intros tbl assets deficit h Husd.
    rewrite liquidation_is_waterfall. unfold liquidationBy.
    destruct (waterfall_usd tbl (sellingOrder (jsonClone <$> deref h assets)) deficit
                            (jsonClone <$> deref h assets)) as (rem & sold & ->).
    + by apply Forall_fmap.
    + eauto.
  - intros now. do 4 eexists.
    split; [vm_compute; reflexivity|].
    split; [reflexivity|].
    split; [vm_compute; reflexivity|reflexivity].
Qed.

Lemma liquidateForDeficit_remaining_nonneg_witness :
  ∃ r h', liquidateForDeficit (initialRates 0) [0; 1]%nat 1000 scenarioAssets
          = (Normal r, h') ∧ 0 <= remainingDeficit r.
Proof.
  destruct (proj1 (proj2 liquidateForDeficit_remaining_nonneg)
                  (initialRates 0) [0; 1]%nat 1000 scenarioAssets)
    as (r & h' & E).
  { repeat constructor. }
  exists r, h'. split; [exact E|].
  exact (proj1 liquidateForDeficit_remaining_nonneg _ _ _ _ _ _ E).
Defined.

(** C1, on the program: an asset locked at the current date is sold all
    the same.  With 100 USD liquid locked until a later date and a
    deficit of 50, the returned asset holds 50 and the deficit is
    covered, while [getLiquidFunds] leaves the same asset out. *)
Theorem liquidateForDeficit_sells_locked_asset :
  isAssetLocked lockedAsset lockTestNow = true
  ∧ (∃ r h' sold,
       liquidateForDeficit (initialRates lockTestNow) [0%nat] 50 [lockedAsset]
         = (Normal r, h')
       ∧ deref h' (liquidatedAssets r) = [sold]
       ∧ amount sold == 50
       ∧ ¬ amount sold == amount lockedAsset
       ∧ remainingDeficit r == 0)
  ∧ getLiquidFunds (initialRates lockTestNow) [lockedAsset] "USD" = Normal 0.
Proof.
  split; [reflexivity|]. split; [|reflexivity].
  do 3 eexists. split; [vm_compute; reflexivity|].
  split; [reflexivity|]. split; [reflexivity|]. split; [discriminate|reflexivity].
Qed.

End LiquidationClaims.

(* ===================================================================== *)
(** * Revaluation                                                          *)
(* ===================================================================== *)

Section Revaluation.

Import AssetEngine Spec.
Local Open Scope Q_scope.

Lemma draws_S g n : draws g (S n) = (draw g).1 :: draws (draw g).2 n.
Proof.
  change (draws g (S n)) with (let '(r, g') := draw g in r :: draws g' n).
  by destruct (draw g).
Qed.

Lemma revalueFrom_cons g a assets :
  revalueFrom g (a :: assets) =
  revalueOne a (draw g).1 :: revalueFrom (draw g).2 assets.
Proof.
  change (revalueFrom g (a :: assets))
    with (let '(r, g') := draw g in revalueOne a r :: revalueFrom g' assets).
  by destruct (draw g).
Qed.

Lemma draw_range g : 0 <= (draw g).1 ∧ (draw g).1 < 1.
Proof.
  unfold draw. cbv zeta. cbn [fst].
  set (u := ToUint32 _).
  assert (Hu : (0 <= u < 4294967296)%Z).
  { subst u. unfold ToUint32. apply Z.mod_pos_bound. done. }
  unfold Qle, Qlt. simpl. lia.
Qed.

Lemma draws_range n : ∀ g, Forall (λ r, 0 <= r ∧ r < 1) (draws g n).
Proof.
  induction n as [|n IH]; intros g; [constructor|].
  rewrite draws_S. constructor; [apply draw_range|apply IH].
Qed.

Lemma revalueFrom_draws assets : ∀ g,
  revalueFrom g assets = zip_with revalueOne assets (draws g (length assets)).
Proof.
  induction assets as [|a assets IH]; intros g; [done|].
  rewrite revalueFrom_cons. cbn [length]. rewrite draws_S. simpl. by rewrite IH.
Qed.

(** The assets that follow do not change what the assets before them
    become: the draws are taken in array order. *)
Lemma revalueFrom_prefix assets extra : ∀ g,
  take (length assets) (revalueFrom g (assets ++ extra)) = revalueFrom g assets.
Proof.
  induction assets as [|a assets IH]; intros g; [done|].
  rewrite <- app_comm_cons, !revalueFrom_cons. cbn [length take]. by rewrite IH.
Qed.

Lemma shockOf_range a r :
  0 <= r → r < 1 → 0 <= volatility a →
  - volatility a <= shockOf a r ∧ shockOf a r <= volatility a.
Proof.
  intros Hr0 Hr1 Hv. unfold shockOf.
  assert (0 <= r * volatility a) by (by apply Qmult_le_0_compat).
  assert (0 <= (1 - r) * volatility a) by (apply Qmult_le_0_compat; lra).
  split; lra.
Qed.

Lemma revalueOne_nonneg a r : 0 <= amount (revalueOne a r).
Proof. unfold revalueOne. simpl. apply toFixed_nonneg, Math_max_lower. Qed.

Lemma revalueFrom_nonneg assets : ∀ g,
  Forall (λ a, 0 <= amount a) (revalueFrom g assets).
Proof.
  induction assets as [|a assets IH]; intros g; [constructor|].
  rewrite revalueFrom_cons. constructor; [apply revalueOne_nonneg|apply IH].
Qed.

(** C4.  [revalueAssets] is a function of the asset list and the seed
    alone: the asset at position [i] is revalued with the [i]-th value
    of the generator started from the seed, whatever follows it in the
    list; every value drawn lies in [0, 1) and the shock it gives lies
    in [-volatility, +volatility] for a volatility that is not negative;
    and no revalued amount is negative. *)
Theorem revalueAssets_deterministic assets seed :
  revalueAssets assets seed
    = zip_with revalueOne assets (draws (seededRNG seed) (length assets))
  ∧ length (revalueAssets assets seed) = length assets
  ∧ (∀ extra, take (length assets) (revalueAssets (assets ++ extra) seed)
              = revalueAssets assets seed)
  ∧ Forall (λ r, 0 <= r ∧ r < 1) (draws (seededRNG seed) (length assets))
  ∧ (∀ i a r,
       assets !! i = Some a →
       draws (seededRNG seed) (length assets) !! i = Some r →
       0 <= volatility a →
       - volatility a <= shockOf a r ∧ shockOf a r <= volatility a)
  ∧ Forall (λ a, 0 <= amount a) (revalueAssets assets seed)
  ∧ (∀ assets' seed',
       assets' = assets → seed' = seed →
       revalueAssets assets' seed' = revalueAssets assets seed).
Proof.
  unfold revalueAssets.
  split; [apply revalueFrom_draws|].
  split.
  { rewrite revalueFrom_draws, length_zip_with.
    assert (Hd : ∀ n g, length (draws g n) = n).
    { induction n as [|n IH]; intros g; [done|].
      rewrite draws_S. simpl. by rewrite IH. }
    rewrite Hd. lia. }
  split; [intros; apply revalueFrom_prefix|].
  split; [apply draws_range|].
  split.
  { intros i a r _ Hr Hv.
    pose proof (proj1 (Forall_lookup _ _) (draws_range (length assets) (seededRNG seed))
                      i r Hr) as [? ?].
    by apply shockOf_range. }
  split; [apply revalueFrom_nonneg|].
  by intros ?? -> ->.
Qed.

Lemma revalueAssets_deterministic_witness :
  ∃ r, draws (seededRNG 42) 2 !! 1%nat = Some r
       ∧ - volatility scenarioStock <= shockOf scenarioStock r
       ∧ shockOf scenarioStock r <= volatility scenarioStock.
Proof.
  eexists. split; [vm_compute; reflexivity|].
  destruct (revalueAssets_deterministic scenarioAssets 42)
    as (_ & _ & _ & _ & Hshock & _).
  apply (Hshock 1%nat); [reflexivity | vm_compute; reflexivity | discriminate].
Defined.

End Revaluation.

(* ===================================================================== *)
(** * Ensemble risk                                                        *)
(* ===================================================================== *)

Section Sorting.

Import Arrays Spec.
Local Open Scope Q_scope.

Lemma insert_perm x l : insert x l ≡ₚ x :: l.
Proof.
  induction l as [|y l IH]; simpl; [done|].
  destruct (Qle_bool x y); [done|].
  rewrite IH. apply Permutation_swap.
Qed.

Lemma sort_perm l : sort l ≡ₚ l.
Proof.
  induction l as [|x l IH]; simpl; [done|].
  by rewrite insert_perm, IH.
Qed.

Lemma length_sort l : length (sort l) = length l.
Proof. by rewrite sort_perm. Qed.

Lemma insert_sorted x l :
  StronglySorted Qle l → StronglySorted Qle (insert x l).
Proof.
  induction 1 as [|y l Hl IH Hy]; simpl.
  - repeat constructor.
  - destruct (Qle_bool x y) eqn:E.
    + apply Qle_bool_iff in E. constructor; [by constructor|].
      constructor; [done|].
      eapply Forall_impl; [exact Hy|]. intros z Hz. simpl in Hz. lra.
    + apply Qle_bool_false in E. constructor; [done|].
      rewrite insert_perm. constructor; [lra|done].
Qed.

Lemma sort_sorted l : StronglySorted Qle (sort l).
Proof.
  induction l as [|x l IH]; simpl; [constructor|by apply insert_sorted].
Qed.

Lemma sorted_ascending l : StronglySorted Qle l → ascending l.
Proof.
  induction 1 as [|x l Hl IH Hx]; intros i j a b Hij Hi Hj.
  - by rewrite lookup_nil in Hi.
  - destruct i as [|i], j as [|j]; simpl in *; simplify_eq.
    + lra.
    + eapply (proj1 (Forall_lookup _ _) Hx); eauto.
    + lia.
    + eapply IH; [|done..]. lia.
Qed.

Lemma sort_ascending l : ascending (sort l).
Proof. apply sorted_ascending, sort_sorted. Qed.

End Sorting.

Section RiskFacts.

Import Arrays RiskEngine StatsEngine Spec.
Local Open Scope Q_scope.

Implicit Types (trajectories : list (list WalletState)) (t : list WalletState).

(** On trajectories that all have a day, the final balances are read
    without an exception. *)
Lemma finalBalancesOf_nonempty trajectories :
  Forall (λ t, t ≠ []) trajectories →
  ∃ finals, finalBalancesOf trajectories = Normal finals
            ∧ length finals = length trajectories.
Proof.
  unfold finalBalancesOf.
  induction 1 as [|t trajectories Ht _ (finals & IH & Hlen)]; simpl; [by exists []|].
  destruct (last t) as [state|] eqn:El; [|by apply last_None in El].
  simpl. rewrite IH. simpl. eexists; split; [done|]. simpl. by rewrite Hlen.
Qed.

(** A trajectory without a day makes the read of [balance] throw. *)
Lemma finalsM_empty {A} (prop : string) (get : WalletState → A) trajectories :
  [] ∈ trajectories →
  mapM (λ t : list WalletState, field prop get (last t)) trajectories
    = Throw (TypeError prop).
Proof.
  induction trajectories as [|t trajectories IH]; [by intros ?%elem_of_nil|].
  intros [<-|Hin]%elem_of_cons; simpl; [done|].
  destruct (last t); simpl; [|done]. by rewrite IH.
Qed.

Lemma drawdownAll_empty trajectories : ∀ worst,
  [] ∈ trajectories → drawdownAll worst trajectories = Throw (TypeError "balance").
Proof.
  induction trajectories as [|t trajectories IH]; intros worst;
    [by intros ?%elem_of_nil|].
  intros [<-|Hin]%elem_of_cons; simpl; [done|].
  unfold drawdownTrajectory. destruct (head t); simpl; [|done]. by apply IH.
Qed.

(** The index [floor(n * p)] for a percentile in [0, 1). *)
Lemma percentile_index_bounds (n : nat) (p : Q) :
  0 <= p → p < 1 → (0 < n)%nat →
  (0 <= Qfloor (inject_Z (Z.of_nat n) * p) < Z.of_nat n)%Z.
Proof.
  intros Hp0 Hp1 Hn.
  assert (HnQ : 0 < inject_Z (Z.of_nat n)).
  { change 0 with (inject_Z 0). rewrite <- Zlt_Qlt. lia. }
  split.
  - change 0%Z with (Qfloor 0). apply Qfloor_resp_le.
    apply Qmult_le_0_compat; lra.
  - rewrite Zlt_Qlt. eapply Qle_lt_trans; [apply Qfloor_le|].
    assert (0 < inject_Z (Z.of_nat n) * (1 - p)) by (apply Qmult_lt_0_compat; lra).
    lra.
Qed.

Lemma percentile_index_mono (n : nat) (p1 p2 : Q) :
  p1 <= p2 →
  (Qfloor (inject_Z (Z.of_nat n) * p1) <= Qfloor (inject_Z (Z.of_nat n) * p2))%Z.
Proof.
  intros Hp. apply Qfloor_resp_le.
  assert (HnQ : 0 <= inject_Z (Z.of_nat n)).
  { change 0 with (inject_Z 0). rewrite <- Zle_Qle. lia. }
  assert (0 <= inject_Z (Z.of_nat n) * (p2 - p1)) by (apply Qmult_le_0_compat; lra).
  lra.
Qed.

Lemma calculateVaR_unfold trajectories finals p :
  finalBalancesOf trajectories = Normal finals →
  calculateVaR trajectories p =
  Normal (at_index (sort finals) (Z.max 0 (Qfloor (lengthQ (sort finals) * p)))).
Proof. unfold calculateVaR. by intros ->. Qed.

End RiskFacts.

Section RiskClaims.

Import Arrays RiskEngine StatsEngine Spec.
Local Open Scope Q_scope.

Implicit Types (trajectories : list (list WalletState)).

(** C7, as stated, fails: for the percentile -0.5 [calculateVaR] returns
    the smallest final balance, and for the percentile 1.5
    [calculateCVaR] returns the mean of all the final balances. *)
Lemma percentile_out_of_range_accepted :
  - (1 # 2) < 0 ∧ calculateVaR twoRuns (- (1 # 2)) = Normal (Some 10)
  ∧ 1 < 3 # 2 ∧ ∃ v, calculateCVaR twoRuns (3 # 2) = Normal (Fin v) ∧ v == 15.
Proof.
  split; [reflexivity|]. split; [vm_compute; reflexivity|].
  split; [reflexivity|]. eexists. split; [vm_compute; reflexivity|reflexivity].
Qed.

(** C7, amended.  On an ensemble whose trajectories all have a day,
    [calculateVaR] and [calculateCVaR] return for every percentile and
    throw nothing; for a negative percentile [calculateVaR] takes index 0
    and returns the smallest final balance. *)
Theorem percentile_not_validated trajectories p :
  Forall (λ t, t ≠ []) trajectories →
  (∃ v, calculateVaR trajectories p = Normal v)
  ∧ (∃ v, calculateCVaR trajectories p = Normal v)
  ∧ (p < 0 →
     ∃ finals,
       finalBalancesOf trajectories = Normal finals
       ∧ calculateVaR trajectories p = Normal (head (sort finals))
       ∧ ∀ m x, head (sort finals) = Some m → x ∈ finals → m <= x).
Proof.
  intros (finals & Hf & Hlen)%finalBalancesOf_nonempty.
  split; [rewrite (calculateVaR_unfold _ _ _ Hf); eauto|].
  split; [unfold calculateCVaR; rewrite Hf; simpl; eauto|].
  intros Hp. exists finals. split; [done|].
  rewrite (calculateVaR_unfold _ _ _ Hf).
  assert (Hidx : (Qfloor (lengthQ (sort finals) * p) <= 0)%Z).
  { change 0%Z with (Qfloor 0). apply Qfloor_resp_le. unfold lengthQ.
    assert (0 <= inject_Z (Z.of_nat (length (sort finals)))).
    { change 0 with (inject_Z 0). rewrite <- Zle_Qle. lia. }
    assert (0 <= inject_Z (Z.of_nat (length (sort finals))) * (0 - p))
      by (apply Qmult_le_0_compat; lra).
    lra. }
  rewrite Z.max_l by done. split; [by rewrite head_lookup|].
  intros m x Hm Hx. rewrite head_lookup in Hm.
  rewrite <- sort_perm in Hx. apply list_elem_of_lookup in Hx as [j Hj].
  eapply (sort_ascending finals 0%nat j); [lia|done..].
Qed.

Lemma percentile_not_validated_witness :
  ∃ v, calculateVaR twoRuns (- (1 # 2)) = Normal v.
Proof.
  apply (percentile_not_validated twoRuns (- (1 # 2))).
  repeat constructor; discriminate.
Defined.

(** C8, as stated, fails: on the empty ensemble [calculateVaR] returns
    [undefined] and [calculateCollapseProbability] returns a NaN
    probability; neither throws. *)
Lemma empty_ensemble_accepted :
  calculateVaR [] (1 # 2) = Normal None
  ∧ ∃ m, calculateCollapseProbability [] = Normal m ∧ collapseProbability m = NaN.
Proof. split; [reflexivity|]. eexists. split; reflexivity. Qed.

(** C8, amended.  On the empty ensemble [calculateVaR] returns
    [undefined], [calculateCollapseProbability] returns a NaN
    probability with no collapse, recovery rate 1 and drawdown 0, and
    [generateStatistics] throws a TypeError on the median; on an
    ensemble that holds a trajectory without a day all three throw the
    TypeError of reading [balance] of [undefined]. *)
Theorem empty_input_not_validated :
  (∀ p, calculateVaR [] p = Normal None)
  ∧ (∃ m, calculateCollapseProbability [] = Normal m
          ∧ collapseProbability m = NaN ∧ collapseTimings m = []
          ∧ averageCollapsDay m = 0%Z ∧ recoveryRate m == 1 ∧ maxDrawdown m == 0)
  ∧ (∀ Math_sqrt VibeState (calculateAverageVibe : _ → Completion VibeState),
       generateStatistics Math_sqrt VibeState calculateAverageVibe []
         = Throw (TypeError "toFixed"))
  ∧ (∀ trajectories,
       [] ∈ trajectories →
       (∀ p, calculateVaR trajectories p = Throw (TypeError "balance"))
       ∧ calculateCollapseProbability trajectories = Throw (TypeError "balance")
       ∧ ∀ Math_sqrt VibeState (calculateAverageVibe : _ → Completion VibeState),
           generateStatistics Math_sqrt VibeState calculateAverageVibe trajectories
             = Throw (TypeError "balance")).
Proof.
  split; [done|]. split; [eexists; repeat split; reflexivity|].
  split; [done|].
  intros trajectories Hin. split; [|split].
  - intros p. unfold calculateVaR, finalBalancesOf. by rewrite finalsM_empty.
  - unfold calculateCollapseProbability, calculateMaxDrawdown.
    destruct (foldl scanTrajectory ([], 0%Z) trajectories) as [timings count].
    by rewrite drawdownAll_empty.
  - intros. unfold generateStatistics, finalBalancesOf.
    by rewrite (finalsM_empty "balance").
Qed.

Lemma empty_input_not_validated_witness :
  calculateCollapseProbability [[dayWith 20]; []] = Throw (TypeError "balance").
Proof.
  apply (proj2 (proj2 (proj2 empty_input_not_validated)) [[dayWith 20]; []]).
  apply elem_of_cons. right. apply elem_of_cons. by left.
Defined.

(** C9.  On an ensemble whose trajectories all have a day, the value at
    risk does not decrease from one percentile of [0, 1) to a larger
    one; at the percentile 1 the index is the length of the sorted
    balances and [calculateVaR] returns [undefined], so that the value at
    0.5 has nothing to compare with. *)
Theorem calculateVaR_monotone_below_one :
  (∀ trajectories p1 p2,
     trajectories ≠ [] → Forall (λ t, t ≠ []) trajectories →
     0 <= p1 → p1 < p2 → p2 < 1 →
     ∃ v1 v2, calculateVaR trajectories p1 = Normal (Some v1)
              ∧ calculateVaR trajectories p2 = Normal (Some v2)
              ∧ v1 <= v2)
  ∧ (∀ trajectories,
       Forall (λ t, t ≠ []) trajectories →
       calculateVaR trajectories 1 = Normal None)
  ∧ calculateVaR twoRuns (1 # 2) = Normal (Some 20)
  ∧ calculateVaR twoRuns 1 = Normal None.
Proof.
  split; [|split; [|split; vm_compute; reflexivity]].
  - intros trajectories p1 p2 Hne (finals & Hf & Hlen)%finalBalancesOf_nonempty
           Hp1 Hp12 Hp2.
    rewrite !(calculateVaR_unfold _ _ _ Hf). unfold lengthQ.
    set (n := length (sort finals)).
    assert (Hn : (0 < n)%nat).
    { subst n. rewrite length_sort, Hlen. destruct trajectories; [done|simpl; lia]. }
    pose proof (percentile_index_bounds n p1 Hp1 ltac:(lra) Hn) as [Hi1 Hi1'].
    pose proof (percentile_index_bounds n p2 ltac:(lra) Hp2 Hn) as [Hi2 Hi2'].
    pose proof (percentile_index_mono n p1 p2 ltac:(lra)) as Hmono.
    rewrite !Z.max_r by done. unfold at_index.
    rewrite !(proj2 (Z.ltb_ge _ _)) by done.
    destruct (lookup_lt_is_Some_2 (sort finals)
                (Z.to_nat (Qfloor (inject_Z (Z.of_nat n) * p1))) ltac:(lia)) as [v1 Hv1].
    destruct (lookup_lt_is_Some_2 (sort finals)
                (Z.to_nat (Qfloor (inject_Z (Z.of_nat n) * p2))) ltac:(lia)) as [v2 Hv2].
    exists v1, v2. rewrite Hv1, Hv2. repeat split.
    eapply (sort_ascending finals); [|exact Hv1|exact Hv2]. lia.
  - intros trajectories (finals & Hf & Hlen)%finalBalancesOf_nonempty.
    rewrite (calculateVaR_unfold _ _ _ Hf). unfold lengthQ.
    rewrite Qmult_1_r, Qfloor_Z, Z.max_r by lia. unfold at_index.
    rewrite (proj2 (Z.ltb_ge _ _)) by lia.
    rewrite Nat2Z.id. f_equal. by apply lookup_ge_None.
Qed.

Lemma calculateVaR_monotone_below_one_witness :
  ∃ v1 v2, calculateVaR twoRuns (1 # 4) = Normal (Some v1)
           ∧ calculateVaR twoRuns (3 # 4) = Normal (Some v2)
           ∧ v1 <= v2.
Proof.
  apply (proj1 calculateVaR_monotone_below_one twoRuns (1 # 4) (3 # 4)).
  - discriminate.
  - repeat constructor; discriminate.
  - discriminate.
  - reflexivity.
  - reflexivity.
Defined.

End RiskClaims.

(* ===================================================================== *)
(** * Rounding laws                                                        *)
(* ===================================================================== *)

Section RoundingLaws.

Local Open Scope Q_scope.

Lemma scale_pos (d : nat) : 0 < inject_Z (10 ^ Z.of_nat d).
Proof.
  change 0 with (inject_Z 0). rewrite <- Zlt_Qlt. apply Z.pow_pos_nonneg; lia.
Qed.

Lemma toFixed_big d v : inject_Z (10 ^ 21) <= Qabs v → toFixed d v = v.
Proof. intros H. unfold toFixed. by rewrite (proj2 (Qle_bool_iff _ _) H). Qed.

Lemma toFixed_nonneg_small d v :
  0 <= v → v < inject_Z (10 ^ 21) →
  toFixed d v ==
  inject_Z (Qfloor (v * inject_Z (10 ^ Z.of_nat d) + (1 # 2))) / inject_Z (10 ^ Z.of_nat d).
Proof.
  intros H0 H1. unfold toFixed.
  assert (Ha : Qabs v == v) by (by apply Qabs_pos).
  rewrite (proj2 (Qle_bool_false _ _)) by (rewrite Ha; done).
  pose proof (scale_pos d) as Hs. set (s := inject_Z (10 ^ Z.of_nat d)) in *.
  rewrite Ha.
  destruct v as [[|p|p] den].
  - change (Z.sgn (Qnum (0 # den))) with 0%Z. rewrite Z.mul_0_l.
    assert (E : (0 # den) * s + (1 # 2) == 1 # 2).
    { assert (Hz : (0 # den) == 0) by reflexivity. rewrite Hz. ring. }
    rewrite E. reflexivity.
  - change (Z.sgn (Qnum (Z.pos p # den))) with 1%Z. by rewrite Z.mul_1_l.
  - exfalso. revert H0. unfold Qle. simpl. lia.
Qed.

Lemma toFixed_neg_small d v :
  v < 0 → - inject_Z (10 ^ 21) < v →
  toFixed d v ==
  - (inject_Z (Qfloor ((- v) * inject_Z (10 ^ Z.of_nat d) + (1 # 2)))
     / inject_Z (10 ^ Z.of_nat d)).
Proof.
  intros H0 H1. unfold toFixed.
  assert (Ha : Qabs v == - v) by (apply Qabs_neg; lra).
  rewrite (proj2 (Qle_bool_false _ _)) by (rewrite Ha; lra).
  pose proof (scale_pos d) as Hs. set (s := inject_Z (10 ^ Z.of_nat d)) in *.
  rewrite Ha.
  destruct v as [[|p|p] den].
  - exfalso. revert H0. unfold Qlt. simpl. lia.
  - exfalso. revert H0. unfold Qlt. simpl. lia.
  - change (Z.sgn (Qnum (Z.neg p # den))) with (-1)%Z.
    replace (-1 * Qfloor (- (Z.neg p # den) * s + (1 # 2)))%Z
      with (- Qfloor (- (Z.neg p # den) * s + (1 # 2)))%Z by lia.
    rewrite inject_Z_opp. field. lra.
Qed.

(** Below [10^21] in magnitude, the rounded value is within [10^21]. *)
Lemma round_magnitude_bound d a :
  0 <= a → a < inject_Z (10 ^ 21) →
  inject_Z (Qfloor (a * inject_Z (10 ^ Z.of_nat d) + (1 # 2))) / inject_Z (10 ^ Z.of_nat d)
  <= inject_Z (10 ^ 21).
Proof.
  intros H0 H1.
  pose proof (scale_pos d) as Hs.
  apply Qle_shift_div_r; [done|].
  rewrite <- inject_Z_mult, <- Zle_Qle.
  apply Z.lt_succ_r. rewrite Zlt_Qlt.
  eapply Qle_lt_trans; [apply Qfloor_le|].
  unfold Z.succ. rewrite inject_Z_plus, inject_Z_mult.
  assert (a * inject_Z (10 ^ Z.of_nat d) < inject_Z (10 ^ 21) * inject_Z (10 ^ Z.of_nat d)).
  { apply Qmult_lt_compat_r; done. }
  change (inject_Z 1) with 1. lra.
Qed.

Lemma round_magnitude_nonneg d a :
  0 <= a →
  0 <= inject_Z (Qfloor (a * inject_Z (10 ^ Z.of_nat d) + (1 # 2))) / inject_Z (10 ^ Z.of_nat d).
Proof.
  intros H0. pose proof (scale_pos d) as Hs.
  apply Qle_shift_div_l; [done|]. rewrite Qmult_0_l.
  apply (nearest_integer_bounds a (inject_Z (10 ^ Z.of_nat d))); lra.
Qed.

Lemma round_magnitude_mono d a b :
  a <= b →
  inject_Z (Qfloor (a * inject_Z (10 ^ Z.of_nat d) + (1 # 2))) / inject_Z (10 ^ Z.of_nat d)
  <= inject_Z (Qfloor (b * inject_Z (10 ^ Z.of_nat d) + (1 # 2))) / inject_Z (10 ^ Z.of_nat d).
Proof.
  intros Hab. pose proof (scale_pos d) as Hs.
  apply Qmult_le_compat_r; [|apply Qlt_le_weak, Qinv_lt_0_compat; done].
  rewrite <- Zle_Qle. apply Qfloor_resp_le.
  assert (a * inject_Z (10 ^ Z.of_nat d) <= b * inject_Z (10 ^ Z.of_nat d))
    by (apply Qmult_le_compat_r; lra).
  lra.
Qed.

(** [Number(x.toFixed(d))] does not decrease when [x] grows. *)
Lemma toFixed_mono d x y : x <= y → toFixed d x <= toFixed d y.
Proof.
  intros Hxy.
  set (B := inject_Z (10 ^ 21)).
  assert (HB : 0 < B) by reflexivity.
  assert (Hsmall : ∀ v, - B < v → v < B → - B <= toFixed d v ∧ toFixed d v <= B).
  { intros v Hl Hu. destruct (Qlt_le_dec v 0) as [Hneg|Hpos].
    - rewrite toFixed_neg_small by done.
      pose proof (round_magnitude_bound d (- v) ltac:(lra) ltac:(fold B; lra)) as P1.
      pose proof (round_magnitude_nonneg d (- v) ltac:(lra)) as P2.
      fold B in P1, P2. split; lra.
    - rewrite toFixed_nonneg_small by done.
      pose proof (round_magnitude_bound d v Hpos Hu) as P1.
      pose proof (round_magnitude_nonneg d v Hpos) as P2.
      fold B in P1, P2. split; lra. }
  assert (Hbig : ∀ v, v <= - B ∨ B <= v → toFixed d v = v).
  { intros v Hv. apply toFixed_big. fold B.
    destruct Hv; [rewrite Qabs_neg by lra|rewrite Qabs_pos by lra]; lra. }
  destruct (Qlt_le_dec (- B) x) as [Hxl|Hxl]; [|rewrite (Hbig x) by (by left)].
  - destruct (Qlt_le_dec x B) as [Hxu|Hxu].
    + destruct (Qlt_le_dec y B) as [Hyu|Hyu].
      * (* both below 10^21 in magnitude *)
        destruct (Qlt_le_dec x 0) as [Hx0|Hx0], (Qlt_le_dec y 0) as [Hy0|Hy0].
        -- rewrite (toFixed_neg_small d x), (toFixed_neg_small d y) by (done || (fold B; lra)).
           pose proof (round_magnitude_mono d (- y) (- x) ltac:(lra)). lra.
        -- rewrite (toFixed_neg_small d x), (toFixed_nonneg_small d y) by (done || (fold B; lra)).
           pose proof (round_magnitude_nonneg d (- x) ltac:(lra)).
           pose proof (round_magnitude_nonneg d y Hy0). lra.
        -- lra.
        -- rewrite (toFixed_nonneg_small d x), (toFixed_nonneg_small d y) by done.
           by apply round_magnitude_mono.
      * rewrite (Hbig y) by (by right). destruct (Hsmall x Hxl Hxu). lra.
    + rewrite (Hbig x), (Hbig y) by (right; lra). done.
  - destruct (Qlt_le_dec (- B) y) as [Hyl|Hyl]; [|by rewrite (Hbig y) by (by left)].
    destruct (Qlt_le_dec y B) as [Hyu|Hyu]; [|rewrite (Hbig y) by (by right); lra].
    destruct (Hsmall y Hyl Hyu). lra.
Qed.

(** The rounded value is within half a unit of the last place. *)
Lemma toFixed_error d v :
  - (1 # 2) <= (toFixed d v - v) * inject_Z (10 ^ Z.of_nat d)
  ∧ (toFixed d v - v) * inject_Z (10 ^ Z.of_nat d) <= 1 # 2.
Proof.
  pose proof (scale_pos d) as Hs. set (s := inject_Z (10 ^ Z.of_nat d)) in *.
  set (B := inject_Z (10 ^ 21)).
  destruct (Qlt_le_dec (Qabs v) B) as [Hsm|Hbg].
  - destruct (Qlt_le_dec v 0) as [Hneg|Hpos].
    + assert (Ha : Qabs v == - v) by (apply Qabs_neg; lra).
      rewrite toFixed_neg_small by (done || (fold B; lra)). fold s.
      pose proof (nearest_integer_bounds (- v) s ltac:(lra) ltac:(lra)) as (_ & H1 & H2).
      cbv zeta in H1, H2. set (N := inject_Z (Qfloor _)) in *.
      assert (E : (- (N / s) - v) * s == - N - v * s) by (field; lra).
      split; lra.
    + assert (Ha : Qabs v == v) by (by apply Qabs_pos).
      rewrite toFixed_nonneg_small by (done || (fold B; lra)). fold s.
      pose proof (nearest_integer_bounds v s Hpos ltac:(lra)) as (_ & H1 & H2).
      cbv zeta in H1, H2. set (N := inject_Z (Qfloor _)) in *.
      assert (E : (N / s - v) * s == N - v * s) by (field; lra).
      split; lra.
  - rewrite toFixed_big by done.
    assert (E : (v - v) * s == 0) by ring. split; lra.
Qed.

Lemma toFixed_nonpos digits x : x <= 0 → toFixed digits x <= 0.
Proof.
  intros Hx. pose proof (toFixed_mono digits x 0 Hx) as H.
  assert (E : toFixed digits 0 == 0) by (rewrite toFixed_nonneg_small by done; reflexivity).
  lra.
Qed.

End RoundingLaws.

(* ===================================================================== *)
(** * Rates and round trips                                                *)
(* ===================================================================== *)

Section RateLaws.

Import CurrencyEngine Spec.
Local Open Scope Q_scope.

Lemma toFixed6_error v :
  - (1 # 2000000) <= toFixed 6 v - v ∧ toFixed 6 v - v <= 1 # 2000000.
Proof.
  pose proof (toFixed_error 6 v) as [H1 H2].
  change (inject_Z (10 ^ Z.of_nat 6)) with 1000000 in H1, H2. split; lra.
Qed.

(** X1.  [getRate] looks for the direct and the reverse pair only: it
    throws exactly when neither is stored, also for a currency against
    itself and also where [convert] finds a one-hop path; the rate it
    returns is the one [convert] multiplies by. *)
Theorem getRate_direct_or_reverse_only tbl from to :
  (getRate tbl from to = Throw (Error ("Rate not found for " +:+ from +:+ "/" +:+ to))
   ↔ rates tbl !! pairKey from to = None ∧ rates tbl !! pairKey to from = None)
  ∧ (∀ e, getRate tbl from to = Throw e →
          e = Error ("Rate not found for " +:+ from +:+ "/" +:+ to))
  ∧ (∀ r amount,
       from ≠ to → getRate tbl from to = Normal r →
       convert tbl amount from to = Normal (toFixed 6 (amount * r)))
  ∧ (∀ amount X,
       positive_rates tbl → from ≠ to → one_hop tbl from to X →
       X = "USD"%string ∨ X = "EUR"%string →
       rates tbl !! pairKey from to = None → rates tbl !! pairKey to from = None →
       (∃ v, convert tbl amount from to = Normal v)
       ∧ getRate tbl from to
           = Throw (Error ("Rate not found for " +:+ from +:+ "/" +:+ to))).
Proof.
  change ("Rate not found for " +:+ from +:+ "/" +:+ to)
    with (rateNotFoundMessage (pairKey from to)).
  unfold getRate. rewrite !rateOf_pairKey.
  split; [|split; [|split]].
  - destruct (rates tbl !! pairKey from to) as [r|];
      [split; [done|by intros [? _]]|].
    destruct (rates tbl !! pairKey to from) as [r|]; [|done].
    destruct (Qeq_bool r 0); (split; [done|by intros [_ ?]]).
  - intros e. destruct (rates tbl !! pairKey from to) as [r|]; [done|].
    destruct (rates tbl !! pairKey to from) as [r|]; [by destruct (Qeq_bool r 0)|].
    by intros [= <-].
  - intros r amount Hne. rewrite convert_unfold by done.
    destruct (rates tbl !! pairKey from to) as [r'|]; [by intros [= ->]|].
    destruct (rates tbl !! pairKey to from) as [r'|]; [|done].
    destruct (Qeq_bool r' 0); [done|by intros [= <-]].
  - intros amount X Hpos Hne Hhop HX Hd Hr. rewrite Hd, Hr. split; [|done].
    rewrite convert_unfold, Hd, Hr by done.
    destruct (indirectVia tbl from to intermediaries) as [r|] eqn:Ei.
    + destruct (indirectVia_Some _ _ _ _ _ Ei) as (Y & r1 & r2 & _ & H1 & H2 & ->).
      rewrite positive_not_zero; [eauto|].
      apply Hpos in H1, H2. by apply Qmult_lt_0_compat.
    + apply indirectVia_None in Ei. exfalso.
      unfold intermediaries in Ei.
      apply Forall_cons in Ei as [Hu Ei]. apply Forall_cons in Ei as [He _].
      destruct HX as [->| ->]; done.
Qed.

Lemma getRate_direct_or_reverse_only_witness :
  (∃ v, convert scenarioRates 100 "USD" "PKR" = Normal v)
  ∧ getRate scenarioRates "USD" "PKR"
      = Throw (Error ("Rate not found for " +:+ "USD" +:+ "/" +:+ "PKR")).
Proof.
  apply (proj2 (proj2 (proj2 (getRate_direct_or_reverse_only scenarioRates "USD" "PKR")))
           100 "EUR"%string).
  - exact scenarioRates_positive.
  - discriminate.
  - unfold one_hop. repeat split; try discriminate; vm_compute; eauto.
  - by right.
  - reflexivity.
  - reflexivity.
Defined.



End RateLaws.

(* ===================================================================== *)
(** * The generator and the yield                                          *)
(* ===================================================================== *)

Section GeneratorLaws.

Import AssetEngine Spec.
Local Open Scope Q_scope.

Lemma ToInt32_congruent y : ∃ k : Z, ToInt32 y = (y + 4294967296 * k)%Z.
Proof.
  unfold ToInt32. change (2 ^ 31)%Z with 2147483648%Z.
  change (2 ^ 32)%Z with 4294967296%Z.
  exists (- ((y + 2147483648) / 4294967296))%Z.
  pose proof (Z.div_mod (y + 2147483648) 4294967296 ltac:(lia)). lia.
Qed.

(** The value drawn is a multiple of [2^16] fixed by [m_z] plus the low
    16 bits of [m_w]. *)
Lemma draw_high_low g :
  ∃ L : Z,
    (0 <= L < 65536)%Z
    ∧ (draw g).1
      = (65536 * (ToInt32 (m_z (draw g).2) mod 65536) + L)%Z # 4294967296.
Proof.
  unfold draw. cbv zeta. cbn [fst snd m_z].
  set (z := bitand _ mask). set (w := bitand _ mask).
  exists (ToInt32 w mod 65536)%Z.
  split; [apply Z.mod_pos_bound; lia|].
  f_equal. unfold ToUint32, shl, bitand.
  change (ToInt32 65535) with (Z.ones 16). rewrite Z.land_ones by lia.
  change (2 ^ 16)%Z with 65536%Z. change (2 ^ 32)%Z with 4294967296%Z.
  rewrite Z.shiftl_mul_pow2 by lia. change (2 ^ 16)%Z with 65536%Z.
  destruct (ToInt32_congruent (ToInt32 z * 65536)) as [k ->].
  set (zz := ToInt32 z). set (L := (ToInt32 w mod 65536)%Z).
  assert (HL : (0 <= L < 65536)%Z) by (apply Z.mod_pos_bound; lia).
  pose proof (Z.div_mod zz 65536 ltac:(lia)) as Hzz.
  pose proof (Z.mod_pos_bound zz 65536 ltac:(lia)) as Hm.
  symmetry. apply (Z.mod_unique_pos _ _ (zz / 65536 + k)); lia.
Qed.

Lemma draw_m_z g1 g2 : m_z g1 = m_z g2 → m_z (draw g1).2 = m_z (draw g2).2.
Proof. unfold draw. cbv zeta. cbn [snd m_z]. by intros ->. Qed.

Lemma draws_close n : ∀ g1 g2,
  m_z g1 = m_z g2 →
  Forall2 (λ r1 r2, Qabs (r1 - r2) < 1 # 65536) (draws g1 n) (draws g2 n).
Proof.
  induction n as [|n IH]; intros g1 g2 Hz; [constructor|].
  rewrite !draws_S. constructor; [|by apply IH, draw_m_z].
  destruct (draw_high_low g1) as (L1 & HL1 & ->).
  destruct (draw_high_low g2) as (L2 & HL2 & ->).
  rewrite (draw_m_z g1 g2 Hz).
  set (H := (65536 * (ToInt32 (m_z (draw g2).2) mod 65536))%Z).
  apply Qabs_case; intros _; unfold Qlt, Qminus, Qplus, Qopp; simpl; lia.
Qed.

(** X3.  The seed reaches only the low 16 bits of a draw: for any two
    seeds the draws of equal rank differ by less than [2^-16], and the
    shocks they give an asset by at most [volatility * 2^-15]. *)
Theorem seed_moves_draws_below_2_16 seed1 seed2 n :
  Forall2 (λ r1 r2, Qabs (r1 - r2) < 1 # 65536)
          (draws (seededRNG seed1) n) (draws (seededRNG seed2) n)
  ∧ ∀ i r1 r2 a,
      draws (seededRNG seed1) n !! i = Some r1 →
      draws (seededRNG seed2) n !! i = Some r2 →
      0 <= volatility a →
      Qabs (shockOf a r1 - shockOf a r2) <= volatility a * (1 # 32768).
Proof.
  pose proof (draws_close n (seededRNG seed1) (seededRNG seed2) eq_refl) as HF.
  split; [exact HF|].
  intros i r1 r2 a H1 H2 Hv.
  pose proof (Forall2_lookup_lr _ _ _ _ _ _ HF H1 H2) as Hr.
  unfold shockOf.
  apply Qabs_Qlt_condition in Hr as [Hr1 Hr2].
  assert (0 <= ((r1 - r2) + (1 # 65536)) * volatility a)
    by (apply Qmult_le_0_compat; lra).
  assert (0 <= ((1 # 65536) - (r1 - r2)) * volatility a)
    by (apply Qmult_le_0_compat; lra).
  apply Qabs_Qle_condition. split; lra.
Qed.

Lemma seed_moves_draws_below_2_16_witness :
  ∃ r1 r2,
    draws (seededRNG 1) 3 !! 2%nat = Some r1
    ∧ draws (seededRNG 987654321) 3 !! 2%nat = Some r2
    ∧ Qabs (shockOf scenarioStock r1 - shockOf scenarioStock r2)
      <= volatility scenarioStock * (1 # 32768).
Proof.
  eexists _, _. split; [vm_compute; reflexivity|]. split; [vm_compute; reflexivity|].
  apply (proj2 (seed_moves_draws_below_2_16 1 987654321 3) 2%nat);
    [vm_compute; reflexivity | vm_compute; reflexivity | discriminate].
Defined.

Lemma applyYieldFrom_cons g a assets :
  applyYieldFrom g (a :: assets) =
  if bool_decide (liquidityClass a = yield)
  then yieldOne a (draw g).1 :: applyYieldFrom (draw g).2 assets
  else a :: applyYieldFrom g assets.
Proof.
  change (applyYieldFrom g (a :: assets))
    with (if bool_decide (liquidityClass a = yield)
          then let '(r, g') := draw g in yieldOne a r :: applyYieldFrom g' assets
          else a :: applyYieldFrom g assets).
  by destruct (draw g).
Qed.

Lemma yieldOne_band a r :
  0 <= r → r < 1 → 0 <= amount a →
  amount a * (1 + (2 # 100) / 365) - (1 # 2000000) <= amount (yieldOne a r)
  ∧ amount (yieldOne a r) <= amount a * (1 + (5 # 100) / 365) + (1 # 2000000)
  ∧ 0 <= amount (yieldOne a r).
Proof.
  intros Hr0 Hr1 Ha. unfold yieldOne. cbv zeta. cbn [amount with_amount].
  set (v := amount a + amount a * (((2 # 100) + r * (3 # 100)) / 365)).
  destruct (toFixed6_error v) as [E1 E2].
  assert (0 <= amount a * r) by (by apply Qmult_le_0_compat).
  assert (0 <= amount a * (1 - r)) by (apply Qmult_le_0_compat; lra).
  assert (Ev : v == amount a + amount a * (2 # 36500) + amount a * r * (3 # 36500))
    by (unfold v; field).
  assert (C1 : amount a * (1 + (2 # 100) / 365) == amount a + amount a * (2 # 36500))
    by field.
  assert (C2 : amount a * (1 + (5 # 100) / 365) == amount a + amount a * (5 # 36500))
    by field.
  clearbody v. split; [lra|]. split; [lra|].
  apply toFixed_nonneg. lra.
Qed.

(** X4.  [applyYield] keeps the length of the list and returns every asset
    that is not of class [yield] as it is; the yield assets, in array
    order, are paired with the successive draws of the generator (an asset
    of another class uses none), and for a draw in [0, 1) and an amount
    that is not negative the new amount lies between the amount grown by
    2%/365 and by 5%/365, to within half of [10^-6]. *)
Theorem applyYield_band assets seed :
  length (applyYield assets seed) = length assets
  ∧ Forall2 (λ a a', liquidityClass a ≠ yield → a' = a)
            assets (applyYield assets seed)
  ∧ filter (λ a, liquidityClass a = yield) (applyYield assets seed)
    = zip_with yieldOne
        (filter (λ a, liquidityClass a = yield) assets)
        (draws (seededRNG seed)
               (length (filter (λ a, liquidityClass a = yield) assets)))
  ∧ (∀ a r,
       0 <= r → r < 1 → 0 <= amount a →
       amount a * (1 + (2 # 100) / 365) - (1 # 2000000) <= amount (yieldOne a r)
       ∧ amount (yieldOne a r) <= amount a * (1 + (5 # 100) / 365) + (1 # 2000000)
       ∧ 0 <= amount (yieldOne a r)).
Proof.
  unfold applyYield. generalize (seededRNG seed). intros g.
  split; [|split; [|split; [|apply yieldOne_band]]].
  - revert g. induction assets as [|a assets IH]; intros g; [done|].
    rewrite applyYieldFrom_cons. case_bool_decide; simpl; by rewrite IH.
  - revert g. induction assets as [|a assets IH]; intros g; [constructor|].
    rewrite applyYieldFrom_cons. case_bool_decide; constructor; auto; done.
  - revert g. induction assets as [|a assets IH]; intros g; [done|].
    rewrite applyYieldFrom_cons, (filter_cons _ a assets).
    case_bool_decide as Hc.
    + rewrite filter_cons_True by done.
      destruct (decide (liquidityClass a = yield)); [|done].
      cbn [length]. rewrite draws_S. simpl. by rewrite IH.
    + rewrite filter_cons_False by done.
      destruct (decide (liquidityClass a = yield)); [done|]. apply IH.
Qed.

Lemma applyYield_band_witness :
  amount scenarioStock * (1 + (2 # 100) / 365) - (1 # 2000000)
    <= amount (yieldOne scenarioStock (1 # 2))
  ∧ amount (yieldOne scenarioStock (1 # 2))
    <= amount scenarioStock * (1 + (5 # 100) / 365) + (1 # 2000000)
  ∧ 0 <= amount (yieldOne scenarioStock (1 # 2)).
Proof.
  apply (applyYield_band scenarioAssets 7); [discriminate | reflexivity | discriminate].
Defined.

End GeneratorLaws.

(* ===================================================================== *)
(** * Net asset value and liquidity                                        *)
(* ===================================================================== *)

Section LiquidityLaws.

Import CurrencyEngine AssetEngine Spec.
Local Open Scope Q_scope.

Implicit Types (tbl : ExchangeRates) (l : list Asset).

Lemma convert_nonneg tbl x from to y :
  positive_rates tbl → 0 <= x → convert tbl x from to = Normal y → 0 <= y.
Proof.
  intros Hpos Hx. destruct (decide (from = to)) as [->|Hne].
  - unfold convert. rewrite bool_decide_eq_true_2 by done.
    intros [= <-]. by apply toFixed_nonneg.
  - rewrite convert_unfold by done.
    assert (Hprod : ∀ r, 0 < r → 0 <= toFixed 6 (x * r))
      by (intros r Hr; apply toFixed_nonneg, Qmult_le_0_compat; lra).
    destruct (rates tbl !! pairKey from to) as [r|] eqn:Ed.
    { intros [= <-]. apply Hprod. eauto. }
    destruct (rates tbl !! pairKey to from) as [r|] eqn:Er.
    { rewrite positive_not_zero by eauto. intros [= <-]. apply Hprod.
      apply Qlt_shift_div_l; [eauto|lra]. }
    destruct (indirectVia tbl from to intermediaries) as [r|] eqn:Ei; [|done].
    destruct (indirectVia_Some _ _ _ _ _ Ei) as (X & r1 & r2 & _ & H1 & H2 & ->).
    assert (0 < r1 * r2) by (apply Hpos in H1, H2; by apply Qmult_lt_0_compat).
    rewrite positive_not_zero by done. intros [= <-]. by apply Hprod.
Qed.

Lemma initialRates_positive now : positive_rates (initialRates now).
Proof.
  intros pair r. unfold initialRates. simpl.
  rewrite !lookup_insert_Some, lookup_empty.
  intros [[_ <-]|[_ [[_ <-]|[_ [[_ <-]|[_ [[_ <-]|[_ [[_ <-]|[_ [[_ <-]|[_ ?]]]]]]]]]]]];
    done.
Qed.

(** A sum over some of the assets, started lower, ends lower than the sum
    over all of them; and it returns whenever that one does. *)
Lemma sumConverted_filter tbl base (P : Asset → Prop) `{!∀ a, Decision (P a)} l :
  positive_rates tbl → Forall (λ a, 0 <= amount a) l →
  ∀ t1 t2 s2,
    t1 <= t2 →
    sumConverted tbl base t2 l = Normal s2 →
    ∃ s1, sumConverted tbl base t1 (filter P l) = Normal s1 ∧ t1 <= s1 ∧ s1 <= s2.
Proof.
  intros Hpos. induction 1 as [|a l Ha Hl IH]; intros t1 t2 s2 Ht; simpl.
  { intros [= <-]. exists t1. split; [done|]. split; lra. }
  destruct (convert tbl (amount a) (currency a) base) as [c| |] eqn:Ec; simpl; [|done..].
  pose proof (convert_nonneg _ _ _ _ _ Hpos Ha Ec) as Hc.
  intros Hs. rewrite filter_cons. destruct (decide (P a)); simpl.
  - rewrite Ec. simpl.
    destruct (IH (t1 + c) (t2 + c) s2 ltac:(lra) Hs) as (s1 & -> & ? & ?).
    exists s1. split; [done|]. split; lra.
  - destruct (IH t1 (t2 + c) s2 ltac:(lra) Hs) as (s1 & -> & ? & ?). eauto.
Qed.

(** X5.  With positive rates and amounts that are not negative: whenever
    the net asset value can be computed, so can the liquid funds, which
    lie between 0 and it; the liquidity ratio is then returned, is at most
    1, is 0 for a total wealth of 0 and is not negative when the balance is
    not negative. *)
Theorem getLiquidityRatio_bounds tbl state nav :
  positive_rates tbl → Forall (λ a, 0 <= amount a) (assets state) →
  calculateNAV tbl (assets state) "USD" = Normal nav →
  ∃ liquidFunds ratio,
    getLiquidFunds tbl (assets state) "USD" = Normal liquidFunds
    ∧ 0 <= liquidFunds ∧ liquidFunds <= nav
    ∧ getLiquidityRatio tbl state = Normal ratio
    ∧ ratio <= 1
    ∧ (balance state + nav == 0 → ratio = 0)
    ∧ (0 <= balance state → 0 <= ratio).
Proof.
  intros Hpos Hnn Hnav. unfold calculateNAV in Hnav.
  destruct (sumConverted_filter tbl "USD" (λ a, isLiquidUnlocked a = true)
              (assets state) Hpos Hnn 0 0 nav ltac:(lra) Hnav) as (lf & Hlf & H0 & H1).
  exists lf. unfold getLiquidityRatio, calculateNAV, getLiquidFunds.
  rewrite Hnav, Hlf. simpl.
  destruct (Qeq_bool (balance state + nav) 0) eqn:E.
  - exists 0. repeat split; try done; try lra.
  - exists (Math_min (lf / (balance state + nav)) 1).
    assert (Hne : ¬ balance state + nav == 0)
      by (intros Hz%Qeq_bool_iff; congruence).
    repeat split; try done.
    + unfold Math_min. destruct (Qle_bool _ 1) eqn:Em; [by apply Qle_bool_iff|lra].
    + intros Hb. assert (Hw : 0 < balance state + nav) by lra.
      unfold Math_min. destruct (Qle_bool _ 1); [|lra].
      apply Qle_shift_div_l; lra.
Qed.

Lemma getLiquidityRatio_bounds_witness :
  ∃ liquidFunds ratio,
    getLiquidFunds (initialRates 0) scenarioAssets "USD" = Normal liquidFunds
    ∧ 0 <= liquidFunds ∧ liquidFunds <= toFixed 6 1000 + (0 + toFixed 6 400)
    ∧ getLiquidityRatio (initialRates 0)
        (mkWalletState 0 100 scenarioAssets [] 700 0 []) = Normal ratio
    ∧ ratio <= 1.
Proof.
  destruct (getLiquidityRatio_bounds (initialRates 0)
              (mkWalletState 0 100 scenarioAssets [] 700 0 [])
              (0 + toFixed 6 400 + toFixed 6 1000))
    as (lf & ratio & H1 & H2 & H3 & H4 & H5 & _).
  - apply initialRates_positive.
  - repeat constructor; discriminate.
  - vm_compute. reflexivity.
  - exists lf, ratio. repeat split; done.
Defined.

End LiquidityLaws.

(* ===================================================================== *)
(** * What a liquidation changes                                           *)
(* ===================================================================== *)

Section LiquidationLaws.

Import CurrencyEngine AssetEngine Spec.
Local Open Scope Q_scope.

(** As [waterfall_invariant], for a property kept by the sales made
    against a positive remaining deficit, which are the only ones made. *)
Lemma waterfall_invariant_positive (P : Asset → Asset → Prop) tbl :
  (∀ a, P a a) →
  (∀ a b d : Asset, P a b → P b d → P a d) →
  (∀ rem a rem' a',
     Qle_bool rem 0 = false → sale tbl rem a = Normal (rem', a') → P a a') →
  ∀ order rem s res s',
    waterfall tbl order rem s = (res, s') →
    length s' = length s ∧
    ∀ i a, s !! i = Some a → ∃ a', s' !! i = Some a' ∧ P a a'.
Proof.
  intros Hrefl Htrans Hsale.
  assert (Hid : ∀ s : list Asset,
             length s = length s ∧
             ∀ i a, s !! i = Some a → ∃ a', s !! i = Some a' ∧ P a a')
    by (intros; split; eauto).
  induction order as [|i order IH]; intros rem s res s'; simpl.
  { intros [= <- <-]. apply Hid. }
  destruct (Qle_bool rem 0) eqn:Erem. { intros [= <- <-]. apply Hid. }
  destruct (s !! i) as [a|] eqn:Ei; [|apply IH].
  destruct (sale tbl rem a) as [[rem' a']| |] eqn:Es;
    [|intros [= <- <-]; apply Hid..].
  intros [Hlen Hpos]%IH. rewrite length_insert in Hlen. split; [done|].
  intros j b Hj. destruct (decide (i = j)) as [<-|Hne].
  - destruct (Hpos i a') as (a'' & ? & ?).
    { apply list_lookup_insert_eq. by eapply lookup_lt_Some. }
    exists a''. split; [done|]. simplify_eq. eauto.
  - apply Hpos. by rewrite list_lookup_insert_ne.
Qed.

Lemma sale_only_amount tbl rem a rem' a' :
  Qle_bool rem 0 = false →
  sale tbl rem a = Normal (rem', a') →
  a' = with_amount a (amount a')
  ∧ (0 <= amount a → 0 <= amount a' ∧ amount a' <= amount a).
Proof.
  intros Hrem%Qle_bool_false Hs. pose proof (sale_nonneg _ _ _ _ _ Hs) as Hnn.
  apply sale_keeps in Hs as Hk. destruct Hk as (_ & _ & Hamount).
  revert Hs. unfold sale.
  destruct (convert tbl (Math_min (amount a) rem) (currency a) "USD"); simpl; [|done..].
  intros [= <- <-]. split; [done|]. intros Ha. split; [by apply Hnn|].
  simpl. unfold Math_min. destruct (Qle_bool (amount a) rem); lra.
Qed.

(** X6.  A liquidation that returns changes nothing of an asset but its
    amount: every returned asset is the JSON copy of the input asset at
    its position with another amount, which for an input amount that is
    not negative lies between 0 and that amount; and for a deficit that is
    not positive the copies are returned untouched with a remaining
    deficit of 0. *)
Theorem liquidateForDeficit_only_sells tbl assets deficit h r h' :
  liquidateForDeficit tbl assets deficit h = (Normal r, h') →
  Forall2 (λ a a',
             a' = with_amount (jsonClone a) (amount a')
             ∧ (0 <= amount a → 0 <= amount a' ∧ amount a' <= amount a))
          (deref h assets) (deref h' (liquidatedAssets r))
  ∧ (deficit <= 0 →
     deref h' (liquidatedAssets r) = jsonClone <$> deref h assets
     ∧ remainingDeficit r == 0).
Proof.
  rewrite liquidation_is_waterfall. unfold liquidationBy.
  set (copies := jsonClone <$> deref h assets).
  destruct (waterfall tbl (sellingOrder copies) deficit copies)
    as [[rem| |] sold] eqn:Ew; intros [= <- <-]. simpl.
  destruct (waterfall_invariant_positive
              (λ a a', a' = with_amount a (amount a')
                       ∧ (0 <= amount a → 0 <= amount a' ∧ amount a' <= amount a))
              tbl) with (order := sellingOrder copies) (rem := deficit) (s := copies)
                        (res := @Normal Q rem) (s' := sold)
    as [Hlen Hpos].
  { intros []. split; [done|]. intros; split; [done|lra]. }
  { intros a b d [Eb Hab] [Ed Hbd]. split.
    - rewrite Ed at 1. by rewrite Eb.
    - intros Ha. destruct (Hab Ha) as [Hb0 Hb1]. destruct (Hbd Hb0) as [Hd0 Hd1].
      split; [done|lra]. }
  { intros. by eapply sale_only_amount. }
  { done. }
  rewrite <- Hlen, deref_fresh. split.
  - unfold copies in *.
    apply Forall2_same_length_lookup_2.
    { by rewrite Hlen, length_fmap. }
    intros i a a' Ha Ha'.
    destruct (Hpos i (jsonClone a)) as (a'' & ? & Hp); [by rewrite list_lookup_fmap, Ha|].
    simplify_eq. exact Hp.
  - intros Hd. rewrite waterfall_stop in Ew by (by apply Qle_bool_iff).
    injection Ew as <- <-. split; [done|].
    unfold Math_max. destruct (Qle_bool 0 deficit) eqn:E; [|done].
    apply Qle_bool_iff in E. lra.
Qed.

Lemma liquidateForDeficit_only_sells_witness :
  let run := liquidateForDeficit (initialRates 0) [0; 1]%nat 0 scenarioAssets in
  deref run.2 [2; 3]%nat = jsonClone <$> deref scenarioAssets [0; 1]%nat.
Proof.
  intros run.
  edestruct (liquidateForDeficit_only_sells (initialRates 0) [0; 1]%nat 0 scenarioAssets)
    as [_ Hnoop].
  { subst run. vm_compute. reflexivity. }
  apply Hnoop. discriminate.
Defined.

End LiquidationLaws.

(* ===================================================================== *)
(** * Collapse and drawdown                                                *)
(* ===================================================================== *)

Section CollapseLaws.

Import Arrays RiskEngine Spec.
Local Open Scope Q_scope.

Implicit Types (t : list WalletState) (ts : list (list WalletState)) (s : Scan).

Lemma scanFrom_collapsed t : ∀ k s,
  hasCollapsed s = true →
  timings (scanFrom k t s) = timings s ∧ hasCollapsed (scanFrom k t s) = true.
Proof.
  induction t as [|st t IH]; intros k s Hc; simpl; [done|].
  assert (Hd : timings (scanDay s st k) = timings s
               ∧ hasCollapsed (scanDay s st k) = true).
  { destruct s as [hc cd ra tm]. simpl in Hc. subst hc.
    unfold scanDay. simpl. rewrite andb_false_r. simpl.
    by destruct ((-1 <? cd)%Z && Qltb 0 (balance st)). }
  destruct Hd as [Ht Hc']. destruct (IH (k + 1)%Z _ Hc') as [-> ->]. done.
Qed.

Lemma scanFrom_fresh t : ∀ k s,
  hasCollapsed s = false →
  (Exists (λ st, Qltb (balance st) 0 = true) t →
   length (timings (scanFrom k t s)) = S (length (timings s)))
  ∧ (¬ Exists (λ st, Qltb (balance st) 0 = true) t → scanFrom k t s = s).
Proof.
  induction t as [|st t IH]; intros k s Hc; simpl.
  { split; [by intros ?%Exists_nil|done]. }
  unfold scanDay at 1 2. rewrite Hc. simpl.
  destruct (Qltb (balance st) 0) eqn:En; simpl.
  - assert (Hpos : Qltb 0 (balance st) = false).
    { unfold Qltb in *. apply negb_true_iff, Qle_bool_false in En.
      apply negb_false_iff, Qle_bool_iff. lra. }
    rewrite Hpos, andb_false_r.
    split; [|intros Hn; exfalso; apply Hn; by constructor].
    intros _.
    destruct (scanFrom_collapsed t (k + 1)%Z
                (mkScan true k (recoveredAfter s) (timings s ++ [k])) eq_refl) as [-> _].
    simpl. rewrite length_app. simpl. lia.
  - rewrite Hc. simpl. destruct (IH (k + 1)%Z s Hc) as [H1 H2]. split.
    + intros [He|He]%Exists_cons; [congruence|by apply H1].
    + intros Hn. apply H2. intros He. apply Hn. by right.
Qed.

(** One trajectory adds one timing exactly when it has a negative day, and
    one recovery at most, and none without a timing. *)
Lemma scanTrajectory_counts acc t :
  let acc' := scanTrajectory acc t in
  (Exists (λ st, Qltb (balance st) 0 = true) t →
   length acc'.1 = S (length acc.1) ∧ (acc.2 <= acc'.2 <= acc.2 + 1)%Z)
  ∧ (¬ Exists (λ st, Qltb (balance st) 0 = true) t → acc' = acc).
Proof.
  unfold scanTrajectory. cbv zeta.
  set (s0 := mkScan false (-1) false acc.1).
  destruct (scanFrom_fresh t 0 s0 eq_refl) as [H1 H2]. split.
  - intros He. simpl. split; [by apply H1|].
    destruct (recoveredAfter (scanFrom 0 t s0)); lia.
  - intros Hn. rewrite (H2 Hn). simpl. by destruct acc.
Qed.

Lemma scan_counts ts : ∀ acc,
  let acc' := foldl scanTrajectory acc ts in
  length acc'.1
  = (length acc.1
     + length (filter (λ t, Exists (λ st, Qltb (balance st) 0 = true) t) ts))%nat
  ∧ (acc.2 <= acc'.2
     <= acc.2 + Z.of_nat (length (filter (λ t, Exists (λ st, Qltb (balance st) 0 = true) t) ts)))%Z.
Proof.
  induction ts as [|t ts IH]; intros acc; simpl; [lia|].
  destruct (scanTrajectory_counts acc t) as [H1 H2].
  destruct (IH (scanTrajectory acc t)) as [IH1 IH2].
  rewrite filter_cons.
  destruct (decide (Exists (λ st, Qltb (balance st) 0 = true) t)) as [He|Hn].
  - destruct (H1 He) as [Hl Hc]. simpl. rewrite IH1, Hl. split; lia.
  - rewrite (H2 Hn) in *. done.
Qed.

(** ** The running peak and trough *)

Lemma drawdownDay_keeps e st :
  trough e <= peak e → 0 <= worstDrawdown e →
  let e' := drawdownDay e st in
  trough e' <= peak e' ∧ 0 <= worstDrawdown e'
  ∧ (0 <= trough e → 0 <= balance st → worstDrawdown e <= 1 →
     0 <= trough e' ∧ worstDrawdown e' <= 1).
Proof.
  intros Htp Hw. unfold drawdownDay. cbv zeta. cbn [peak trough worstDrawdown].
  set (p := if Qltb (peak e) (balance st) then balance st else peak e).
  set (q := if Qltb (balance st) (trough e) then balance st else trough e).
  assert (Hp : peak e <= p ∧ balance st <= p).
  { unfold p, Qltb. destruct (Qle_bool (balance st) (peak e)) eqn:E; simpl.
    - apply Qle_bool_iff in E. split; lra.
    - apply Qle_bool_false in E. split; lra. }
  assert (Hq : q <= trough e ∧ q <= balance st
               ∧ (0 <= trough e → 0 <= balance st → 0 <= q)).
  { unfold q, Qltb. destruct (Qle_bool (trough e) (balance st)) eqn:E; simpl.
    - apply Qle_bool_iff in E. repeat split; try lra; auto.
    - apply Qle_bool_false in E. repeat split; try lra; auto. }
  destruct Hp as [Hp1 Hp2], Hq as (Hq1 & Hq2 & Hq3).
  set (dd := if Qltb 0 p then (p - q) / p else 0).
  assert (Hdd : 0 <= dd ∧ (0 <= q → dd <= 1)).
  { unfold dd, Qltb. destruct (Qle_bool p 0) eqn:E; simpl; [split; [lra|intros; lra]|].
    apply Qle_bool_false in E. split.
    - apply Qle_shift_div_l; lra.
    - intros Hq0. apply Qle_shift_div_r; lra. }
  destruct Hdd as [Hdd0 Hdd1].
  split; [lra|]. split.
  - unfold Qltb. destruct (Qle_bool dd (worstDrawdown e)); simpl; lra.
  - intros Ht Hb Hw1. split; [auto|].
    unfold Qltb. destruct (Qle_bool dd (worstDrawdown e)); simpl; [lra|auto].
Qed.

Lemma drawdownFold_keeps t : ∀ e,
  trough e <= peak e → 0 <= worstDrawdown e →
  let e' := foldl drawdownDay e t in
  trough e' <= peak e' ∧ 0 <= worstDrawdown e'
  ∧ (0 <= trough e → Forall (λ st, 0 <= balance st) t → worstDrawdown e <= 1 →
     0 <= trough e' ∧ worstDrawdown e' <= 1).
Proof.
  induction t as [|st t IH]; intros e Htp Hw; simpl; [by auto|].
  destruct (drawdownDay_keeps e st Htp Hw) as (H1 & H2 & H3).
  destruct (IH (drawdownDay e st) H1 H2) as (I1 & I2 & I3).
  split; [done|]. split; [done|].
  intros Ht [Hb Hall]%Forall_cons Hw1.
  destruct (H3 Ht Hb Hw1) as [? ?]. by apply I3.
Qed.

Lemma drawdownAll_bounds ts : ∀ worst,
  Forall (λ t, t ≠ []) ts → 0 <= worst →
  ∃ worst',
    drawdownAll worst ts = Normal worst' ∧ 0 <= worst'
    ∧ (Forall (Forall (λ st, 0 <= balance st)) ts → worst <= 1 → worst' <= 1).
Proof.
  induction ts as [|t ts IH]; intros worst Hne Hw; simpl.
  { exists worst. auto. }
  apply Forall_cons in Hne as [Ht Hne].
  unfold drawdownTrajectory. destruct t as [|st t]; [done|]. simpl.
  destruct (drawdownFold_keeps (st :: t) (mkExtremes (balance st) (balance st) worst)
              ltac:(simpl; lra) Hw) as (_ & H2 & H3).
  simpl in H2, H3.
  destruct (IH _ Hne H2) as (w' & -> & Hw' & Hb).
  exists w'. split; [done|]. split; [done|].
  intros [Hall Hrest]%Forall_cons Hw1. apply Hb; [done|].
  apply H3; [|done..]. by apply Forall_cons in Hall as [? _].
Qed.

Lemma toFixed_within d lo hi v :
  toFixed d lo == lo → toFixed d hi == hi → lo <= v → v <= hi →
  lo <= toFixed d v ∧ toFixed d v <= hi.
Proof.
  intros Elo Ehi H1 H2.
  pose proof (toFixed_mono d lo v H1). pose proof (toFixed_mono d v hi H2).
  split; lra.
Qed.

(** X7.  On trajectories that all have a day the maximum drawdown is
    returned and is not negative; it is at most 100 when no balance is
    negative.  It takes the highest and the lowest balance whatever their
    order: a balance that only rises from [b0] to [b1] reports
    [(b1 - b0) / b1], and one that falls from a positive [b0] below zero
    reports more than 100. *)
Theorem calculateMaxDrawdown_bounds :
  (∀ ts,
     Forall (λ t, t ≠ []) ts →
     ∃ dd, calculateMaxDrawdown ts = Normal dd ∧ 0 <= dd
           ∧ (Forall (Forall (λ st, 0 <= balance st)) ts → dd <= 100))
  ∧ (∀ b0 b1,
       0 < b0 → b0 < b1 →
       calculateMaxDrawdown [[dayWith b0; dayWith b1]]
         = Normal (toFixed 2 ((b1 - b0) / b1 * 100))
       ∧ 0 < (b1 - b0) / b1 * 100)
  ∧ (∀ b0 b1,
       0 < b0 → b1 < 0 →
       calculateMaxDrawdown [[dayWith b0; dayWith b1]]
         = Normal (toFixed 2 ((b0 - b1) / b0 * 100))
       ∧ 100 < (b0 - b1) / b0 * 100).
Proof.
  split; [|split].
  - intros ts Hne. unfold calculateMaxDrawdown.
    destruct (drawdownAll_bounds ts 0 Hne ltac:(lra)) as (w & -> & Hw0 & Hw1).
    simpl. eexists. split; [done|].
    split.
    + apply toFixed_nonneg. lra.
    + intros Hall. specialize (Hw1 Hall ltac:(lra)).
      apply (toFixed_within 2 0 100); [reflexivity|reflexivity|lra|lra].
  - intros b0 b1 H0 H1.
    assert (Hdd : 0 < (b1 - b0) / b1) by (apply Qlt_shift_div_l; lra).
    split; [|lra].
    unfold calculateMaxDrawdown, drawdownAll, drawdownTrajectory. simpl.
    unfold drawdownDay. simpl. unfold Qltb.
    rewrite (proj2 (Qle_bool_iff b0 b0)) by lra. simpl.
    rewrite (proj2 (Qle_bool_false b0 0)) by lra. simpl.
    rewrite (proj2 (Qle_bool_iff ((b0 - b0) / b0) 0))
      by (apply Qle_shift_div_r; lra). simpl.
    rewrite (proj2 (Qle_bool_false b1 b0)) by lra. simpl.
    rewrite (proj2 (Qle_bool_iff b0 b1)) by lra. simpl.
    rewrite (proj2 (Qle_bool_false b1 0)) by lra. simpl.
    rewrite (proj2 (Qle_bool_false ((b1 - b0) / b1) 0)) by lra. done.
  - intros b0 b1 H0 H1.
    assert (Hdd : 1 < (b0 - b1) / b0) by (apply Qlt_shift_div_l; lra).
    split; [|lra].
    unfold calculateMaxDrawdown, drawdownAll, drawdownTrajectory. simpl.
    unfold drawdownDay. simpl. unfold Qltb.
    rewrite (proj2 (Qle_bool_iff b0 b0)) by lra. simpl.
    rewrite (proj2 (Qle_bool_false b0 0)) by lra. simpl.
    rewrite (proj2 (Qle_bool_iff ((b0 - b0) / b0) 0))
      by (apply Qle_shift_div_r; lra). simpl.
    rewrite (proj2 (Qle_bool_iff b1 b0)) by lra. simpl.
    rewrite (proj2 (Qle_bool_false b0 b1)) by lra. simpl.
    rewrite (proj2 (Qle_bool_false b0 0)) by lra. simpl.
    rewrite (proj2 (Qle_bool_false ((b0 - b1) / b0) 0)) by lra. done.
Qed.

Lemma calculateMaxDrawdown_bounds_witness :
  calculateMaxDrawdown [[dayWith 10; dayWith 100]]
    = Normal (toFixed 2 ((100 - 10) / 100 * 100))
  ∧ 0 < (100 - 10) / 100 * 100.
Proof.
  apply (proj1 (proj2 calculateMaxDrawdown_bounds) 10 100); reflexivity.
Defined.

End CollapseLaws.

Section CollapseMetrics.

Import Arrays RiskEngine Spec.
Local Open Scope Q_scope.

Implicit Types (t : list WalletState) (ts : list (list WalletState)).

Lemma lengthQ_pos {A} (l : list A) : l ≠ [] → 0 < lengthQ l.
Proof.
  intros Hne. unfold lengthQ. change 0 with (inject_Z 0). rewrite <- Zlt_Qlt.
  destruct l; [done|simpl; lia].
Qed.

Lemma lengthQ_le {A B} (l : list A) (k : list B) :
  (length l ≤ length k)%nat → lengthQ l <= lengthQ k.
Proof. intros H. unfold lengthQ. rewrite <- Zle_Qle. lia. Qed.

Lemma div_Fin a b : 0 < b → div a b = Fin (a / b).
Proof.
  intros Hb. unfold div. destruct (Qeq_bool b 0) eqn:E; [|done].
  apply Qeq_bool_iff in E. lra.
Qed.

Lemma ratio_unit a b : 0 <= a → a <= b → 0 < b → 0 <= a / b ∧ a / b <= 1.
Proof.
  intros. split; [apply Qle_shift_div_l; lra|apply Qle_shift_div_r; lra].
Qed.

Lemma filter_none {A} (P : A → Prop) `{!∀ x, Decision (P x)} (l : list A) :
  Forall (λ x, ¬ P x) l → filter P l = [].
Proof.
  induction 1 as [|x l Hx _ IH]; [done|]. by rewrite filter_cons_False.
Qed.

Lemma Math_round_nonneg x : 0 <= x → (0 <= Math_round x)%Z.
Proof.
  intros Hx. unfold Math_round. change 0%Z with (Qfloor 0).
  apply Qfloor_resp_le. lra.
Qed.

(** X8.  On a non-empty ensemble whose trajectories all have a day,
    [calculateCollapseProbability] returns; it records one timing for each
    trajectory that has a day of negative balance; the collapse
    probability and the recovery rate lie in [0, 1] and the average
    collapse day is not negative; and when no balance is negative the
    probability is 0, the recovery rate 1 and the average day 0. *)
Theorem calculateCollapseProbability_counts ts :
  ts ≠ [] → Forall (λ t, t ≠ []) ts →
  ∃ m p,
    calculateCollapseProbability ts = Normal m
    ∧ length (collapseTimings m)
      = length (filter (λ t, Exists (λ st, Qltb (balance st) 0 = true) t) ts)
    ∧ collapseProbability m = Fin p ∧ 0 <= p ∧ p <= 1
    ∧ 0 <= recoveryRate m ∧ recoveryRate m <= 1
    ∧ (0 <= averageCollapsDay m)%Z
    ∧ (Forall (Forall (λ st, 0 <= balance st)) ts →
       p == 0 ∧ recoveryRate m == 1 ∧ collapseTimings m = []
       ∧ averageCollapsDay m = 0%Z).
Proof.
  intros Hne Hdays. unfold calculateCollapseProbability.
  pose proof (scan_counts ts ([], 0%Z)) as Hc. cbv zeta in Hc.
  destruct (foldl scanTrajectory ([], 0%Z) ts) as [tim cnt]. simpl in Hc.
  set (P := λ t, Exists (λ st, Qltb (balance st) 0 = true) t) in *.
  destruct Hc as [Hlen Hcnt].
  pose proof (length_filter P ts) as Hk.
  unfold calculateMaxDrawdown.
  destruct (drawdownAll_bounds ts 0 Hdays ltac:(lra)) as (w & -> & _ & _). simpl.
  pose proof (lengthQ_pos ts Hne) as Hn.
  rewrite (div_Fin _ _ Hn). simpl.
  eexists _, _. split; [reflexivity|]. simpl.
  assert (Htim : 0 <= lengthQ tim ∧ lengthQ tim <= lengthQ ts).
  { split; [|apply lengthQ_le; lia].
    unfold lengthQ. change 0 with (inject_Z 0). rewrite <- Zle_Qle. lia. }
  destruct (ratio_unit (lengthQ tim) (lengthQ ts)) as [Hp0 Hp1]; [lra..|].
  split; [done|]. split; [done|].
  split; [apply toFixed_nonneg; lra|].
  split; [by apply (toFixed_within 4 0 1)|].
  assert (Hrate : 0 <= (if (0 <? Z.of_nat (length tim))%Z
                        then inject_Z cnt / lengthQ tim else 1)
                  ∧ (if (0 <? Z.of_nat (length tim))%Z
                     then inject_Z cnt / lengthQ tim else 1) <= 1).
  { destruct (0 <? Z.of_nat (length tim))%Z eqn:E; [|split; lra].
    apply Z.ltb_lt in E. apply ratio_unit.
    - change 0 with (inject_Z 0). rewrite <- Zle_Qle. lia.
    - unfold lengthQ. rewrite <- Zle_Qle. lia.
    - apply lengthQ_pos. by destruct tim. }
  destruct Hrate as [Hr0 Hr1].
  split; [apply toFixed_nonneg; lra|].
  split; [by apply (toFixed_within 4 0 1)|].
  split.
  { destruct (Qltb 0 _) eqn:E; [|done].
    apply Math_round_nonneg. unfold Qltb in E.
    apply negb_true_iff, Qle_bool_false in E. lra. }
  intros Hall.
  assert (Hnone : filter P ts = []).
  { apply filter_none. eapply Forall_impl; [exact Hall|].
    intros t Ht He. apply Exists_exists in He as (st & Hin & Hneg).
    apply (proj1 (Forall_forall _ _) Ht) in Hin.
    unfold Qltb in Hneg. apply negb_true_iff, Qle_bool_false in Hneg. lra. }
  rewrite Hnone in Hlen. simpl in Hlen. destruct tim; [|done]. simpl.
  split; [|split; [reflexivity|done]].
  assert (E : 0 / lengthQ ts == 0) by (field; lra).
  destruct (toFixed_within 4 0 0 (lengthQ (@nil Z) / lengthQ ts)) as [? ?];
    [reflexivity|reflexivity| | |].
  - change (lengthQ (@nil Z)) with 0. lra.
  - change (lengthQ (@nil Z)) with 0. lra.
  - lra.
Qed.

Lemma calculateCollapseProbability_counts_witness :
  ∃ m p,
    calculateCollapseProbability twoRuns = Normal m
    ∧ collapseProbability m = Fin p ∧ 0 <= p ∧ p <= 1.
Proof.
  destruct (calculateCollapseProbability_counts twoRuns)
    as (m & p & H1 & _ & H3 & H4 & H5 & _).
  - discriminate.
  - repeat constructor; discriminate.
  - exists m, p. done.
Defined.

End CollapseMetrics.

(* ===================================================================== *)
(** * Recovery                                                             *)
(* ===================================================================== *)

Section RecoveryLaws.

Import Arrays RiskEngine Spec.
Local Open Scope Q_scope.

Implicit Types (t pre mid post rest : list WalletState) (st : WalletState).

Lemma Qltb_true a b : Qltb a b = true ↔ a < b.
Proof. unfold Qltb. rewrite negb_true_iff. apply Qle_bool_false. Qed.

Lemma Qltb_false a b : Qltb a b = false ↔ b <= a.
Proof. unfold Qltb. rewrite negb_false_iff. apply Qle_bool_iff. Qed.

Lemma slopeFrom_done t : ∀ k c r,
  (-1 < c)%Z → r ≠ (-1)%Z → slopeFrom k t (c, r) = (c, r).
Proof.
  induction t as [|st t IH]; intros k c r Hc Hr; simpl; [done|].
  unfold slopeDay. simpl.
  rewrite (proj2 (Z.eqb_neq c (-1))) by lia. simpl.
  rewrite (proj2 (Z.eqb_neq r (-1))) by done. rewrite andb_false_r. simpl.
  by apply IH.
Qed.

Lemma slopeFrom_negative rest : ∀ k c,
  (-1 < c)%Z → Forall (λ st, balance st < 0) rest →
  slopeFrom k rest (c, (-1)%Z) = (c, (-1)%Z).
Proof.
  induction rest as [|st rest IH]; intros k c Hc Hall; simpl; [done|].
  apply Forall_cons in Hall as [Hst Hall].
  unfold slopeDay. simpl.
  rewrite (proj2 (Z.eqb_neq c (-1))) by lia. simpl.
  rewrite (proj2 (Qle_bool_false 0 (balance st))) by done.
  rewrite andb_false_r. by apply IH.
Qed.

Lemma slopeFrom_recovers mid : ∀ k c sr post,
  (0 <= k)%Z → (-1 < c)%Z →
  Forall (λ st, balance st < 0) mid → 0 <= balance sr →
  slopeFrom k (mid ++ sr :: post) (c, (-1)%Z) = (c, (k + Z.of_nat (length mid))%Z).
Proof.
  induction mid as [|st mid IH]; intros k c sr post Hk Hc Hall Hsr; simpl.
  - unfold slopeDay. simpl.
    rewrite (proj2 (Z.eqb_neq c (-1))) by lia. simpl.
    rewrite (proj2 (Z.ltb_lt (-1) c)) by done.
    rewrite (proj2 (Qle_bool_iff 0 (balance sr))) by done. simpl.
    rewrite slopeFrom_done by lia. f_equal. lia.
  - apply Forall_cons in Hall as [Hst Hall].
    unfold slopeDay. simpl.
    rewrite (proj2 (Z.eqb_neq c (-1))) by lia. simpl.
    rewrite (proj2 (Qle_bool_false 0 (balance st))) by done.
    rewrite andb_false_r. rewrite IH by (done || lia). f_equal. lia.
Qed.

Lemma slopeFrom_before pre : ∀ k rest,
  Forall (λ st, 0 <= balance st) pre →
  slopeFrom k (pre ++ rest) (-1, -1)%Z
  = slopeFrom (k + Z.of_nat (length pre)) rest (-1, -1)%Z.
Proof.
  induction pre as [|st pre IH]; intros k rest Hall; simpl.
  { f_equal. lia. }
  apply Forall_cons in Hall as [Hst Hall].
  unfold slopeDay. simpl.
  rewrite (proj2 (Qltb_false (balance st) 0)) by done. simpl.
  rewrite IH by done. f_equal. lia.
Qed.

Lemma slopeFrom_collapse k sc rest :
  (0 <= k)%Z → balance sc < 0 →
  slopeFrom k (sc :: rest) (-1, -1)%Z = slopeFrom (k + 1) rest (k, (-1)%Z).
Proof.
  intros Hk Hsc. simpl. unfold slopeDay. simpl.
  rewrite (proj2 (Qltb_true (balance sc) 0)) by done. simpl.
  rewrite (proj2 (Qle_bool_false 0 (balance sc))) by done.
  by rewrite andb_false_r.
Qed.

Lemma slope_recovered pre sc mid sr post :
  Forall (λ st, 0 <= balance st) pre → balance sc < 0 →
  Forall (λ st, balance st < 0) mid → 0 <= balance sr →
  calculateRecoverySlope (pre ++ sc :: mid ++ sr :: post)
  = (Z.of_nat (length mid) + 1)%Z.
Proof.
  intros Hpre Hsc Hmid Hsr. unfold calculateRecoverySlope.
  rewrite slopeFrom_before, slopeFrom_collapse, slopeFrom_recovers by (done || lia).
  rewrite (proj2 (Z.eqb_neq _ (-1))) by lia.
  rewrite (proj2 (Z.eqb_neq _ (-1))) by lia. simpl. lia.
Qed.

Lemma slope_unrecovered pre rest :
  Forall (λ st, 0 <= balance st) pre → Forall (λ st, balance st < 0) rest →
  calculateRecoverySlope (pre ++ rest) = (-1)%Z.
Proof.
  intros Hpre Hrest. unfold calculateRecoverySlope.
  rewrite slopeFrom_before by done.
  destruct rest as [|sc rest]; [done|].
  apply Forall_cons in Hrest as [Hsc Hrest].
  rewrite slopeFrom_collapse, slopeFrom_negative by (done || lia).
  rewrite (proj2 (Z.eqb_neq _ (-1))) by lia. done.
Qed.

(** Every trajectory either stays negative from its first negative day
    on, or has a first negative day followed by a first day that is not. *)
Lemma trajectory_shape t :
  (∃ pre rest,
     t = pre ++ rest ∧ Forall (λ st, 0 <= balance st) pre
     ∧ Forall (λ st, balance st < 0) rest)
  ∨ (∃ pre sc mid sr post,
       t = pre ++ sc :: mid ++ sr :: post
       ∧ Forall (λ st, 0 <= balance st) pre ∧ balance sc < 0
       ∧ Forall (λ st, balance st < 0) mid ∧ 0 <= balance sr).
Proof.
  induction t as [|st t IH]; [left; by exists [], []|].
  destruct (Qlt_le_dec (balance st) 0) as [Hneg|Hpos].
  - destruct IH as [(pre & rest & -> & Hpre & Hrest)
                   |(pre & sc & mid & sr & post & -> & Hpre & Hsc & Hmid & Hsr)].
    + destruct pre as [|p pre].
      * left. exists [], (st :: rest). by repeat split; try constructor.
      * apply Forall_cons in Hpre as [Hp Hpre].
        right. exists [], st, [], p, (pre ++ rest). by repeat split.
    + destruct pre as [|p pre].
      * right. exists [], st, (sc :: mid), sr, post.
        repeat split; try done. by constructor.
      * apply Forall_cons in Hpre as [Hp Hpre].
        right. exists [], st, [], p, (pre ++ sc :: mid ++ sr :: post).
        by repeat split.
  - destruct IH as [(pre & rest & -> & Hpre & Hrest)
                   |(pre & sc & mid & sr & post & -> & Hpre & Hsc & Hmid & Hsr)].
    + left. exists (st :: pre), rest. repeat split; try done. by constructor.
    + right. exists (st :: pre), sc, mid, sr, post.
      repeat split; try done. by constructor.
Qed.

Lemma slope_sign t :
  calculateRecoverySlope t = (-1)%Z ∨ (1 <= calculateRecoverySlope t)%Z.
Proof.
  destruct (trajectory_shape t)
    as [(pre & rest & -> & Hpre & Hrest)
       |(pre & sc & mid & sr & post & -> & Hpre & Hsc & Hmid & Hsr)].
  - left. by apply slope_unrecovered.
  - right. rewrite slope_recovered by done. lia.
Qed.

(** X9.  The recovery slope counts the days from the first day of negative
    balance to the first later day whose balance is not negative; it is -1
    when no day is negative or none after the first negative one recovers,
    and it is never 0. *)
Theorem calculateRecoverySlope_cases :
  (∀ pre sc mid sr post,
     Forall (λ st, 0 <= balance st) pre → balance sc < 0 →
     Forall (λ st, balance st < 0) mid → 0 <= balance sr →
     calculateRecoverySlope (pre ++ sc :: mid ++ sr :: post)
     = (Z.of_nat (length mid) + 1)%Z)
  ∧ (∀ pre rest,
       Forall (λ st, 0 <= balance st) pre → Forall (λ st, balance st < 0) rest →
       calculateRecoverySlope (pre ++ rest) = (-1)%Z)
  ∧ (∀ t, calculateRecoverySlope t = (-1)%Z ∨ (1 <= calculateRecoverySlope t)%Z).
Proof.
  split; [exact slope_recovered|]. split; [exact slope_unrecovered|].
  exact slope_sign.
Qed.

Lemma calculateRecoverySlope_cases_witness :
  calculateRecoverySlope
    ([dayWith 5] ++ dayWith (-3) :: [dayWith (-1)] ++ dayWith 0 :: [dayWith 7])
  = (Z.of_nat (length [dayWith (-1)]) + 1)%Z.
Proof.
  apply (proj1 calculateRecoverySlope_cases).
  - repeat constructor; discriminate.
  - reflexivity.
  - repeat constructor.
  - discriminate.
Defined.

Lemma sum_at_least (l : list Z) : ∀ acc,
  Forall (λ s, 1 <= s)%Z l → (acc + Z.of_nat (length l) <= foldl Z.add acc l)%Z.
Proof.
  induction l as [|s l IH]; intros acc Hall; simpl; [lia|].
  apply Forall_cons in Hall as [Hs Hall]. specialize (IH (acc + s)%Z Hall). lia.
Qed.

(** X10.  The average recovery slope is 0 exactly when no trajectory
    recovers from a collapse, and at least 1 otherwise. *)
Theorem calculateAverageRecoverySlope_zero (ts : list (list WalletState)) :
  (calculateAverageRecoverySlope ts = 0%Z
   ↔ Forall (λ t, calculateRecoverySlope t = (-1)%Z) ts)
  ∧ (calculateAverageRecoverySlope ts = 0%Z
     ∨ (1 <= calculateAverageRecoverySlope ts)%Z).
Proof.
  unfold calculateAverageRecoverySlope.
  set (slopes := filter (λ s, (0 < s)%Z) (calculateRecoverySlope <$> ts)).
  assert (Hall : Forall (λ s, 1 <= s)%Z slopes).
  { apply Forall_forall. intros s [Hs _]%list_elem_of_filter. lia. }
  assert (Hnil : slopes = [] ↔ Forall (λ t, calculateRecoverySlope t = (-1)%Z) ts).
  { unfold slopes. clear. induction ts as [|t ts IH]; [done|].
    rewrite fmap_cons, filter_cons, Forall_cons.
    destruct (slope_sign t) as [E|E].
    - destruct (decide (0 < calculateRecoverySlope t)%Z); [lia|].
      rewrite IH. tauto.
    - destruct (decide (0 < calculateRecoverySlope t)%Z); [|lia].
      split; [done|]. intros [? _]. lia. }
  clearbody slopes. destruct slopes as [|s rest].
  - simpl. split; [|by left]. split; [intros _; by apply Hnil|done].
  - assert (Hround : (1 <= Math_round (inject_Z (foldl Z.add 0%Z (s :: rest))
                                       / lengthQ (s :: rest)))%Z).
    { pose proof (sum_at_least (s :: rest) 0%Z Hall) as Hsum.
      unfold Math_round. apply (Z.le_trans _ (Qfloor 1)); [done|].
      apply Qfloor_resp_le.
      assert (Hn : 0 < lengthQ (s :: rest)) by (by apply lengthQ_pos).
      assert (1 <= inject_Z (foldl Z.add 0%Z (s :: rest)) / lengthQ (s :: rest)).
      { apply Qle_shift_div_l; [done|]. unfold lengthQ.
        rewrite Qmult_1_l, <- Zle_Qle. lia. }
      lra. }
    rewrite (proj2 (Z.eqb_neq (Z.of_nat (length (s :: rest))) 0)) by (simpl; lia).
    split; [|by right].
    split; [lia|]. intros H%Hnil. done.
Qed.

Lemma calculateAverageRecoverySlope_zero_witness :
  calculateAverageRecoverySlope [[dayWith 5; dayWith (-1)]; [dayWith 2]] = 0%Z.
Proof.
  apply (proj1 (calculateAverageRecoverySlope_zero
                  [[dayWith 5; dayWith (-1)]; [dayWith 2]])).
  repeat constructor.
Defined.

End RecoveryLaws.

(* ===================================================================== *)
(** * Tail risk and classification                                         *)
(* ===================================================================== *)

Section TailLaws.

Import Arrays RiskEngine Spec.
Local Open Scope Q_scope.

Lemma sum_from (l : list Q) : ∀ acc, foldl Qplus acc l == acc + sum l.
Proof.
  unfold sum. induction l as [|x l IH]; intros acc; simpl; [ring|].
  rewrite (IH (acc + x)), (IH (0 + x)). ring.
Qed.

Lemma sum_cons x l : sum (x :: l) == x + sum l.
Proof. unfold sum at 1. simpl. rewrite sum_from. ring. Qed.

Lemma lengthQ_cons {A} (x : A) l : lengthQ (x :: l) == 1 + lengthQ l.
Proof.
  unfold lengthQ. simpl length. rewrite Nat2Z.inj_succ. unfold Z.succ.
  rewrite inject_Z_plus. change (inject_Z 1) with 1. ring.
Qed.





(** X12.  The shock clustering density of a trajectory without a day is
    NaN; of any other trajectory it is a finite number in [0, 1], which is
    0 when no day counts as negative. *)
Theorem calculateShockClusteringDensity_range :
  calculateShockClusteringDensity [] = NaN
  ∧ ∀ trajectory,
      trajectory ≠ [] →
      ∃ d, calculateShockClusteringDensity trajectory = Fin d
           ∧ 0 <= d ∧ d <= 1
           ∧ (Forall (λ state, isNegativeDay state = false) trajectory → d == 0).
Proof.
  split; [reflexivity|].
  intros trajectory Hne. unfold calculateShockClusteringDensity.
  set (negativeDays := filter (λ state, isNegativeDay state = true) trajectory).
  pose proof (lengthQ_pos trajectory Hne) as Hn.
  rewrite (div_Fin _ _ Hn). simpl. eexists. split; [reflexivity|].
  assert (H0 : 0 <= lengthQ negativeDays).
  { unfold lengthQ. change 0 with (inject_Z 0). rewrite <- Zle_Qle. lia. }
  assert (H1 : lengthQ negativeDays <= lengthQ trajectory)
    by (apply lengthQ_le, length_filter).
  destruct (ratio_unit _ _ H0 H1 Hn) as [Hr0 Hr1].
  split; [apply toFixed_nonneg; lra|].
  split; [by apply (toFixed_within 4 0 1)|].
  intros Hall.
  assert (E : negativeDays = []).
  { unfold negativeDays. apply filter_none.
    eapply Forall_impl; [exact Hall|]. intros st ->. done. }
  rewrite E. change (lengthQ (@nil WalletState)) with 0.
  assert (Ez : 0 / lengthQ trajectory == 0) by (field; lra).
  destruct (toFixed_within 4 0 0 (0 / lengthQ trajectory)); [reflexivity..|lra|lra|lra].
Qed.

Lemma calculateShockClusteringDensity_range_witness :
  ∃ d, calculateShockClusteringDensity [dayWith 5; dayWith (-1)] = Fin d
       ∧ 0 <= d ∧ d <= 1.
Proof.
  destruct (proj2 calculateShockClusteringDensity_range [dayWith 5; dayWith (-1)])
    as (d & H1 & H2 & H3 & _); [discriminate|].
  exists d. done.
Defined.

(** X13.  [getRiskLevel] puts a finite probability below 0.1 in [low],
    below 0.25 in [moderate], below 0.5 in [high] and any other in
    [critical]; a NaN probability fails every comparison and is
    [critical], so that the empty ensemble is classified [critical]; and
    the copy in the statistics engine gives the same level. *)
Theorem getRiskLevel_classes :
  (∀ p : Q,
     (p < 1 # 10 → getRiskLevel (Fin p) = low)
     ∧ (1 # 10 <= p → p < 25 # 100 → getRiskLevel (Fin p) = moderate)
     ∧ (25 # 100 <= p → p < 5 # 10 → getRiskLevel (Fin p) = high)
     ∧ (5 # 10 <= p → getRiskLevel (Fin p) = critical))
  ∧ getRiskLevel NaN = critical
  ∧ (∃ m, calculateCollapseProbability [] = Normal m
          ∧ getRiskLevel (collapseProbability m) = critical)
  ∧ (∀ x, StatsEngine.getRiskLevel x = getRiskLevel x).
Proof.
  split; [|split; [reflexivity|split; [eexists; split; reflexivity|done]]].
  intros p. unfold getRiskLevel, Nltb.
  repeat split; intros;
    repeat match goal with
           | |- context [Qltb ?a ?b] =>
               first [rewrite (proj2 (Qltb_true a b)) by lra
                     |rewrite (proj2 (Qltb_false a b)) by lra]
           end; done.
Qed.

Lemma getRiskLevel_classes_witness : getRiskLevel (Fin (3 # 10)) = high.
Proof.
  apply (proj1 getRiskLevel_classes (3 # 10)); [discriminate|reflexivity].
Defined.

End TailLaws.

(* ===================================================================== *)
(** * Ensemble statistics                                                  *)
(* ===================================================================== *)

Section StatisticsLaws.

Import Arrays RiskEngine StatsEngine Spec.
Local Open Scope Q_scope.

Lemma Qfloor_percent (n c : Z) : Qfloor (inject_Z n * (c # 100)) = (n * c / 100)%Z.
Proof. reflexivity. Qed.

Lemma at_index_Some {A} (l : list A) (i : Z) :
  (0 <= i < Z.of_nat (length l))%Z → ∃ x, at_index l i = Some x ∧ l !! Z.to_nat i = Some x.
Proof.
  intros Hi. unfold at_index. rewrite (proj2 (Z.ltb_ge i 0)) by lia.
  destruct (lookup_lt_is_Some_2 l (Z.to_nat i) ltac:(lia)) as [x Hx]. eauto.
Qed.

(** The values [calculateBalanceStats] reads from the sorted balances. *)
Lemma calculateBalanceStats_values (Math_sqrt : Q → Q) (balances : list Q) :
  balances ≠ [] →
  let sorted := sort balances in
  let n := Z.of_nat (length sorted) in
  ∃ vmin v5 vmed v95 vmax stdDev,
    sorted !! Z.to_nat 0 = Some vmin
    ∧ sorted !! Z.to_nat (n * 5 / 100) = Some v5
    ∧ sorted !! Z.to_nat (n / 2) = Some vmed
    ∧ sorted !! Z.to_nat (n * 95 / 100) = Some v95
    ∧ sorted !! Z.to_nat (n - 1) = Some vmax
    ∧ (0 <= n * 5 / 100 <= n / 2 ∧ n / 2 <= n * 95 / 100
       ∧ n * 95 / 100 <= n - 1)%Z
    ∧ calculateBalanceStats Math_sqrt balances
      = Normal (mkBalanceStats
                  (Fin (toFixed 2 (sum balances / inject_Z (Z.of_nat (length balances)))))
                  (toFixed 2 vmed) (toFixed 2 v5) (toFixed 2 v95)
                  (toFixed 2 vmin) (toFixed 2 vmax) stdDev).
Proof.
  intros Hne sorted n. unfold calculateBalanceStats. cbv zeta.
  unfold lengthQ. rewrite !Qfloor_percent.
  fold sorted. fold n.
  assert (Hn : (1 <= n)%Z).
  { unfold n, sorted. rewrite length_sort. destruct balances; [done|simpl; lia]. }
  assert (Hidx : (0 <= n * 5 / 100 <= n / 2 ∧ n / 2 <= n * 95 / 100
                  ∧ n * 95 / 100 <= n - 1)%Z)
    by (Z.div_mod_to_equations; lia).
  destruct Hidx as ([Hi0 Hi1] & Hi2 & Hi3).
  destruct (at_index_Some sorted (n / 2)) as (vmed & -> & Hmed); [fold n; lia|].
  destruct (at_index_Some sorted (n * 5 / 100)) as (v5 & -> & H5); [fold n; lia|].
  destruct (at_index_Some sorted (n * 95 / 100)) as (v95 & -> & H95); [fold n; lia|].
  destruct (at_index_Some sorted 0) as (vmin & -> & Hmin); [fold n; lia|].
  destruct (at_index_Some sorted (n - 1)) as (vmax & -> & Hmax); [fold n; lia|].
  simpl.
  pose proof (lengthQ_pos balances Hne) as HnQ. unfold lengthQ in HnQ.
  rewrite (div_Fin _ _ HnQ). simpl.
  eexists vmin, v5, vmed, v95, vmax, _. repeat split; try done.
Qed.



Lemma calculateCollapseProbability_returns (trajectories : list (list WalletState)) :
  Forall (λ t, t ≠ []) trajectories →
  ∃ m, calculateCollapseProbability trajectories = Normal m.
Proof.
  intros Hdays. unfold calculateCollapseProbability, calculateMaxDrawdown.
  destruct (foldl scanTrajectory ([], 0%Z) trajectories) as [tim cnt].
  destruct (drawdownAll_bounds trajectories 0 Hdays ltac:(lra)) as (w & -> & _).
  simpl. eauto.
Qed.

Lemma creditScoresOf_nonempty (trajectories : list (list WalletState)) :
  Forall (λ t, t ≠ []) trajectories →
  ∃ scores,
    mapM (λ t : list WalletState, field "creditScore" creditScore (last t)) trajectories
    = Normal scores.
Proof.
  induction 1 as [|t trajectories Ht _ (scores & IH)]; simpl; [by exists []|].
  destruct (last t) as [state|] eqn:El; [|by apply last_None in El].
  simpl. rewrite IH. simpl. eauto.
Qed.

Lemma assetTotalsAll_nonempty (trajectories : list (list WalletState)) : ∀ acc,
  Forall (λ t, t ≠ []) trajectories →
  ∃ totals, assetTotalsAll acc trajectories = Normal totals.
Proof.
  induction trajectories as [|t trajectories IH]; intros acc Hne; simpl; [eauto|].
  apply Forall_cons in Hne as [Ht Hne].
  unfold assetTotals.
  destruct (last t) as [state|] eqn:El; [|by apply last_None in El].
  simpl. by apply IH.
Qed.

(** X15.  On a non-empty ensemble whose trajectories all have a day,
    [generateStatistics] fails only where the vibe engine fails: it
    returns when that one returns, with its vibe and with the risk metrics
    of [calculateCollapseProbability], and throws what that one throws. *)
Theorem generateStatistics_returns
        (Math_sqrt : Q → Q) (VibeState : Type)
        (calculateAverageVibe : list (list WalletState) → Completion VibeState)
        (trajectories : list (list WalletState)) :
  trajectories ≠ [] → Forall (λ t, t ≠ []) trajectories →
  (∀ v,
     calculateAverageVibe trajectories = Normal v →
     ∃ out,
       generateStatistics Math_sqrt VibeState calculateAverageVibe trajectories
         = Normal out
       ∧ vibe VibeState out = v
       ∧ calculateCollapseProbability trajectories
         = Normal (risk VibeState out))
  ∧ (∀ e,
       calculateAverageVibe trajectories = Throw e →
       generateStatistics Math_sqrt VibeState calculateAverageVibe trajectories
         = Throw e).
Proof.
  intros Hne Hdays. unfold generateStatistics.
  destruct (finalBalancesOf_nonempty trajectories Hdays) as (finals & -> & Hlen).
  destruct (creditScoresOf_nonempty trajectories Hdays) as (scores & ->).
  assert (Hfne : finals ≠ []) by (destruct finals, trajectories; done).
  destruct (calculateBalanceStats_values Math_sqrt finals Hfne)
    as (? & ? & ? & ? & ? & ? & _ & _ & _ & _ & _ & _ & Hbs).
  destruct (calculateCollapseProbability_returns trajectories Hdays) as (rm & Hrm).
  unfold calculateAssetStats.
  destruct (assetTotalsAll_nonempty trajectories (0, 0) Hdays) as (totals & Ht).
  split.
  - intros v Hv. eexists. simpl. rewrite Hbs. simpl. rewrite Ht. simpl.
    rewrite Hrm. simpl. rewrite Hv. simpl. split; [reflexivity|]. done.
  - intros e He. simpl. rewrite Hbs. simpl. rewrite Ht. simpl.
    rewrite Hrm. simpl. rewrite He. done.
Qed.

Lemma generateStatistics_returns_witness :
  ∃ out,
    generateStatistics (λ x, x) unit (λ _, Normal tt) twoRuns = Normal out
    ∧ calculateCollapseProbability twoRuns
      = Normal (risk unit out).
Proof.
  destruct (proj1 (generateStatistics_returns (λ x, x) unit (λ _, Normal tt) twoRuns
                     ltac:(discriminate)
                     ltac:(repeat constructor; discriminate)) tt eq_refl)
    as (out & H1 & _ & H3).
  exists out. done.
Defined.

End StatisticsLaws.

Section ResilienceLaws.

Import Arrays RiskEngine StatsEngine Spec.
Local Open Scope Q_scope.

Implicit Types (days pre rest : list WalletState).

Lemma firstRecovery_later days : ∀ j r, firstRecovery j days = Some r → (j <= r)%Z.
Proof.
  induction days as [|st days IH]; intros j r; simpl; [done|].
  destruct (Qle_bool 0 (balance st)); [intros [= <-]; lia|].
  intros H%IH. lia.
Qed.

Lemma firstRecovery_none days : ∀ j,
  Forall (λ st, balance st < 0) days → firstRecovery j days = None.
Proof.
  induction days as [|st days IH]; intros j Hall; simpl; [done|].
  apply Forall_cons in Hall as [Hst Hall].
  rewrite (proj2 (Qle_bool_false 0 (balance st))) by done. by apply IH.
Qed.

Lemma rsiFrom_entries days : ∀ i prev rec,
  Forall (λ s, 1 <= s)%Z rec → Forall (λ s, 1 <= s)%Z (rsiFrom i prev days rec).
Proof.
  induction days as [|st days IH]; intros i prev rec Hrec; simpl; [done|].
  apply IH.
  destruct (Qle_bool 0 prev && Qltb (balance st) 0); [|done].
  destruct (firstRecovery (i + 1) days) as [j|] eqn:E; [|done].
  apply firstRecovery_later in E. apply Forall_app. split; [done|].
  repeat constructor. lia.
Qed.

Lemma rsiFrom_nonneg days : ∀ i prev rec,
  Forall (λ st, 0 <= balance st) days → rsiFrom i prev days rec = rec.
Proof.
  induction days as [|st days IH]; intros i prev rec Hall; simpl; [done|].
  apply Forall_cons in Hall as [Hst Hall].
  rewrite (proj2 (Qltb_false (balance st) 0)) by done.
  rewrite andb_false_r. by apply IH.
Qed.

Lemma rsiFrom_negative days : ∀ i prev rec,
  Forall (λ st, balance st < 0) days → rsiFrom i prev days rec = rec.
Proof.
  induction days as [|st days IH]; intros i prev rec Hall; simpl; [done|].
  apply Forall_cons in Hall as [Hst Hall].
  rewrite firstRecovery_none by done.
  destruct (Qle_bool 0 prev && Qltb (balance st) 0); by apply IH.
Qed.

Lemma rsiFrom_unrecovered pre : ∀ i prev rest rec,
  Forall (λ st, 0 <= balance st) pre → Forall (λ st, balance st < 0) rest →
  rsiFrom i prev (pre ++ rest) rec = rec.
Proof.
  induction pre as [|st pre IH]; intros i prev rest rec Hpre Hrest; simpl.
  { by apply rsiFrom_negative. }
  apply Forall_cons in Hpre as [Hst Hpre].
  rewrite (proj2 (Qltb_false (balance st) 0)) by done.
  rewrite andb_false_r. by apply IH.
Qed.

Lemma rsiFrom_late_start pre : ∀ i prev rest rec,
  prev < 0 →
  Forall (λ st, balance st < 0) pre → Forall (λ st, 0 <= balance st) rest →
  rsiFrom i prev (pre ++ rest) rec = rec.
Proof.
  induction pre as [|st pre IH]; intros i prev rest rec Hprev Hpre Hrest; simpl.
  { by apply rsiFrom_nonneg. }
  apply Forall_cons in Hpre as [Hst Hpre].
  rewrite (proj2 (Qle_bool_false 0 prev)) by done. simpl. by apply IH.
Qed.

(** X16.  The resilience index lies between 0 and 100.  It is 100 for a
    trajectory whose balance turns negative and stays negative to the
    end, and for one that is negative from its first day and then stays
    out of the negative: only a fall from a balance that is not negative,
    followed by a recovery, lowers it. *)
Theorem calculateRSI_range :
  (∀ trajectory, 0 <= calculateRSI trajectory ∧ calculateRSI trajectory <= 100)
  ∧ (∀ pre rest,
       Forall (λ st, 0 <= balance st) pre → Forall (λ st, balance st < 0) rest →
       calculateRSI (pre ++ rest) = 100)
  ∧ (∀ first pre rest,
       balance first < 0 →
       Forall (λ st, balance st < 0) pre → Forall (λ st, 0 <= balance st) rest →
       calculateRSI (first :: pre ++ rest) = 100).
Proof.
  split; [|split].
  - intros trajectory. unfold calculateRSI.
    set (recoveries := match trajectory with
                       | [] => []
                       | first :: rest => rsiFrom 1 (balance first) rest []
                       end).
    assert (Hrec : Forall (λ s, 1 <= s)%Z recoveries).
    { unfold recoveries. destruct trajectory; [constructor|].
      apply rsiFrom_entries. constructor. }
    destruct (Z.of_nat (length recoveries) =? 0)%Z eqn:E; cbv iota; [split; lra|].
    apply Z.eqb_neq in E.
    pose proof (sum_at_least recoveries 0%Z Hrec) as Hsum.
    assert (Hn : 0 < lengthQ recoveries).
    { apply lengthQ_pos. intros Hnil. rewrite Hnil in E. done. }
    set (avg := inject_Z (foldl Z.add 0%Z recoveries) / lengthQ recoveries).
    assert (Havg : 0 <= avg).
    { apply Qle_shift_div_l; [done|]. rewrite Qmult_0_l.
      change 0 with (inject_Z 0). rewrite <- Zle_Qle. lia. }
    assert (Hmin : 0 <= Math_min (avg / 50) 100 ∧ Math_min (avg / 50) 100 <= 100).
    { assert (0 <= avg / 50) by (apply Qle_shift_div_l; lra).
      unfold Math_min. destruct (Qle_bool (avg / 50) 100) eqn:Em.
      - apply Qle_bool_iff in Em. split; lra.
      - split; lra. }
    apply (toFixed_within 2 0 100); [reflexivity|reflexivity|lra|lra].
  - intros pre rest Hpre Hrest. unfold calculateRSI.
    destruct pre as [|p pre]; simpl.
    + destruct rest as [|r rest]; [done|].
      apply Forall_cons in Hrest as [_ Hrest].
      by rewrite rsiFrom_negative.
    + apply Forall_cons in Hpre as [_ Hpre]. by rewrite rsiFrom_unrecovered.
  - intros first pre rest Hfirst Hpre Hrest. unfold calculateRSI.
    by rewrite rsiFrom_late_start.
Qed.

Lemma calculateRSI_range_witness :
  calculateRSI ([dayWith 5; dayWith 3] ++ [dayWith (-1); dayWith (-2)]) = 100.
Proof.
  apply (proj1 (proj2 calculateRSI_range)).
  - repeat constructor; discriminate.
  - repeat constructor.
Defined.

End ResilienceLaws.

(* ===================================================================== *)
(** * Tax, credit and rate updates                                         *)
(* ===================================================================== *)

Section TaxLaws.

Import Arrays CurrencyEngine TaxEngine Spec.
Local Open Scope Q_scope.

(** X17.  The income tax is not negative for an income that is not
    negative, but it is not monotone: the whole income is taxed at 10% up
    to 5000 and only the part above 5000 at 12% beyond, so that the tax of
    500 on 5000 falls for every income above 5000 up to 9166; above 10000
    it is at least 1200, against 600 on 10000. *)
Theorem calculateIncomeTax_brackets :
  (∀ income, 0 <= income → 0 <= calculateIncomeTax income)
  ∧ calculateIncomeTax 5000 == 500
  ∧ (∀ income,
       5000 < income → income <= 9166 →
       calculateIncomeTax income < calculateIncomeTax 5000)
  ∧ calculateIncomeTax 10000 == 600
  ∧ (∀ income, 10000 < income → 1200 <= calculateIncomeTax income).
Proof.
  split; [|split; [by vm_compute|split; [|split; [by vm_compute|]]]].
  - intros income H0. unfold calculateIncomeTax. apply toFixed_nonneg.
    destruct (Qltb 10000 income) eqn:E1; [apply Qltb_true in E1; lra|].
    destruct (Qltb 5000 income) eqn:E2; [apply Qltb_true in E2; lra|lra].
  - intros income H1 H2.
    assert (E5 : calculateIncomeTax 5000 == 500) by (by vm_compute). rewrite E5.
    unfold calculateIncomeTax.
    rewrite (proj2 (Qltb_false 10000 income)) by lra.
    rewrite (proj2 (Qltb_true 5000 income)) by done.
    pose proof (toFixed_mono 2 (0 + (income - 5000) * (12 # 100)) (49992 # 100)
                  ltac:(lra)) as Hm.
    assert (Ev : toFixed 2 (49992 # 100) == 49992 # 100) by (by vm_compute).
    lra.
  - intros income H1. unfold calculateIncomeTax.
    rewrite (proj2 (Qltb_true 10000 income)) by done.
    pose proof (toFixed_mono 2 1200 (0 + (income - 10000) * (24 # 100) + 10000 * (12 # 100))
                  ltac:(lra)) as Hm.
    assert (Ev : toFixed 2 1200 == 1200) by (by vm_compute).
    lra.
Qed.

Lemma calculateIncomeTax_brackets_witness :
  calculateIncomeTax 6000 < calculateIncomeTax 5000.
Proof.
  apply (proj1 (proj2 (proj2 calculateIncomeTax_brackets)) 6000); [reflexivity|discriminate].
Defined.

(** X18.  The tax on a realised gain is 0 when the sale price does not
    exceed the cost basis and is never negative; holding for 365 days or
    more never raises it; and a base value of 0 counts as absent, the
    amount taking its place as the cost basis. *)
Theorem calculateRealizedGainsTax_cases asset salePrice :
  (∀ days, salePrice <= costBasis asset →
           calculateRealizedGainsTax asset salePrice days = 0)
  ∧ (∀ days, 0 <= calculateRealizedGainsTax asset salePrice days)
  ∧ (∀ long short,
       365 <= long → short < 365 →
       calculateRealizedGainsTax asset salePrice long
       <= calculateRealizedGainsTax asset salePrice short)
  ∧ (baseValue asset = Some 0 → costBasis asset = amount asset)
  ∧ (baseValue asset = None → costBasis asset = amount asset).
Proof.
  split; [|split; [|split; [|split]]].
  - intros days H. unfold calculateRealizedGainsTax.
    by rewrite (proj2 (Qle_bool_iff (salePrice - costBasis asset) 0)) by lra.
  - intros days. unfold calculateRealizedGainsTax.
    destruct (Qle_bool (salePrice - costBasis asset) 0) eqn:E; [lra|].
    apply Qle_bool_false in E. apply toFixed_nonneg.
    destruct (Qle_bool 365 days); unfold longTermGainRate, shortTermGainRate; lra.
  - intros long short Hl Hs. unfold calculateRealizedGainsTax.
    destruct (Qle_bool (salePrice - costBasis asset) 0) eqn:E; [lra|].
    apply Qle_bool_false in E.
    rewrite (proj2 (Qle_bool_iff 365 long)) by done.
    rewrite (proj2 (Qle_bool_false 365 short)) by done.
    apply toFixed_mono. unfold longTermGainRate, shortTermGainRate. lra.
  - unfold costBasis. by intros ->.
  - unfold costBasis. by intros ->.
Qed.

Lemma calculateRealizedGainsTax_cases_witness :
  calculateRealizedGainsTax scenarioStock 900 10 = 0.
Proof.
  apply (proj1 (calculateRealizedGainsTax_cases scenarioStock 900) 10). discriminate.
Defined.

(** X19.  [updateRates] keeps the stored pairs and sets the new
    timestamp; each rate becomes [Number((rate * (1 + shock)).toFixed(6))]
    for a shock of [(random - 0.5) * volatility]; and for a random value in
    [0, 1), a volatility in [0, 2] and a rate that is not negative, the new
    rate is not negative and lies within [rate * volatility / 2] of the
    old one, to half of [10^-6]. *)
Theorem updateRates_band (random : string → Q) now volatility tbl pair :
  timestamp (updateRates random now volatility tbl) = now
  ∧ (rates (updateRates random now volatility tbl) !! pair = None
     ↔ rates tbl !! pair = None)
  ∧ ∀ r,
      rates tbl !! pair = Some r →
      ∃ r',
        rates (updateRates random now volatility tbl) !! pair = Some r'
        ∧ r' = toFixed 6 (r * (1 + (random pair - (1 # 2)) * volatility))
        ∧ (0 <= random pair → random pair < 1 →
           0 <= volatility → volatility <= 2 → 0 <= r →
           0 <= r'
           ∧ r * (1 - volatility / 2) - (1 # 2000000) <= r'
           ∧ r' <= r * (1 + volatility / 2) + (1 # 2000000)).
Proof.
  unfold updateRates. simpl. rewrite map_lookup_imap.
  split; [done|]. split.
  - destruct (rates tbl !! pair); simpl; done.
  - intros r ->. simpl. eexists. split; [reflexivity|]. split; [reflexivity|].
    intros Hr0 Hr1 Hv0 Hv2 Hr.
    set (u := random pair) in *.
    assert (H1 : 0 <= (u * volatility) * r).
    { apply Qmult_le_0_compat; [|done]. by apply Qmult_le_0_compat. }
    assert (H2 : 0 <= ((1 - u) * volatility) * r).
    { apply Qmult_le_0_compat; [|done]. apply Qmult_le_0_compat; lra. }
    assert (H3 : 0 <= (2 - volatility) * r) by (apply Qmult_le_0_compat; lra).
    assert (Ev : r * (1 + (u - (1 # 2)) * volatility)
                 == r + u * volatility * r - (1 # 2) * (volatility * r)) by ring.
    assert (E1 : (1 - u) * volatility * r == volatility * r - u * volatility * r) by ring.
    assert (E2 : (2 - volatility) * r == 2 * r - volatility * r) by ring.
    assert (E3 : r * (1 - volatility / 2) == r - (1 # 2) * (volatility * r)) by field.
    assert (E4 : r * (1 + volatility / 2) == r + (1 # 2) * (volatility * r)) by field.
    destruct (toFixed6_error (r * (1 + (u - (1 # 2)) * volatility))) as [T1 T2].
    set (v := r * (1 + (u - (1 # 2)) * volatility)) in *.
    split; [apply toFixed_nonneg; lra|]. change precision with 6%nat.
    split; lra.
Qed.

Lemma updateRates_band_witness :
  ∃ r',
    rates (updateRates (λ _, 1 # 4) 5 (2 # 100) scenarioRates) !! "USD/EUR"%string
      = Some r'
    ∧ r' = toFixed 6 ((92 # 100) * (1 + ((1 # 4) - (1 # 2)) * (2 # 100))).
Proof.
  destruct (proj2 (proj2 (updateRates_band (λ _, 1 # 4) 5 (2 # 100) scenarioRates
                            "USD/EUR"%string)) (92 # 100) eq_refl)
    as (r' & H1 & H2 & _).
  exists r'. split; assumption.
Defined.

End TaxLaws.

Section CreditLaws.

Import Arrays CreditEngine Spec.
Local Open Scope Q_scope.




Lemma calculateTotalDebt_nonneg (liabilities : list Liability) : ∀ acc,
  Forall (λ l, 0 <= principalBalance l) liabilities → 0 <= acc →
  0 <= foldl (λ sum liability, sum + principalBalance liability) acc liabilities.
Proof.
  induction liabilities as [|l liabilities IH]; intros acc Hall Hacc; simpl; [done|].
  apply Forall_cons in Hall as [Hl Hall]. apply IH; [done|lra].
Qed.

(** X21.  The credit score is a whole number from 300 to 850; with a
    balance that is not positive, principal balances that are not negative
    and a monthly income that is not negative it is at most 550. *)
Theorem updateCreditScore_range state monthlyIncome :
  (300 <= updateCreditScore state monthlyIncome <= 850)%Z
  ∧ (balance state <= 0 → 0 <= monthlyIncome →
     Forall (λ l, 0 <= principalBalance l) (liabilities state) →
     (updateCreditScore state monthlyIncome <= 550)%Z).
Proof.
  unfold updateCreditScore. cbv zeta.
  set (ratio := calculateDebtRatio _ _).
  set (bonus := if Qltb 0 (balance state) then _ else _).
  set (raw := baseScore + bonus - ratio * 300 + Math_min (balance state / 5000) 100).
  assert (Hclamp : 300 <= Math_max minScore (Math_min raw maxScore)
                   ∧ Math_max minScore (Math_min raw maxScore) <= 850
                   ∧ (raw <= 550 → Math_max minScore (Math_min raw maxScore) <= 550)).
  { unfold Math_max, Math_min, minScore, maxScore.
    destruct (Qle_bool raw 850) eqn:E1;
      [apply Qle_bool_iff in E1|apply Qle_bool_false in E1].
    - destruct (Qle_bool 300 raw) eqn:E2;
        [apply Qle_bool_iff in E2|apply Qle_bool_false in E2]; repeat split; lra.
    - rewrite (proj2 (Qle_bool_iff 300 850)) by lra. repeat split; lra. }
  destruct Hclamp as (H1 & H2 & H3).
  set (clamped := Math_max minScore (Math_min raw maxScore)) in *.
  assert (Hround : ∀ lo hi : Z, inject_Z lo <= clamped → clamped <= inject_Z hi →
                                (lo <= Math_round clamped <= hi)%Z).
  { intros lo hi Hlo Hhi. unfold Math_round. split.
    - rewrite <- (Qfloor_Z lo). apply Qfloor_resp_le. lra.
    - apply Z.lt_succ_r. rewrite Zlt_Qlt.
      eapply Qle_lt_trans; [apply Qfloor_le|].
      unfold Z.succ. rewrite inject_Z_plus. change (inject_Z 1) with 1. lra. }
  split; [by apply (Hround 300 850)%Z|].
  intros Hb Hinc Hdebt.
  apply (Hround 300 550)%Z; [done|]. apply H3. unfold raw.
  assert (Hbonus : bonus == - (100)).
  { unfold bonus. by rewrite (proj2 (Qltb_false 0 (balance state))). }
  assert (Hratio : 0 <= ratio).
  { unfold ratio, calculateDebtRatio.
    destruct (Qeq_bool monthlyIncome 0) eqn:E; [lra|].
    assert (0 < monthlyIncome).
    { destruct (Qlt_le_dec 0 monthlyIncome); [done|].
      assert (monthlyIncome == 0) by lra.
      apply Qeq_bool_iff in H. congruence. }
    unfold Math_min. destruct (Qle_bool _ 1); [|lra].
    apply Qle_shift_div_l; [lra|]. rewrite Qmult_0_l.
    apply calculateTotalDebt_nonneg; [done|lra]. }
  assert (Hmin : Math_min (balance state / 5000) 100 <= 0).
  { assert (balance state / 5000 <= 0) by (apply Qle_shift_div_r; lra).
    unfold Math_min. destruct (Qle_bool _ 100) eqn:E; [done|].
    apply Qle_bool_false in E. lra. }
  unfold baseScore. lra.
Qed.

Lemma updateCreditScore_range_witness :
  (updateCreditScore (mkWalletState 0 (- (20)) [] [] 700 0 []) 1000 <= 550)%Z.
Proof.
  apply (proj2 (updateCreditScore_range (mkWalletState 0 (- (20)) [] [] 700 0 []) 1000)).
  - discriminate.
  - discriminate.
  - constructor.
Defined.

End CreditLaws.

(* ===================================================================== *)
(** * Credit and asset statistics                                          *)
(* ===================================================================== *)

Section DistributionLaws.

Import Arrays RiskEngine StatsEngine Spec.
Local Open Scope Q_scope.

Lemma countIf_cons (p : Q → bool) x l :
  countIf p (x :: l) == (if p x then 1 else 0) + countIf p l.
Proof.
  unfold countIf. rewrite filter_cons.
  destruct (p x) eqn:E.
  - rewrite decide_True by done. apply lengthQ_cons.
  - rewrite decide_False by (by intros ?). lra.
Qed.

Lemma countIf_tier (p : Q → bool) tier (l : list Q) :
  (∀ s, p s = true ↔ getCreditTier s = tier) →
  countIf p l = lengthQ (filter (λ s, getCreditTier s = tier) l).
Proof.
  intros Hp. unfold countIf. f_equal.
  induction l as [|x l IH]; [done|].
  rewrite !filter_cons, IH.
  destruct (decide (p x = true)) as [E|E], (decide (getCreditTier x = tier)) as [T|T];
    try done; by apply Hp in E || apply Hp in T.
Qed.

Lemma countIf_bounds (p : Q → bool) (l : list Q) :
  0 <= countIf p l ∧ countIf p l <= lengthQ l.
Proof.
  unfold countIf, lengthQ. rewrite <- !Zle_Qle. change 0 with (inject_Z 0).
  rewrite <- Zle_Qle. pose proof (length_filter (λ x, p x = true) l). lia.
Qed.

Lemma tiers_partition (l : list Q) :
  let share tier := lengthQ (filter (λ s, getCreditTier s = tier) l) in
  share tierExcellent + share tierGood + share tierFair + share tierPoor
  + share tierBad == lengthQ l.
Proof.
  induction l as [|x l IH]; [reflexivity|]. cbv beta zeta in *.
  rewrite !filter_cons, lengthQ_cons, <- IH.
  destruct (getCreditTier x); simpl; rewrite lengthQ_cons; ring.
Qed.

Lemma percent_range count total :
  0 <= count → count <= total → 0 < total →
  0 <= toFixed 2 (count / total * 100) ∧ toFixed 2 (count / total * 100) <= 100.
Proof.
  intros H0 H1 Ht. destruct (ratio_unit count total H0 H1 Ht) as [R0 R1].
  apply toFixed_within; [by vm_compute|by vm_compute|lra|lra].
Qed.

Ltac tier_cases :=
  let s := fresh "s" in
  intros s; unfold getCreditTier; cbv beta;
  destruct (Qle_bool 750 s) eqn:?, (Qle_bool 670 s) eqn:?,
           (Qle_bool 580 s) eqn:?, (Qle_bool 450 s) eqn:?;
  simpl; split; intros ?; try congruence;
  repeat match goal with
         | H : Qle_bool _ _ = true |- _ => apply Qle_bool_iff in H
         | H : Qle_bool _ _ = false |- _ => apply Qle_bool_false in H
         end; lra.

(** X22.  In the credit statistics of a non-empty list of final scores
    each of the five percentages is the share of the scores that
    [getCreditTier] puts in that tier, times 100 and rounded to two places;
    the five shares add up to the number of scores, and every percentage
    lies between 0 and 100.  For an empty list the mean and all five
    percentages are [NaN]. *)
Theorem calculateCreditStats_distribution trajectories (scores : list Q) :
  let stats := calculateCreditStats trajectories scores in
  let d := finalDistribution stats in
  let share tier := lengthQ (filter (λ s, getCreditTier s = tier) scores) in
  let percent tier := toFixed 2 (share tier / lengthQ scores * 100) in
  (scores ≠ [] →
   excellent d = Fin (percent tierExcellent)
   ∧ good d = Fin (percent tierGood)
   ∧ fair d = Fin (percent tierFair)
   ∧ poor d = Fin (percent tierPoor)
   ∧ bad d = Fin (percent tierBad)
   ∧ share tierExcellent + share tierGood + share tierFair + share tierPoor
     + share tierBad == lengthQ scores
   ∧ ∀ tier, 0 <= percent tier ∧ percent tier <= 100)
  ∧ (scores = [] →
     cs_mean stats = NaN ∧ d = mkDistribution NaN NaN NaN NaN NaN).
Proof.
  cbv beta zeta. split.
  - intros Hne. pose proof (lengthQ_pos scores Hne) as Hlen.
    assert (Hge : ∀ a b, Qle_bool a b = true ↔ a <= b) by apply Qle_bool_iff.
    assert (Hlt : ∀ a b, negb (Qle_bool a b) = true ↔ b < a).
    { intros a b. rewrite negb_true_iff. apply Qle_bool_false. }
    unfold calculateCreditStats. simpl.
    rewrite !div_Fin by done. simpl.
    rewrite (countIf_tier _ tierExcellent), (countIf_tier _ tierGood),
            (countIf_tier _ tierFair), (countIf_tier _ tierPoor),
            (countIf_tier _ tierBad).
    + repeat (split; [reflexivity|]). split; [apply tiers_partition|].
      intros tier. apply percent_range; [| |done].
      * change 0 with (inject_Z 0). unfold lengthQ. rewrite <- Zle_Qle. lia.
      * apply lengthQ_le. apply length_filter.
    + tier_cases.
    + tier_cases.
    + tier_cases.
    + tier_cases.
    + tier_cases.
  - intros ->. split; reflexivity.
Qed.

Lemma calculateCreditStats_distribution_witness :
  excellent (finalDistribution (calculateCreditStats [] [800; 700; 400; 760]))
  = Fin (toFixed 2
           (lengthQ (filter (λ s, getCreditTier s = tierExcellent) [800; 700; 400; 760])
            / lengthQ [800; 700; 400; 760] * 100)).
Proof.
  apply (calculateCreditStats_distribution [] [800; 700; 400; 760]). discriminate.
Defined.

Lemma sum_filter_le (P : Asset → Prop) `{!∀ a, Decision (P a)} (l : list Asset) :
  Forall (λ a, 0 <= amount a) l →
  0 <= sum (amount <$> filter P l)
  ∧ sum (amount <$> filter P l) <= sum (amount <$> l).
Proof.
  induction l as [|a l IH]; intros Hall; [split; discriminate|].
  apply Forall_cons in Hall as [Ha Hall]. destruct (IH Hall) as [I0 I1].
  rewrite filter_cons. destruct (decide (P a)); rewrite ?fmap_cons, ?sum_cons; lra.
Qed.

Lemma assetTotals_keeps acc t s :
  last t = Some s → Forall (λ a, 0 <= amount a) (assets s) →
  ∃ acc',
    assetTotals acc t = Normal acc'
    ∧ acc.1 <= acc'.1 ∧ acc.2 <= acc'.2 ∧ acc'.2 <= acc.2 + 1
    ∧ (Forall (λ a, liquidityClass a ≠ liquid) (assets s) → acc'.2 == acc.2).
Proof.
  intros Hlast Hall. unfold assetTotals. rewrite Hlast. simpl.
  destruct (sum_filter_le (λ a, liquidityClass a = liquid) (assets s) Hall) as [L0 L1].
  eexists. split; [reflexivity|]. simpl.
  set (nav := sum (amount <$> assets s)) in *.
  set (liq := sum (amount <$> filter _ (assets s))) in *.
  destruct (Qltb 0 nav) eqn:E.
  - apply Qltb_true in E. destruct (ratio_unit liq nav L0 L1 E) as [R0 R1].
    repeat split; try lra.
    intros Hnone. unfold liq. rewrite filter_none; [|done].
    assert (Ez : sum (amount <$> []) / nav == 0) by (by vm_compute). lra.
  - apply Qltb_false in E. repeat split; try lra.
Qed.

Lemma assetTotalsAll_keeps ts : ∀ acc,
  Forall (λ t, ∃ s, last t = Some s ∧ Forall (λ a, 0 <= amount a) (assets s)) ts →
  ∃ acc',
    assetTotalsAll acc ts = Normal acc'
    ∧ acc.1 <= acc'.1 ∧ acc.2 <= acc'.2 ∧ acc'.2 <= acc.2 + lengthQ ts
    ∧ (Forall (λ t, ∀ s, last t = Some s →
                         Forall (λ a, liquidityClass a ≠ liquid) (assets s)) ts →
       acc'.2 == acc.2).
Proof.
  induction ts as [|t ts IH]; intros acc Hall; simpl.
  { exists acc. repeat split; try lra. change (lengthQ []) with 0. lra. }
  apply Forall_cons in Hall as [(s & Hlast & Hs) Hall].
  destruct (assetTotals_keeps acc t s Hlast Hs) as (a1 & -> & A1 & A2 & A3 & A4).
  simpl. destruct (IH a1 Hall) as (a2 & -> & B1 & B2 & B3 & B4).
  exists a2. split; [done|]. pose proof (lengthQ_cons t ts).
  repeat split; try lra.
  intros [Ht Hts]%Forall_cons. rewrite (B4 Hts). apply A4. by apply Ht.
Qed.

(** X23.  On a non-empty ensemble whose final states hold no negative
    amount, [calculateAssetStats] returns finite numbers: an average NAV
    that is not negative, reported twice, and a liquidity ratio between 0
    and 1, which is 0 when no final state holds a liquid asset.  On an
    empty ensemble all three are [NaN], and an empty trajectory makes it
    raise the [TypeError] of reading [assets] of [undefined]. *)
Theorem calculateAssetStats_range :
  (∀ trajectories,
     trajectories ≠ [] →
     Forall (λ t, ∃ s, last t = Some s ∧ Forall (λ a, 0 <= amount a) (assets s))
            trajectories →
     ∃ n r,
       calculateAssetStats trajectories = Normal (mkAssetStats (Fin n) (Fin n) (Fin r))
       ∧ 0 <= n ∧ 0 <= r ∧ r <= 1
       ∧ (Forall (λ t, ∀ s, last t = Some s →
                            Forall (λ a, liquidityClass a ≠ liquid) (assets s))
                 trajectories → r == 0))
  ∧ calculateAssetStats [] = Normal (mkAssetStats NaN NaN NaN)
  ∧ (∀ trajectories, calculateAssetStats ([] :: trajectories) = Throw (TypeError "assets")).
Proof.
  split; [|split; [reflexivity|reflexivity]].
  intros ts Hne Hall. pose proof (lengthQ_pos ts Hne) as Hlen.
  destruct (assetTotalsAll_keeps ts (0, 0) Hall) as (tot & Htot & T1 & T2 & T3 & T4).
  simpl in T1, T2, T3, T4.
  unfold calculateAssetStats. rewrite Htot. simpl. rewrite !div_Fin by done. simpl.
  eexists _, _. split; [reflexivity|].
  assert (R : 0 <= tot.2 / lengthQ ts ∧ tot.2 / lengthQ ts <= 1)
    by (apply ratio_unit; lra).
  assert (M : 0 <= Math_min (tot.2 / lengthQ ts) 1 ∧ Math_min (tot.2 / lengthQ ts) 1 <= 1).
  { unfold Math_min. destruct (Qle_bool _ 1); lra. }
  split; [|split; [|split]].
  - apply toFixed_nonneg. apply Qle_shift_div_l; lra.
  - apply toFixed_nonneg. lra.
  - apply (toFixed_within 4 0 1); [by vm_compute|by vm_compute|lra|lra].
  - intros Hnone. specialize (T4 Hnone).
    assert (E : tot.2 / lengthQ ts == 0) by (rewrite T4; field; lra).
    assert (E' : Math_min (tot.2 / lengthQ ts) 1 == 0).
    { unfold Math_min. destruct (Qle_bool _ 1) eqn:B; [done|].
      apply Qle_bool_false in B. lra. }
    assert (U : toFixed 4 (Math_min (tot.2 / lengthQ ts) 1) <= toFixed 4 0)
      by (apply toFixed_mono; lra).
    pose proof (toFixed_nonneg 4 _ (proj1 M)) as L.
    assert (Z0 : toFixed 4 0 == 0) by (by vm_compute). lra.
Qed.

Lemma calculateAssetStats_range_witness :
  ∃ n r,
    calculateAssetStats
      [[mkWalletState 0 10 scenarioAssets [] 700 0 []]]
    = Normal (mkAssetStats (Fin n) (Fin n) (Fin r))
    ∧ 0 <= n ∧ 0 <= r ∧ r <= 1.
Proof.
  destruct (proj1 calculateAssetStats_range
              [[mkWalletState 0 10 scenarioAssets [] 700 0 []]])
    as (n & r & H & Hn & Hr0 & Hr1 & _).
  - discriminate.
  - repeat constructor. eexists. split; [reflexivity|]. simpl.
    repeat constructor; discriminate.
  - exists n, r. repeat split; assumption.
Defined.

End DistributionLaws.
